(** * ckeditor5-engine: model ranges, operations and the live selection

    A shallow embedding of [src/model/range.js] (Range and the
    ReinsertOperation that follows it in the same file), of the attribute
    ChangeOperation and of LiveSelection, with the properties of the
    specification that concern them.

    Conventions.
    - Tree offsets and path segments are non-negative integers: [nat].
      Document versions are integers: [Z].
    - A JavaScript exception is a value of [Exception]; a method that can
      throw returns [Result A].  A method that mutates [this] is a
      function from the old state to the outcome and the new state, and
      the state reached when an exception is thrown is kept, as in
      JavaScript.
    - Range and Position are value records wherever only their contents
      are observed; object identity is modelled by an explicit store in
      [Module Store], where the constructor's copying is at stake. *)

From Stdlib Require Import ZArith Lia Bool.
From stdpp Require Import base option list strings gmap.

Open Scope string_scope.
Open Scope list_scope.

(** ** Exceptions *)

Inductive Exception : Type :=
| CKEditorError (name : string)
| TypeError.

Definition Result (A : Type) : Type := Exception + A.

Definition Ok {A} (a : A) : Result A := inr a.
Definition Throw {A} (e : Exception) : Result A := inl e.

#[global] Instance Exception_eq_dec : EqDecision Exception.
Proof. solve_decision. Defined.

Definition bindResult {A B} (m : Result A) (k : A → Result B) : Result B :=
  match m with
  | inl e => inl e
  | inr a => k a
  end.

Notation "'try' x <- m ; k" := (bindResult m (λ x, k))
  (at level 10, x name, m at level 100, k at level 200).

(** Left-to-right traversal that stops at the first exception. *)
Fixpoint mapResult {A B} (f : A → Result B) (l : list A) : Result (list B) :=
  match l with
  | [] => Ok []
  | a :: l' => try b <- f a; try bs <- mapResult f l'; Ok (b :: bs)
  end.

(** ** Position *)

Module Position.

(** Modelled from the spec: Position ([model/position.js] is not under
    src/).  Section 3: a position is [{ root, path }] where [path] is
    the sequence of child offsets from the root; roots are known by
    name (section 6). *)
Record t : Type := mk { root : string; path : list nat }.

#[global] Instance t_eq_dec : EqDecision t.
Proof. solve_decision. Defined.

(** Modelled from the spec: the comparison of two paths, on which
    "lexicographic-with-common-prefix" comparison of positions rests
    (section 3).  The paths are equal, the first is a strict prefix of
    the second, the second a strict prefix of the first, or they differ
    first at the segment of index [i]. *)
Inductive ArrayRelation : Type :=
| same | prefix | extension | differAt (i : nat).

Fixpoint compareArraysFrom (i : nat) (a b : list nat) : ArrayRelation :=
  match a, b with
  | [], [] => same
  | [], _ :: _ => prefix
  | _ :: _, [] => extension
  | x :: a', y :: b' =>
      if Nat.eqb x y then compareArraysFrom (S i) a' b' else differAt i
  end.

Definition compareArrays (a b : list nat) : ArrayRelation :=
  compareArraysFrom 0 a b.

Inductive PositionRelation : Type :=
| rel_same | rel_before | rel_after | rel_different.

(** Modelled from the spec: Position.compareWith.  Section 3:
    comparisons are "lexicographic-with-common-prefix" on the paths;
    positions of different roots are not ordered. *)
Definition compareWith (p q : t) : PositionRelation :=
  if negb (String.eqb (root p) (root q)) then rel_different
  else match compareArrays (path p) (path q) with
       | same => rel_same
       | prefix => rel_before
       | extension => rel_after
       | differAt i =>
           if Nat.ltb (default 0 (path p !! i)) (default 0 (path q !! i))
           then rel_before else rel_after
       end.

Definition isBefore (p q : t) : bool :=
  match compareWith p q with rel_before => true | _ => false end.

Definition isAfter (p q : t) : bool :=
  match compareWith p q with rel_after => true | _ => false end.

Definition isEqual (p q : t) : bool :=
  match compareWith p q with rel_same => true | _ => false end.

(** Modelled from the spec: Position.offset and
    Position.getParentPath: the last segment of the path (section 4.1,
    "the last path segment"), and the path without it.  The path of a
    position is not empty (section 3); on the empty path they fall back
    to 0 and to the empty path. *)
Definition offset (p : t) : nat := List.last (path p) 0.

Definition getParentPath (p : t) : list nat := removelast (path p).

(** Modelled from the spec: assignments to [offset] and to one segment
    of the path, on a copy of the position. *)
Definition setOffset (p : t) (o : nat) : t :=
  mk (root p) (getParentPath p ++ [o]).

Definition setPathAt (p : t) (i : nat) (f : nat → nat) : t :=
  mk (root p) (alter f i (path p)).

(** Modelled from the spec: Position.createFromPosition.  Positions
    are value objects; the copy has the same root and an equal path. *)
Definition createFromPosition (p : t) : t := mk (root p) (path p).

(** Modelled from the spec: Position.getShiftedBy, for the
    non-negative shifts that Range passes ("the last path segment
    incremented by n"). *)
Definition getShiftedBy (p : t) (shift : nat) : t :=
  setOffset p (offset p + shift).

(** Modelled from the spec: Position._getTransformedByInsertion
    (section 4.1).  [howMany] nodes are inserted at [insertPosition];
    a position in the same parent moves when the insertion is before
    it, and at the very same offset only if [insertBefore]; a position
    deeper in the tree moves with the ancestor the nodes are inserted
    before. *)
Definition _getTransformedByInsertion
    (p insertPosition : t) (howMany : nat) (insertBefore : bool) : t :=
  if negb (String.eqb (root p) (root insertPosition)) then p
  else match compareArrays (getParentPath insertPosition) (getParentPath p) with
       | same =>
           if Nat.ltb (offset insertPosition) (offset p)
              || (Nat.eqb (offset insertPosition) (offset p) && insertBefore)
           then setOffset p (offset p + howMany)
           else p
       | prefix =>
           let i := length (path insertPosition) - 1 in
           if Nat.leb (offset insertPosition) (default 0 (path p !! i))
           then setPathAt p i (λ x, x + howMany)
           else p
       | _ => p
       end.

(** Modelled from the spec: Position._getTransformedByDeletion
    (section 4.1).  [howMany] nodes are deleted at [deletePosition];
    positions after the deleted span move back, and "a position inside
    a deleted span collapses to the deletion point". *)
Definition _getTransformedByDeletion
    (p deletePosition : t) (howMany : nat) : t :=
  if negb (String.eqb (root p) (root deletePosition)) then p
  else match compareArrays (getParentPath deletePosition) (getParentPath p) with
       | same =>
           if Nat.ltb (offset deletePosition) (offset p) then
             if Nat.ltb (offset p) (offset deletePosition + howMany)
             then deletePosition
             else setOffset p (offset p - howMany)
           else p
       | prefix =>
           let i := length (path deletePosition) - 1 in
           if Nat.leb (offset deletePosition) (default 0 (path p !! i)) then
             if Nat.ltb (default 0 (path p !! i)) (offset deletePosition + howMany)
             then deletePosition
             else setPathAt p i (λ x, x - howMany)
           else p
       | _ => p
       end.

(** Modelled from the spec: Position._getCombined (section 4.2,
    "combined source/target offset math").  The position is inside the
    span that starts at [source] and is moved to [target]: it keeps
    its distance to the start of the span and the rest of its path. *)
Definition _getCombined (p source target : t) : t :=
  let i := length (path source) - 1 in
  mk (root target)
     (getParentPath target
        ++ [offset target + default 0 (path p !! i) - offset source]
        ++ drop (S i) (path p)).

(** Modelled from the spec: Position._getTransformedByMove
    (section 4.1): a deletion at the source followed by an insertion at
    the target as the deletion left it; a position that sticks to the
    moved span follows it. *)
Definition _getTransformedByMove
    (p sourcePosition targetPosition : t) (howMany : nat)
    (insertBefore sticky : bool) : t :=
  let transformed := _getTransformedByDeletion p sourcePosition howMany in
  let target := _getTransformedByDeletion targetPosition sourcePosition howMany in
  if sticky && isEqual transformed sourcePosition
  then _getCombined p sourcePosition target
  else _getTransformedByInsertion transformed target howMany insertBefore.

(** Modelled from the spec: Position.getCommonPath, the "longest shared
    path prefix" (section 4.1); positions of different roots share
    nothing. *)
Fixpoint commonPrefix (a b : list nat) : list nat :=
  match a, b with
  | x :: a', y :: b' => if Nat.eqb x y then x :: commonPrefix a' b' else []
  | _, _ => []
  end.

Definition getCommonPath (p q : t) : list nat :=
  if negb (String.eqb (root p) (root q)) then [] else commonPrefix (path p) (path q).

(** Modelled from the spec: Position.getShiftedBy for a shift of either
    sign: "a new Position with the last path segment incremented by n;
    errors if result would be negative" (section 4.1).  [None] is the
    error. *)
Definition getShiftedByInt (p : t) (shift : Z) : option t :=
  let shifted := (Z.of_nat (offset p) + shift)%Z in
  if (shifted <? 0)%Z then None else Some (setOffset p (Z.to_nat shifted)).

End Position.

(** ** Operations and deltas, as the range transformation reads them *)

Module Operation.

(** Fields of a MoveOperation; Remove and Reinsert inherit them
    (spec, section 3). *)
Record MoveData : Type := mkMove {
  sourcePosition : Position.t;
  howMany : nat;
  targetPosition : Position.t;
  baseVersion : Z
}.

(** The operation family as a tagged union.  Of an InsertOperation the
    transformation only reads [position] and [nodes.maxOffset]; the
    operations that range transformation does not support are kept
    with their type name only. *)
Inductive t : Type :=
| Insert (position : Position.t) (nodesMaxOffset : nat) (version : Z)
| Move (d : MoveData)
| Remove (d : MoveData)
| Reinsert (d : MoveData)
| Other (typeName : string) (version : Z).

Definition type (op : t) : string :=
  match op with
  | Insert _ _ _ => "insert"
  | Move _ => "move"
  | Remove _ => "remove"
  | Reinsert _ => "reinsert"
  | Other typeName _ => typeName
  end.

End Operation.

Module Delta.
Record t : Type := mk { operations : list Operation.t }.
End Delta.

(** ** Range *)

Module Range.

Record t : Type := mk { start : Position.t; end_ : Position.t }.

#[global] Instance t_eq_dec : EqDecision t.
Proof. solve_decision. Defined.

(** [constructor( start, end = null )]: both boundaries are copies
    made by [Position.createFromPosition]; a missing [end] is a copy
    of [start]. *)
Definition new (start : Position.t) (end_ : option Position.t) : t :=
  mk (Position.createFromPosition start)
     (match end_ with
      | Some e => Position.createFromPosition e
      | None => Position.createFromPosition start
      end).

Definition isCollapsed (r : t) : bool :=
  Position.isEqual (start r) (end_ r).

Definition root (r : t) : string := Position.root (start r).

Definition containsPosition (r : t) (position : Position.t) : bool :=
  Position.isAfter position (start r) && Position.isBefore position (end_ r).

Definition containsRange (r otherRange : t) : bool :=
  containsPosition r (start otherRange) && containsPosition r (end_ otherRange).

Definition isEqual (r otherRange : t) : bool :=
  Position.isEqual (start r) (start otherRange)
  && Position.isEqual (end_ r) (end_ otherRange).

Definition isIntersecting (r otherRange : t) : bool :=
  Position.isBefore (start r) (end_ otherRange)
  && Position.isAfter (end_ r) (start otherRange).

Definition createFromRange (r : t) : t :=
  new (start r) (Some (end_ r)).

(** [getDifference]: the array is built by two optional pushes when
    the ranges intersect, and holds a copy of this range otherwise. *)
Definition getDifference (r otherRange : t) : list t :=
  if isIntersecting r otherRange then
    (if containsPosition r (start otherRange)
     then [new (start r) (Some (start otherRange))] else [])
    ++
    (if containsPosition r (end_ otherRange)
     then [new (end_ otherRange) (Some (end_ r))] else [])
  else [createFromRange r].

(** [getIntersection]: [None] is JavaScript's [null]. *)
Definition getIntersection (r otherRange : t) : option t :=
  if isIntersecting r otherRange then
    let commonRangeStart :=
      if containsPosition r (start otherRange) then start otherRange else start r in
    let commonRangeEnd :=
      if containsPosition r (end_ otherRange) then end_ otherRange else end_ r in
    Some (new commonRangeStart (Some commonRangeEnd))
  else None.

(** [_getTransformedByInsertion( insertPosition, howMany, spread =
    false, isSticky = false )].  In the second branch the boundaries of
    the copy are assigned directly. *)
Definition _getTransformedByInsertion
    (r : t) (insertPosition : Position.t) (howMany : nat)
    (spread isSticky : bool) : list t :=
  if spread && containsPosition r insertPosition then
    [ new (start r) (Some insertPosition);
      new (Position._getTransformedByInsertion insertPosition insertPosition howMany true)
          (Some (Position._getTransformedByInsertion
                   (end_ r) insertPosition howMany (isCollapsed r))) ]
  else
    let range := createFromRange r in
    let insertBeforeStart := if isCollapsed range then true else negb isSticky in
    let insertBeforeEnd := if isCollapsed range then true else isSticky in
    [ mk (Position._getTransformedByInsertion
            (start range) insertPosition howMany insertBeforeStart)
         (Position._getTransformedByInsertion
            (end_ range) insertPosition howMany insertBeforeEnd) ].

Definition _getTransformedByMove
    (r : t) (sourcePosition targetPosition : Position.t) (howMany : nat) : list t :=
  if isCollapsed r then
    [ new (Position._getTransformedByMove
             (start r) sourcePosition targetPosition howMany true true) None ]
  else
    let moveRange :=
      new sourcePosition (Some (Position.getShiftedBy sourcePosition howMany)) in
    let differenceSet := getDifference r moveRange in
    let common := getIntersection r moveRange in
    let difference :=
      match differenceSet with
      | [d] =>
          Some (new (Position._getTransformedByDeletion (start d) sourcePosition howMany)
                    (Some (Position._getTransformedByDeletion
                             (end_ d) sourcePosition howMany)))
      | [_; _] =>
          Some (new (start r)
                    (Some (Position._getTransformedByDeletion
                             (end_ r) sourcePosition howMany)))
      | _ => None
      end in
    let insertPosition :=
      Position._getTransformedByDeletion targetPosition sourcePosition howMany in
    let result :=
      match difference with
      | Some d => _getTransformedByInsertion d insertPosition howMany (bool_decide (is_Some common)) false
      | None => []
      end in
    result ++
    match common with
    | Some c =>
        [ new (Position._getCombined (start c) (start moveRange) insertPosition)
              (Some (Position._getCombined (end_ c) (start moveRange) insertPosition)) ]
    | None => []
    end.

(** [_getTransformedByDocumentChange]: [sourcePosition] is [undefined]
    for an insertion; reading it in the other branch would be a
    TypeError. *)
Definition _getTransformedByDocumentChange
    (r : t) (type : string) (targetPosition : Position.t) (howMany : nat)
    (sourcePosition : option Position.t) : Result (list t) :=
  if String.eqb type "insert" then
    Ok (_getTransformedByInsertion r targetPosition howMany false false)
  else
    match sourcePosition with
    | Some source => Ok (_getTransformedByMove r source targetPosition howMany)
    | None => Throw TypeError
    end.

Definition supportedTypes : list string := ["insert"; "move"; "remove"; "reinsert"].

(** [operation.targetPosition || operation.position] *)
Definition targetOrPosition (op : Operation.t) : option Position.t :=
  match op with
  | Operation.Insert position _ _ => Some position
  | Operation.Move d | Operation.Remove d | Operation.Reinsert d =>
      Some (Operation.targetPosition d)
  | Operation.Other _ _ => None
  end.

(** [operation.howMany || operation.nodes.maxOffset]: an insertion has
    no [howMany]; a move has no [nodes], so that a move of zero nodes
    reads a property of [undefined]. *)
Definition howManyOrMaxOffset (op : Operation.t) : Result nat :=
  match op with
  | Operation.Insert _ nodesMaxOffset _ => Ok nodesMaxOffset
  | Operation.Move d | Operation.Remove d | Operation.Reinsert d =>
      if Nat.eqb (Operation.howMany d) 0 then Throw TypeError
      else Ok (Operation.howMany d)
  | Operation.Other _ _ => Throw TypeError
  end.

Definition sourceOf (op : Operation.t) : option Position.t :=
  match op with
  | Operation.Move d | Operation.Remove d | Operation.Reinsert d =>
      Some (Operation.sourcePosition d)
  | _ => None
  end.

(** One operation applied to the whole array: the loop replaces
    [ranges[ i ]] by its transformation with [splice] and steps over
    what it has put in, so every range of the array is replaced once,
    from left to right. *)
Definition transformByOperation (op : Operation.t) (ranges : list t) : Result (list t) :=
  if bool_decide (Operation.type op ∈ supportedTypes) then
    try results <-
      mapResult
        (λ range,
           match targetOrPosition op with
           | None => Throw TypeError
           | Some target =>
               try howMany <- howManyOrMaxOffset op;
               _getTransformedByDocumentChange
                 range (Operation.type op) target howMany (sourceOf op)
           end)
        ranges;
    Ok (concat results)
  else Ok ranges.

Fixpoint transformByOperations (ops : list Operation.t) (ranges : list t)
  : Result (list t) :=
  match ops with
  | [] => Ok ranges
  | op :: ops' =>
      try ranges' <- transformByOperation op ranges;
      transformByOperations ops' ranges'
  end.

Definition getTransformedByDelta (r : t) (delta : Delta.t) : Result (list t) :=
  transformByOperations (Delta.operations delta) [createFromRange r].

(** The inner loop of the clean-up in [getTransformedByDeltas]:
    [for ( j = ...; j < ranges.length; j++ )], with [ranges.splice( j,
    1 )] in its body.  [fuel] bounds the number of iterations. *)
Fixpoint removeRelated (fuel : nat) (range : t) (j : nat) (ranges : list t) : list t :=
  match fuel with
  | 0 => ranges
  | S fuel' =>
      match ranges !! j with
      | None => ranges
      | Some next =>
          if containsRange range next || containsRange next range || isEqual range next
          then removeRelated fuel' range (S j) (delete j ranges)
          else removeRelated fuel' range (S j) ranges
      end
  end.

(** The outer loop: [for ( i = 0; i < ranges.length; i++ )]. *)
Fixpoint removeContained (fuel : nat) (i : nat) (ranges : list t) : list t :=
  match fuel with
  | 0 => ranges
  | S fuel' =>
      match ranges !! i with
      | None => ranges
      | Some range =>
          removeContained fuel' (S i) (removeRelated (length ranges) range (S i) ranges)
      end
  end.

Fixpoint transformByDeltas (deltas : list Delta.t) (ranges : list t)
  : Result (list t) :=
  match deltas with
  | [] => Ok ranges
  | delta :: deltas' =>
      try results <- mapResult (λ range, getTransformedByDelta range delta) ranges;
      transformByDeltas deltas' (concat results)
  end.

Definition getTransformedByDeltas (r : t) (deltas : list Delta.t) : Result (list t) :=
  try ranges <- transformByDeltas deltas [createFromRange r];
  Ok (removeContained (length ranges) 0 ranges).

(** *** Flat ranges *)

(** [isFlat]: [this.start.parent === this.end.parent].  Modelled from
    the spec: Position.parent, the element that the path without its
    last segment leads to, so that two positions have the same parent
    when they have the same root and the same parent path ("start and
    end share the same parent", section 3). *)
Definition isFlat (r : t) : bool :=
  String.eqb (Position.root (start r)) (Position.root (end_ r))
  && bool_decide (Position.getParentPath (start r) = Position.getParentPath (end_ r)).

(** [createFromPositionAndShift( position, shift )]; [None] when
    [getShiftedBy] fails. *)
Definition createFromPositionAndShift (position : Position.t) (shift : Z) : option t :=
  match Position.getShiftedByInt position shift with
  | None => None
  | Some shifted =>
      Some (if (0 <? shift)%Z then new position (Some shifted)
            else new shifted (Some position))
  end.

Section MinimalFlatRanges.

(** [posParent.maxOffset]: the [maxOffset] of the element at a path of
    the root of the range; the document tree is not modelled.
    [posParent] is always the parent of [pos], the element at the
    parent path of [pos]. *)
Variable maxOffset : list nat → nat.

(** [if ( howMany !== 0 ) ranges.push( new Range( pos,
    pos.getShiftedBy( howMany ) ) )] *)
Definition pushShifted (ranges : list t) (pos : Position.t) (howMany : Z)
  : option (list t) :=
  if (howMany =? 0)%Z then Some ranges
  else match Position.getShiftedByInt pos howMany with
       | None => None
       | Some shifted => Some (ranges ++ [new pos (Some shifted)])
       end.

(** "Go up": [while ( pos.path.length > diffAt + 1 )].  [fuel] bounds
    the number of iterations. *)
Fixpoint goUp (fuel : nat) (diffAt : nat) (ranges : list t) (pos : Position.t)
  : option (list t * Position.t) :=
  match fuel with
  | 0 => Some (ranges, pos)
  | S fuel' =>
      if Nat.ltb (diffAt + 1) (length (Position.path pos)) then
        let howMany :=
          (Z.of_nat (maxOffset (Position.getParentPath pos))
           - Z.of_nat (Position.offset pos))%Z in
        match pushShifted ranges pos howMany with
        | None => None
        | Some ranges' =>
            let sliced := Position.mk (Position.root pos) (Position.getParentPath pos) in
            goUp fuel' diffAt ranges'
              (Position.setOffset sliced (Position.offset sliced + 1))
        end
      else Some (ranges, pos)
  end.

(** "Go down": [while ( pos.path.length <= this.end.path.length )].
    The path of [pos] is never empty here when the path of the start is
    not, so that [pos.path.length - 1] is an index of the path of the
    end. *)
Fixpoint goDown (fuel : nat) (endPath : list nat) (ranges : list t) (pos : Position.t)
  : option (list t) :=
  match fuel with
  | 0 => Some ranges
  | S fuel' =>
      if Nat.leb (length (Position.path pos)) (length endPath) then
        let offset := default 0 (endPath !! (length (Position.path pos) - 1)) in
        let howMany := (Z.of_nat offset - Z.of_nat (Position.offset pos))%Z in
        match pushShifted ranges pos howMany with
        | None => None
        | Some ranges' =>
            goDown fuel' endPath ranges'
              (Position.mk (Position.root pos)
                 (Position.path (Position.setOffset pos offset) ++ [0]))
        end
      else Some ranges
  end.

Definition getMinimalFlatRanges (r : t) : option (list t) :=
  let diffAt := length (Position.getCommonPath (start r) (end_ r)) in
  match goUp (length (Position.path (start r))) diffAt []
          (Position.createFromPosition (start r)) with
  | None => None
  | Some (ranges, pos) =>
      goDown (S (length (Position.path (end_ r)))) (Position.path (end_ r)) ranges pos
  end.

End MinimalFlatRanges.

(** *** createFromRanges *)

(** [Array.prototype.sort] belongs to the host, and so does the order
    it leaves here: the comparator of [createFromRanges] answers with a
    boolean, which [sort] reads as the number 1 or 0 and never as a
    negative number, so that it is not a consistent comparator and the
    language leaves the order of the sorted array to the host.  The
    host's [sort] is a parameter of [createFromRanges] below; a host
    moves the elements of the array and keeps them all.

    One host: straight insertion, each element moving left past the
    elements for which the comparator is positive.  [revSorted] is the
    part already sorted, last element first.  Another host inserts each
    element after the elements that it is not below; no element is
    below another for this comparator, and that host leaves the array
    as it was passed. *)
Fixpoint sortInsert {A} (positive : A → A → bool) (element : A) (revSorted : list A)
  : list A :=
  match revSorted with
  | [] => [element]
  | tmp :: rest =>
      if positive tmp element then tmp :: sortInsert positive element rest
      else element :: tmp :: rest
  end.

Definition insertionSort {A} (positive : A → A → bool) (a : list A) : list A :=
  rev (foldl (λ revSorted element, sortInsert positive element revSorted) [] a).

(** [ranges.indexOf( ref )] compares object identities.  The ranges of
    the array are distinct objects, told apart by the index they had
    when the array was passed in; [-1] when not found. *)
Fixpoint indexOfFrom (i : Z) (identity : nat) (a : list (nat * t)) : Z :=
  match a with
  | [] => (-1)%Z
  | (id, _) :: a' =>
      if Nat.eqb id identity then i else indexOfFrom (i + 1)%Z identity a'
  end.

Definition indexOf (identity : nat) (a : list (nat * t)) : Z :=
  indexOfFrom 0%Z identity a.

(** The array that is passed in, each range with its identity. *)
Definition tagged (ranges : list t) : list (nat * t) :=
  imap (λ i range, (i, range)) ranges.

(** The comparator [( a, b ) => a.start.isAfter( b.start )]. *)
Definition startsAfter (a b : nat * t) : bool :=
  Position.isAfter (start a.2) (start b.2).

Section CreateFromRanges.

(** [Array.prototype.sort] of the host, given the comparator and the
    array. *)
Variable sort : (nat * t → nat * t → bool) → list (nat * t) → list (nat * t).

(** [Position.isTouching] walks the document tree, which is not
    modelled: "true iff no node lies strictly between two
    positions" (spec, section 4.1). *)
Variable isTouching : Position.t → Position.t → bool.

(** Step 5, first loop: [for ( let i = refIndex - 1; i >= 0; i++ )].
    [rest] is the array from index [i] on; the index only grows, so
    when no range stops the loop it runs off the array and
    [ranges[ i ].end] is a property of [undefined]. *)
Fixpoint glueBefore (rest : list t) (result : t) : Result t :=
  match rest with
  | [] => Throw TypeError
  | range :: rest' =>
      if isTouching (end_ range) (start result)
      then glueBefore rest' (mk (Position.createFromPosition (start range)) (end_ result))
      else Ok result
  end.

(** Step 5, second loop: [for ( let i = refIndex + 1; i <
    ranges.length; i++ )]. *)
Fixpoint glueAfter (rest : list t) (result : t) : t :=
  match rest with
  | [] => result
  | range :: rest' =>
      if isTouching (start range) (end_ result)
      then glueAfter rest' (mk (start result) (Position.createFromPosition (end_ range)))
      else result
  end.

Definition emptyArrayError : Exception :=
  CKEditorError "range-create-from-ranges-empty-array: At least one range has to be passed.".

Definition createFromRanges (ranges : list t) : Result t :=
  match ranges with
  | [] => Throw emptyArrayError
  | [range] => Ok (createFromRange range)
  | ref :: _ =>
      let sorted := sort startsAfter (tagged ranges) in
      let refIndex := indexOf 0 sorted in
      let result := new (start ref) (Some (end_ ref)) in
      try result <-
        (if (0 <=? refIndex - 1)%Z
         then glueBefore (drop (Z.to_nat (refIndex - 1)) sorted.*2) result
         else Ok result);
      Ok (glueAfter (drop (Z.to_nat (refIndex + 1)) sorted.*2) result)
  end.

End CreateFromRanges.

End Range.

(** ** ReinsertOperation and RemoveOperation *)

Module RemoveOperation.

(** Modelled from the spec: the constructor [RemoveOperation(
    position, howMany, baseVersion )] ([removeoperation.js] is not
    under src/).  Section 3: a RemoveOperation is a "MoveOperation
    targeting a graveyard root"; the nodes are taken from [position].
    [graveyardPosition] is where the document puts removed nodes. *)
Definition new (graveyardPosition : Position.t)
    (position : Position.t) (howMany : nat) (baseVersion : Z) : Operation.t :=
  Operation.Remove (Operation.mkMove position howMany graveyardPosition baseVersion).

End RemoveOperation.

Module ReinsertOperation.

(** A ReinsertOperation is the tagged [Operation.Reinsert d]; these
    are its members, as functions of the fields [d]. *)
Definition position (d : Operation.MoveData) : Position.t :=
  Operation.targetPosition d.

Definition type (d : Operation.MoveData) : string := "reinsert".

Definition getReversed (graveyardPosition : Position.t) (d : Operation.MoveData)
  : Operation.t :=
  RemoveOperation.new graveyardPosition
    (Operation.targetPosition d) (Operation.howMany d) (Operation.baseVersion d + 1)%Z.

Definition className : string := "engine.model.operation.ReinsertOperation".

End ReinsertOperation.

(** ** Attribute values *)

(** Attribute values are JavaScript primitives; [===] on them is
    equality of the values. *)
Inductive Value : Type :=
| VBool (b : bool)
| VString (s : string)
| VNumber (z : Z).

#[global] Instance Value_eq_dec : EqDecision Value.
Proof. solve_decision. Defined.

(** ** ChangeOperation (attribute operation) *)

Module Attribute.
Record t : Type := mk { key : string; value : Value }.

#[global] Instance t_eq_dec : EqDecision t.
Proof. solve_decision. Defined.
End Attribute.

Module Node.

(** Modelled from the spec: the attributes of a document node
    ([node.js] is not under src/).  Section 4.3 speaks of a node that
    "currently has oldValue (or none, if inserting)" for a key: a node
    holds at most one value per key. *)
Record t : Type := mk { attrs : gmap string Value }.

(** [hasAttr( attr )] with an attribute: the node has this key with
    this value. *)
Definition hasAttr (node : t) (attr : Attribute.t) : bool :=
  bool_decide (attrs node !! Attribute.key attr = Some (Attribute.value attr)).

(** [hasAttr( key )] with a key. *)
Definition hasAttrKey (node : t) (key : string) : bool :=
  bool_decide (is_Some (attrs node !! key)).

Definition removeAttr (node : t) (key : string) : t :=
  mk (delete key (attrs node)).

Definition setAttr (node : t) (attr : Attribute.t) : t :=
  mk (<[Attribute.key attr := Attribute.value attr]> (attrs node)).

End Node.

Module ChangeOperation.

Record t : Type := mk {
  range : Range.t;
  oldAttr : option Attribute.t;
  newAttr : option Attribute.t;
  baseVersion : Z
}.

Definition differentKeys : Exception :=
  CKEditorError "operation-change-different-keys: Old and new attributes should have the same keys.".
Definition noAttrToRemove : Exception :=
  CKEditorError "operation-change-no-attr-to-remove: The attribute which should be removed does not exists for given node.".
Definition attrExists : Exception :=
  CKEditorError "operation-change-attr-exists: The attribute with given key already exists.".

(** The document nodes are objects that the operation mutates in
    place: [store] holds them by identity (an index), and [visits] is
    the sequence of nodes, by identity, that [for ( value of
    this.range )] yields as [value.node]; the iterator and the tree it
    walks are not modelled.  The store comes back as the loop left it,
    also when the loop throws. *)

(** "Remove or change": the first loop of [_execute]. *)
Fixpoint removeOrChange (oldAttr : Attribute.t) (newAttr : option Attribute.t)
    (visits : list nat) (store : list Node.t) : Result unit * list Node.t :=
  match visits with
  | [] => (Ok (), store)
  | id :: visits' =>
      match store !! id with
      | None => (Throw TypeError, store)
      | Some node =>
          if negb (Node.hasAttr node oldAttr) then (Throw noAttrToRemove, store)
          else
            removeOrChange oldAttr newAttr visits'
              (match newAttr with
               | None => <[id := Node.removeAttr node (Attribute.key oldAttr)]> store
               | Some _ => store
               end)
      end
  end.

(** "Insert or change": the second loop of [_execute]. *)
Fixpoint insertOrChange (oldAttr : option Attribute.t) (newAttr : Attribute.t)
    (visits : list nat) (store : list Node.t) : Result unit * list Node.t :=
  match visits with
  | [] => (Ok (), store)
  | id :: visits' =>
      match store !! id with
      | None => (Throw TypeError, store)
      | Some node =>
          if bool_decide (oldAttr = None) && Node.hasAttrKey node (Attribute.key newAttr)
          then (Throw attrExists, store)
          else insertOrChange oldAttr newAttr visits' (<[id := Node.setAttr node newAttr]> store)
      end
  end.

Definition keysDiffer (oldAttr newAttr : option Attribute.t) : bool :=
  match oldAttr, newAttr with
  | Some o, Some n => negb (String.eqb (Attribute.key o) (Attribute.key n))
  | _, _ => false
  end.

Definition _execute (op : t) (visits : list nat) (store : list Node.t)
  : Result unit * list Node.t :=
  if keysDiffer (oldAttr op) (newAttr op) then (Throw differentKeys, store)
  else
    let '(removed, store1) :=
      match oldAttr op with
      | Some o => removeOrChange o (newAttr op) visits store
      | None => (Ok (), store)
      end in
    match removed with
    | inl e => (inl e, store1)
    | inr _ =>
        match newAttr op with
        | Some n => insertOrChange (oldAttr op) n visits store1
        | None => (Ok (), store1)
        end
    end.

Definition getReversed (op : t) : t :=
  mk (range op) (newAttr op) (oldAttr op) (baseVersion op + 1)%Z.

End ChangeOperation.

(** ** JavaScript [Map] with string keys *)

Module JSMap.

(** A [Map] iterates in the order in which the keys were first set,
    and the order reaches the listeners of the selection through the
    [attributeKeys] of its events: the entries are kept as a list in
    that order. *)
Section Operations.
Context {V : Type}.

Fixpoint get (key : string) (m : list (string * V)) : option V :=
  match m with
  | [] => None
  | (k, v) :: m' => if String.eqb k key then Some v else get key m'
  end.

Definition has (key : string) (m : list (string * V)) : bool :=
  match get key m with Some _ => true | None => false end.

Fixpoint set (key : string) (value : V) (m : list (string * V))
  : list (string * V) :=
  match m with
  | [] => [(key, value)]
  | (k, v) :: m' =>
      if String.eqb k key then (k, value) :: m' else (k, v) :: set key value m'
  end.

Fixpoint delete (key : string) (m : list (string * V)) : list (string * V) :=
  match m with
  | [] => []
  | (k, v) :: m' =>
      if String.eqb k key then delete key m' else (k, v) :: delete key m'
  end.

(** [toMap( iterable )]: [new Map( iterable )]. *)
Definition toMap (entries : list (string * V)) : list (string * V) :=
  foldl (λ m kv, set kv.1 kv.2 m) [] entries.

End Operations.

(** [Set.prototype.add] on a set of strings kept in insertion order. *)
Definition setAdd (key : string) (s : list string) : list string :=
  if bool_decide (key ∈ s) then s else s ++ [key].

End JSMap.

(** ** LiveSelection *)

Module LiveSelection.

Inductive Priority : Type := low | normal.

#[global] Instance Priority_eq_dec : EqDecision Priority.
Proof. solve_decision. Defined.

(** What a method does to the world outside the selection object, in
    the order in which it happens. *)
Inductive Effect : Type :=
| Warn (message : string)
| Fire (event : string) (directChange : bool) (attributeKeys : list string)
| Detach (range : Range.t).

(** What the selection reads from its document: the graveyard root
    and the default range ([document.js] is not under src/). *)
Record Document : Type := mkDocument {
  graveyard : string;
  _getDefaultRange : Range.t
}.

(** The selection object.  [_ranges], [_lastRangeBackward] and
    [_attrs] are the fields of the base class Selection; a LiveRange
    is kept as the range it currently spans.  [effects] is the trace
    of effects so far, latest last. *)
Record t : Type := mk {
  _document : Document;
  _ranges : list Range.t;
  _lastRangeBackward : bool;
  _attrs : list (string * Value);
  _attributePriority : list (string * Priority);
  effects : list Effect
}.

Definition setRangesField (ranges : list Range.t) (s : t) : t :=
  mk (_document s) ranges (_lastRangeBackward s) (_attrs s) (_attributePriority s) (effects s).

Definition setLastRangeBackward (b : bool) (s : t) : t :=
  mk (_document s) (_ranges s) b (_attrs s) (_attributePriority s) (effects s).

Definition setAttrs (attrs : list (string * Value)) (s : t) : t :=
  mk (_document s) (_ranges s) (_lastRangeBackward s) attrs (_attributePriority s) (effects s).

Definition setAttributePriority (priorities : list (string * Priority)) (s : t) : t :=
  mk (_document s) (_ranges s) (_lastRangeBackward s) (_attrs s) priorities (effects s).

Definition emit (e : Effect) (s : t) : t :=
  mk (_document s) (_ranges s) (_lastRangeBackward s) (_attrs s) (_attributePriority s)
     (effects s ++ [e]).

(** A method that may throw: outcome and selection afterwards. *)
Definition M (A : Type) : Type := t → Result A * t.

Definition ret {A} (a : A) : M A := λ s, (Ok a, s).
Definition throw {A} (e : Exception) : M A := λ s, (Throw e, s).
Definition bind {A B} (m : M A) (k : A → M B) : M B :=
  λ s, match m s with
       | (inl e, s') => (inl e, s')
       | (inr a, s') => k a s'
       end.
Definition modify (f : t → t) : M () := λ s, (Ok (), f s).

Notation "'run' x <- m ; k" := (bind m (λ x, k))
  (at level 10, x name, m at level 100, k at level 200).

(** The argument of [addRange] is any JavaScript value; the code only
    asks whether it is an instance of Range. *)
Inductive Argument : Type :=
| IsRange (range : Range.t)
| NotRange.

Definition addedNotRange : Exception :=
  CKEditorError "model-selection-added-not-range: Trying to add an object that is not an instance of Range.".
Definition rangeInGraveyard : string :=
  "model-selection-range-in-graveyard: Trying to add a Range that is in the graveyard root. Range rejected.".

(** [constructor( document )]: the base class starts without ranges and
    without attributes.  The listener on the document's [change] event
    calls [_updateAttributes( false )] after an attribute operation; the
    event stream of the document is not modelled. *)
Definition constructor (document : Document) : t :=
  mk document [] false [] [] [].

Definition rangeCount (s : t) : nat :=
  if Nat.eqb (length (_ranges s)) 0 then 1 else length (_ranges s).

(** Modelled from the spec: Selection.getRanges of the base class
    ([selection.js] is not under src/): the ranges of the selection,
    each as a copy (ranges are value objects, section 3).  A generator
    is given as the list of what it yields. *)
Definition Selection_getRanges (s : t) : list Range.t :=
  map Range.createFromRange (_ranges s).

Definition getRanges (s : t) : list Range.t :=
  if negb (Nat.eqb (length (_ranges s)) 0) then Selection_getRanges s
  else [_getDefaultRange (_document s)].

(** Modelled from the spec: the attribute getters of the base class
    Selection, which read the map [_attrs]; [None] is [undefined]. *)
Definition getAttribute (key : string) (s : t) : option Value := JSMap.get key (_attrs s).
Definition hasAttribute (key : string) (s : t) : bool := JSMap.has key (_attrs s).
Definition getAttributes (s : t) : list (string * Value) := _attrs s.

Definition priorityOf (directChange : bool) : Priority :=
  if directChange then normal else low.

(** [_setAttribute( key, value, directChange = true )] *)
Definition _setAttribute (key : string) (value : Value) (directChange : bool) (s : t)
  : bool * t :=
  let priority := priorityOf directChange in
  if bool_decide (priority = low)
     && bool_decide (JSMap.get key (_attributePriority s) = Some normal)
  then (false, s)
  else if bool_decide (getAttribute key s = Some value) then (false, s)
  else (true,
        setAttributePriority (JSMap.set key priority (_attributePriority s))
          (setAttrs (JSMap.set key value (_attrs s)) s)).

(** [_removeAttribute( key, directChange = true )] *)
Definition _removeAttribute (key : string) (directChange : bool) (s : t) : bool * t :=
  let priority := priorityOf directChange in
  if bool_decide (priority = low)
     && bool_decide (JSMap.get key (_attributePriority s) = Some normal)
  then (false, s)
  else if negb (hasAttribute key s) then (false, s)
  else (true,
        setAttributePriority (JSMap.set key priority (_attributePriority s))
          (setAttrs (JSMap.delete key (_attrs s)) s)).

(** [_setAttributesTo( attrs, directChange = true )].  The first loop
    iterates over the live [_attrs]; its body deletes at most the
    entry it is visiting, so the entries it visits are those present
    when it starts. *)
Definition _setAttributesTo (attrs : list (string * Value)) (directChange : bool) (s : t)
  : list string * t :=
  let removeStep (acc : list string * t) (entry : string * Value) :=
    let '(oldKey, oldValue) := entry in
    if bool_decide (JSMap.get oldKey attrs = Some oldValue) then acc
    else
      let '(removed, s') := _removeAttribute oldKey directChange acc.2 in
      (if removed then JSMap.setAdd oldKey acc.1 else acc.1, s') in
  let setStep (acc : list string * t) (entry : string * Value) :=
    let '(key, value) := entry in
    let '(gotAdded, s') := _setAttribute key value directChange acc.2 in
    (if gotAdded then JSMap.setAdd key acc.1 else acc.1, s') in
  foldl setStep (foldl removeStep ([], s) (getAttributes s)) attrs.

(** [storePrefix] and [_getStoreAttributeKey( key )] *)
Definition storePrefix : string := "selection:".

Definition _getStoreAttributeKey (key : string) : string := storePrefix ++ key.

(** [key.substr( start )]: the string from index [start] on. *)
Fixpoint substr (start : nat) (key : string) : string :=
  match start, key with
  | 0, _ => key
  | S start', String _ key' => substr start' key'
  | S _, EmptyString => EmptyString
  end.

(** [_getStoredAttributes]: the generator, as the list of what it
    yields.  [inEmptyNode] is [this.isCollapsed &&
    selectionParent.childCount === 0] and [parentAttributes] holds the
    attributes of the parent of the first position, in the order of
    [getAttributeKeys()]; the tree that they are read from is not
    modelled.  [key.indexOf( storePrefix ) === 0] holds when the key
    starts with the prefix. *)
Definition _getStoredAttributes (inEmptyNode : bool)
    (parentAttributes : list (string * Value)) : list (string * Value) :=
  if inEmptyNode then
    omap (λ entry : string * Value,
            if String.prefix storePrefix entry.1
            then Some (substr (String.length storePrefix) entry.1, entry.2)
            else None)
         parentAttributes
  else [].

Section WithDocumentTree.

(** [_getSurroundingAttributes] reads the attributes of the text
    nodes around the first position of the selection; the document
    tree is not modelled, and what the method returns for a
    selection is taken as given. *)
Variable _getSurroundingAttributes : t → list (string * Value).

(** [Selection._checkRange] of the base class ([selection.js] is not
    under src/): the exception, if any, that it throws for a new
    range given the ranges already in the selection. *)
Variable _checkRange : list Range.t → Range.t → option Exception.

(** The first branch of [_updateAttributes] that is not [clearAll]:
    the loop over the live [_attributePriority] deletes at most the
    entry it is visiting. *)
Definition dropLowPriority (s : t) : t :=
  foldl
    (λ s' (entry : string * Priority),
       if bool_decide (entry.2 = low)
       then setAttributePriority (JSMap.delete entry.1 (_attributePriority s'))
              (setAttrs (JSMap.delete entry.1 (_attrs s')) s')
       else s')
    s (_attributePriority s).

Definition _updateAttributes (clearAll : bool) (s : t) : t :=
  let newAttributes := JSMap.toMap (_getSurroundingAttributes s) in
  let oldAttributes := JSMap.toMap (getAttributes s) in
  let s1 :=
    if clearAll then setAttrs [] (setAttributePriority [] s)
    else dropLowPriority s in
  let s2 := (_setAttributesTo newAttributes false s1).2 in
  let changed :=
    (filter (λ entry : string * Value,
               negb (JSMap.has entry.1 oldAttributes)
               || negb (bool_decide (JSMap.get entry.1 oldAttributes = Some entry.2)))
            (getAttributes s2)).*1
    ++ filter (λ oldKey, negb (hasAttribute oldKey s2)) oldAttributes.*1 in
  if Nat.ltb 0 (length changed)
  then emit (Fire "change:attribute" false changed) s2
  else s2.

Definition refreshAttributes (s : t) : t := _updateAttributes true s.

(** [_prepareRange]: [None] is the [undefined] returned for a range
    in the graveyard.  The listener that the method puts on the new
    live range reacts to later changes of the document and is not
    part of the state. *)
Definition _prepareRange (range : Argument) : M (option Range.t) :=
  match range with
  | NotRange => throw addedNotRange
  | IsRange range =>
      λ s,
        if String.eqb (Range.root range) (graveyard (_document s))
        then (Ok None, emit (Warn rangeInGraveyard) s)
        else match _checkRange (_ranges s) range with
             | Some e => (Throw e, s)
             | None => (Ok (Some (Range.createFromRange range)), s)
             end
  end.

Definition _pushRange (range : Argument) : M () :=
  run liveRange <- _prepareRange range;
  match liveRange with
  | Some liveRange => modify (λ s, setRangesField (_ranges s ++ [liveRange]) s)
  | None => ret ()
  end.

(** [_removeRangeAtIndex( index )]: [splice( index, 1 )] counts a
    negative index from the end of the array; when it removes
    nothing, [range] is [undefined] and [range.detach()] throws. *)
Definition _removeRangeAtIndex (index : Z) : M () :=
  λ s,
    let len := Z.of_nat (length (_ranges s)) in
    let from := Z.to_nat (if (index <? 0)%Z then Z.max (len + index) 0 else Z.min index len) in
    match _ranges s !! from with
    | None => (Throw TypeError, s)
    | Some range => (Ok (), emit (Detach range) (setRangesField (delete from (_ranges s)) s))
    end.

Definition _popRange : M () :=
  λ s, _removeRangeAtIndex (Z.of_nat (length (_ranges s)) - 1) s.

(** Modelled from the spec: Selection.addRange of the base class
    ([selection.js] is not under src/): the range is pushed, the
    direction of the last range recorded and a [change:range] event
    fired. *)
Definition Selection_addRange (range : Argument) (isBackward : bool) : M () :=
  run _ <- _pushRange range;
  modify (λ s, emit (Fire "change:range" true []) (setLastRangeBackward isBackward s)).

(** Modelled from the spec: Selection.removeAllRanges of the base
    class: [while ( this._ranges.length > 0 ) this._popRange()],
    then a [change:range] event if there was a range to remove.
    [fuel] bounds the number of iterations. *)
Fixpoint _removeAllRanges (fuel : nat) : M () :=
  match fuel with
  | 0 => ret ()
  | S fuel' =>
      λ s, if Nat.ltb 0 (length (_ranges s))
           then (run _ <- _popRange; _removeAllRanges fuel') s
           else (Ok (), s)
  end.

(** [destroy()]: [while ( this._ranges.length ) this._popRange()], the
    loop above with fuel for every range.  [stopListening()] takes away
    the listeners of the selection, which are not part of the state. *)
Definition destroy : M () :=
  λ s, _removeAllRanges (length (_ranges s)) s.

Definition Selection_removeAllRanges : M () :=
  λ s, if Nat.ltb 0 (length (_ranges s))
       then (run _ <- _removeAllRanges (length (_ranges s));
             modify (emit (Fire "change:range" true []))) s
       else (Ok (), s).

(** [addRange( range, isBackward = false )] *)
Definition addRange (range : Argument) (isBackward : bool) : M () :=
  run _ <- Selection_addRange range isBackward;
  modify refreshAttributes.

Definition removeAllRanges : M () :=
  run _ <- Selection_removeAllRanges;
  modify refreshAttributes.

End WithDocumentTree.

End LiveSelection.

(** ** Positions and ranges as objects *)

Module Store.

(** A Position object holds its root and a reference to its path,
    which is an array object of its own; a caller that keeps a
    position can assign to its fields or change its path array in
    place.  Objects are known by their address, the index at which
    they were allocated. *)
Record PositionObject : Type := mkPosition { root : string; path : nat }.

Record t : Type := mk {
  positions : list PositionObject;
  arrays : list (list nat)
}.

(** The value that a position object stands for. *)
Definition readPosition (h : t) (p : nat) : option Position.t :=
  match positions h !! p with
  | None => None
  | Some object =>
      match arrays h !! path object with
      | None => None
      | Some segments => Some (Position.mk (root object) segments)
      end
  end.

(** Modelled from the spec: Position.createFromPosition
    ([position.js] is not under src/), [new this( position.root,
    position.path.slice() )]: a new object with a new path array
    ("ownership is always a fresh value, never a shared mutable
    array", section 9). *)
Definition createFromPosition (position : nat) (h : t) : Result nat * t :=
  match positions h !! position with
  | None => (Throw TypeError, h)
  | Some object =>
      match arrays h !! path object with
      | None => (Throw TypeError, h)
      | Some segments =>
          (Ok (length (positions h)),
           mk (positions h ++ [mkPosition (root object) (length (arrays h))])
              (arrays h ++ [segments]))
      end
  end.

Record RangeObject : Type := mkRange { start : nat; end_ : nat }.

(** The Range constructor on objects: [end] is [None] when the
    argument is omitted (or [null]). *)
Definition newRange (start : nat) (end_ : option nat) (h : t) : Result RangeObject * t :=
  match createFromPosition start h with
  | (inl e, h1) => (inl e, h1)
  | (inr thisStart, h1) =>
      match createFromPosition (match end_ with Some e => e | None => start end) h1 with
      | (inl e, h2) => (inl e, h2)
      | (inr thisEnd, h2) => (Ok (mkRange thisStart thisEnd), h2)
      end
  end.

Definition readRange (h : t) (r : RangeObject) : option Range.t :=
  match readPosition h (start r), readPosition h (end_ r) with
  | Some s, Some e => Some (Range.mk s e)
  | _, _ => None
  end.

(** What a caller can do to a position it holds: assign to the fields
    of the object, or change an array in place ([path.push],
    [path[ i ] = x], the [offset] setter). *)
Definition assignPosition (p : nat) (object : PositionObject) (h : t) : t :=
  mk (<[p := object]> (positions h)) (arrays h).

Definition assignArray (a : nat) (segments : list nat) (h : t) : t :=
  mk (positions h) (<[a := segments]> (arrays h)).

End Store.

(** * Notions used in the statements *)

(** ** Outcome of the loops of ChangeOperation *)

(** [store'] differs from [store] at most at the nodes of [visited]. *)
Definition touchedOnly (visited : list nat) (store store' : list Node.t) : Prop :=
  length store' = length store
  ∧ ∀ id, id ∉ visited → store' !! id = store !! id.

(** The store that a loop over the nodes leaves when it does not throw:
    every visited node passes [check] and is replaced by its [update]. *)
Fixpoint visitAll (check : Node.t → bool) (update : Node.t → Node.t)
    (visits : list nat) (store : list Node.t) : option (list Node.t) :=
  match visits with
  | [] => Some store
  | id :: visits' =>
      match store !! id with
      | Some node =>
          if check node
          then visitAll check update visits' (<[id := update node]> store)
          else None
      | None => None
      end
  end.

(** The update of the first loop of [_execute] and the check of the
    second. *)
Definition removeUpdate (oldAttr : Attribute.t) (newAttr : option Attribute.t)
    (node : Node.t) : Node.t :=
  match newAttr with
  | None => Node.removeAttr node (Attribute.key oldAttr)
  | Some _ => node
  end.

Definition insertCheck (oldAttr : option Attribute.t) (newAttr : Attribute.t)
    (node : Node.t) : bool :=
  negb (bool_decide (oldAttr = None) && Node.hasAttrKey node (Attribute.key newAttr)).

(** What the operation asks of a node of its range: the old attribute,
    when one is given, and otherwise no attribute with the key of the new
    one. *)
Definition ready (op : ChangeOperation.t) (node : Node.t) : Prop :=
  match ChangeOperation.oldAttr op, ChangeOperation.newAttr op with
  | Some oldAttr, _ => Node.hasAttr node oldAttr = true
  | None, Some newAttr => Node.hasAttrKey node (Attribute.key newAttr) = false
  | None, None => True
  end.

(** What the operation makes of a node of its range: the node with the
    new attribute, or without the key of the old one when there is no
    new attribute. *)
Definition applyChange (op : ChangeOperation.t) (node : Node.t) : Node.t :=
  match ChangeOperation.newAttr op, ChangeOperation.oldAttr op with
  | Some newAttr, _ => Node.setAttr node newAttr
  | None, Some oldAttr => Node.removeAttr node (Attribute.key oldAttr)
  | None, None => node
  end.

(** ** Operations on ranges *)

(** An operation that is not a move of any kind: an insertion, or an
    operation of a type that ranges are not transformed by. *)
Definition notMove (op : Operation.t) : Prop :=
  (∃ position nodesMaxOffset version,
     op = Operation.Insert position nodesMaxOffset version)
  ∨ Operation.type op ∉ Range.supportedTypes.

(** The ranges of [ranges] follow [previous] in the document, each
    touching the one before it: no range starts before the range it
    follows, and its start touches the end of that range. *)
Fixpoint follows (isTouching : Position.t → Position.t → bool)
    (previous : Range.t) (ranges : list Range.t) : Prop :=
  match ranges with
  | [] => True
  | range :: ranges' =>
      Position.isAfter (Range.start previous) (Range.start range) = false
      ∧ isTouching (Range.start range) (Range.end_ previous) = true
      ∧ follows isTouching range ranges'
  end.

(** ** Attributes of the selection *)

(** What low-priority writes keep: the value of [key], and its priority
    [normal]. *)
Definition keepsNormal (key : string) (value : option Value) (s : LiveSelection.t) : Prop :=
  LiveSelection.getAttribute key s = value
  ∧ JSMap.get key (LiveSelection._attributePriority s) = Some LiveSelection.normal.

(** No key has priority [normal]. *)
Definition allLow (s : LiveSelection.t) : Prop :=
  ∀ k, JSMap.get k (LiveSelection._attributePriority s) ≠ Some LiveSelection.normal.

(** [s'] differs from [s] in its attributes and their priorities
    only. *)
Definition sameOutsideAttributes (s s' : LiveSelection.t) : Prop :=
  LiveSelection._document s' = LiveSelection._document s
  ∧ LiveSelection._ranges s' = LiveSelection._ranges s
  ∧ LiveSelection._lastRangeBackward s' = LiveSelection._lastRangeBackward s
  ∧ LiveSelection.effects s' = LiveSelection.effects s.

(** * Example documents *)

(** Positions and ranges at the top level of the root [main]. *)
Definition flatPosition (offset : nat) : Position.t := Position.mk "main" [offset].
Definition flatRange (from to : nat) : Range.t :=
  Range.mk (flatPosition from) (flatPosition to).

Definition graveyardRange : Range.t :=
  Range.mk (Position.mk "$graveyard" [0]) (Position.mk "$graveyard" [1]).

(** A delta of one move inside the root [main]. *)
Definition moveDelta (baseVersion : Z) (source howMany target : nat) : Delta.t :=
  Delta.mk [Operation.Move
              (Operation.mkMove (flatPosition source) howMany (flatPosition target)
                 baseVersion)].

(** The reinsertion of two nodes from the graveyard at offset 3. *)
Definition reinsertTwo : Operation.MoveData :=
  Operation.mkMove (Position.mk "$graveyard" [0]) 2 (flatPosition 3) 7.

(** Two nodes, the first with [foo = "bar"], the second without
    attributes, and the operation that removes [foo = "bar"] from both. *)
Definition fooBar : Attribute.t := Attribute.mk "foo" (VString "bar").
Definition twoNodes : list Node.t := [Node.mk {["foo" := VString "bar"]}; Node.mk ∅].
Definition removeFooBar : ChangeOperation.t :=
  ChangeOperation.mk (flatRange 0 2) (Some fooBar) None 0.

(** Two nodes without attributes, the operation that gives [foo =
    "bar"] to both, and the nodes afterwards. *)
Definition plainNodes : list Node.t := [Node.mk ∅; Node.mk ∅].
Definition fooBarNodes : list Node.t :=
  [Node.mk {["foo" := VString "bar"]}; Node.mk {["foo" := VString "bar"]}].
Definition addFooBar : ChangeOperation.t :=
  ChangeOperation.mk (flatRange 0 2) None (Some fooBar) 7.

(** A selection on the root [main] with the default range at its
    start, the attribute [bold] set by the user, and text around it
    that is not bold but italic; no range intersects another. *)
Definition mainDocument : LiveSelection.Document :=
  LiveSelection.mkDocument "$graveyard" (flatRange 0 0).
Definition boldSelection : LiveSelection.t :=
  LiveSelection.mk mainDocument [] false
    [("bold", VBool true)] [("bold", LiveSelection.normal)] [].
Definition italicAround (s : LiveSelection.t) : list (string * Value) :=
  [("bold", VBool false); ("italic", VBool true)].
Definition neverIntersects (ranges : list Range.t) (range : Range.t) : option Exception :=
  None.

(** The sizes of the elements of the tree that the documentation of
    [getMinimalFlatRanges] draws: the heading at [0, 0] holds five
    characters, the first [DIV] two elements, the root four. *)
Definition documentedSizes (path : list nat) : nat :=
  if bool_decide (path = [0; 0]) then 5
  else if bool_decide (path = [0]) then 2
  else 4.

(** A store with one position, [main:[4]], and its path array. *)
Definition onePosition : Store.t := Store.mk [Store.mkPosition "main" 0] [[4]].

(** * Properties *)

(** ** Comparison of positions *)

Section PositionOrder.

Import Position.

Lemma compareArraysFrom_refl i a : compareArraysFrom i a a = same.
Proof.
  revert i. induction a as [|x a IH]; intros i; simpl; [done|].
  by rewrite Nat.eqb_refl.
Qed.

Lemma compareWith_refl p : compareWith p p = rel_same.
Proof.
  unfold compareWith, compareArrays.
  by rewrite String.eqb_refl, compareArraysFrom_refl.
Qed.

Lemma isAfter_irrefl p : isAfter p p = false.
Proof. unfold isAfter. by rewrite compareWith_refl. Qed.

Lemma isBefore_irrefl p : isBefore p p = false.
Proof. unfold isBefore. by rewrite compareWith_refl. Qed.

Lemma isEqual_refl p : isEqual p p = true.
Proof. unfold isEqual. by rewrite compareWith_refl. Qed.

(** Swapping the arrays swaps "prefix" and "extension" and keeps the
    index of the first difference. *)
Lemma compareArraysFrom_swap i a b :
  compareArraysFrom i b a =
  match compareArraysFrom i a b with
  | same => same
  | prefix => extension
  | extension => prefix
  | differAt j => differAt j
  end.
Proof.
  revert i b. induction a as [|x a IH]; intros i [|y b]; simpl; try done.
  rewrite (Nat.eqb_sym y x). destruct (Nat.eqb x y); [apply IH | done].
Qed.

Lemma isBefore_isAfter p q : isBefore p q = true → isAfter q p = true.
Proof.
  unfold isBefore, isAfter, compareWith, compareArrays.
  rewrite (String.eqb_sym (root q) (root p)).
  destruct (String.eqb (root p) (root q)); simpl; [|done].
  rewrite (compareArraysFrom_swap 0 (path p) (path q)).
  destruct (compareArraysFrom 0 (path p) (path q)) as [| | |j]; try done.
  destruct (Nat.ltb_spec (default 0 (path p !! j)) (default 0 (path q !! j)))
    as [Hlt|Hge]; [|done].
  intros _.
  destruct (Nat.ltb_spec (default 0 (path q !! j)) (default 0 (path p !! j)));
    [lia | done].
Qed.

Lemma isEqual_not_isBefore p q : isEqual p q = true → isBefore p q = false.
Proof. unfold isEqual, isBefore. by destruct (compareWith p q). Qed.

Lemma createFromPosition_id p : createFromPosition p = p.
Proof. by destruct p. Qed.

End PositionOrder.

Lemma Range_new_id r : Range.new (Range.start r) (Some (Range.end_ r)) = r.
Proof.
  destruct r as [s e]. unfold Range.new. simpl.
  by rewrite !createFromPosition_id.
Qed.

Lemma createFromRange_id r : Range.createFromRange r = r.
Proof. apply Range_new_id. Qed.

(** ** Difference and intersection of a range with itself *)

(** A collapsed range does not intersect itself: the comparisons of
    [isIntersecting] are strict. *)
Lemma isIntersecting_self_collapsed r :
  Range.isCollapsed r = true → Range.isIntersecting r r = false.
Proof.
  unfold Range.isCollapsed, Range.isIntersecting. intros Heq.
  by rewrite (isEqual_not_isBefore _ _ Heq).
Qed.

Lemma containsPosition_start r : Range.containsPosition r (Range.start r) = false.
Proof. unfold Range.containsPosition. by rewrite isAfter_irrefl. Qed.

Lemma containsPosition_end r : Range.containsPosition r (Range.end_ r) = false.
Proof.
  unfold Range.containsPosition. rewrite isBefore_irrefl. apply andb_false_r.
Qed.

(** C1, as the code has it: for a range R whose start is before its end,
    [R.getDifference( R )] is the empty array and [R.getIntersection( R )]
    is a range equal to R; for a collapsed range R, which does not
    intersect itself, [R.getDifference( R )] holds one range equal to R
    and [R.getIntersection( R )] is [null]. *)
Theorem getDifference_getIntersection_self (r : Range.t) :
  (Position.isBefore (Range.start r) (Range.end_ r) = true →
     Range.getDifference r r = []
     ∧ ∃ common, Range.getIntersection r r = Some common
                 ∧ Range.isEqual r common = true)
  ∧ (Range.isCollapsed r = true →
     Range.getDifference r r = [r] ∧ Range.getIntersection r r = None).
Proof.
  split.
  - intros Hbefore.
    assert (Range.isIntersecting r r = true) as Hint.
    { unfold Range.isIntersecting.
      by rewrite Hbefore, (isBefore_isAfter _ _ Hbefore). }
    unfold Range.getDifference, Range.getIntersection.
    rewrite Hint, containsPosition_start, containsPosition_end.
    split; [done|].
    exists r. rewrite Range_new_id. split; [done|].
    unfold Range.isEqual. by rewrite !isEqual_refl.
  - intros Hcollapsed.
    unfold Range.getDifference, Range.getIntersection.
    rewrite (isIntersecting_self_collapsed _ Hcollapsed).
    by rewrite createFromRange_id.
Qed.

Lemma getDifference_getIntersection_self_witness :
  (Range.getDifference (flatRange 3 5) (flatRange 3 5) = []
   ∧ ∃ common, Range.getIntersection (flatRange 3 5) (flatRange 3 5) = Some common
               ∧ Range.isEqual (flatRange 3 5) common = true)
  ∧ (Range.getDifference (flatRange 3 3) (flatRange 3 3) = [flatRange 3 3]
     ∧ Range.getIntersection (flatRange 3 3) (flatRange 3 3) = None).
Proof.
  split.
  - apply (getDifference_getIntersection_self (flatRange 3 5)). reflexivity.
  - apply (getDifference_getIntersection_self (flatRange 3 3)). reflexivity.
Defined.

(** C1 as stated fails for a collapsed range: the difference of the
    collapsed range at offset 3 with itself is not empty, and the
    intersection is [null]. *)
Lemma getDifference_self_collapsed_nonempty :
  Range.isCollapsed (flatRange 3 3) = true
  ∧ Range.getDifference (flatRange 3 3) (flatRange 3 3) ≠ []
  ∧ Range.getIntersection (flatRange 3 3) (flatRange 3 3) = None.
Proof. by split; [|split]. Qed.

(** ** ChangeOperation: what has been done when it throws *)

Section ChangeOperationExecute.

Import ChangeOperation.

Lemma touchedOnly_refl visited store : touchedOnly visited store store.
Proof. by split. Qed.

Lemma touchedOnly_step id node visited store store' :
  touchedOnly visited (<[id := node]> store) store' →
  touchedOnly (id :: visited) store store'.
Proof.
  intros [Hlen Hsame]. split.
  - by rewrite Hlen, length_insert.
  - intros id' Hnotin. apply not_elem_of_cons in Hnotin as [Hne Hnotin].
    rewrite (Hsame _ Hnotin). by apply list_lookup_insert_ne.
Qed.

Lemma touchedOnly_skip id visited store store' :
  touchedOnly visited store store' → touchedOnly (id :: visited) store store'.
Proof.
  intros [Hlen Hsame]. split; [done|].
  intros id' Hnotin. apply not_elem_of_cons in Hnotin as [_ Hnotin]. by apply Hsame.
Qed.

(** Either loop has touched only nodes that it visited before it
    stopped, and has visited them all when it ends normally. *)
Lemma removeOrChange_touched oldAttr newAttr visits store outcome store' :
  removeOrChange oldAttr newAttr visits store = (outcome, store') →
  ∃ visited, visited `prefix_of` visits
             ∧ touchedOnly visited store store'
             ∧ (∀ e, outcome = inl e → visited ≠ visits).
Proof.
  revert store. induction visits as [|id visits IH]; intros store; simpl.
  - intros [= <- <-]. exists []. split; [done|]. split; [apply touchedOnly_refl|done].
  - destruct (store !! id) as [node|] eqn:Hnode.
    + destruct (negb (Node.hasAttr node oldAttr)).
      * intros [= <- <-]. exists []. split; [apply prefix_nil|].
        split; [apply touchedOnly_refl|done].
      * intros Hrec. apply IH in Hrec as (visited & Hprefix & Htouched & Hstop).
        exists (id :: visited). split; [by apply prefix_cons|].
        split.
        -- destruct newAttr; [by apply touchedOnly_skip|].
           by eapply touchedOnly_step.
        -- intros e He [= Heq]. by eapply Hstop.
    + intros [= <- <-]. exists []. split; [apply prefix_nil|].
      split; [apply touchedOnly_refl|done].
Qed.

Lemma insertOrChange_touched oldAttr newAttr visits store outcome store' :
  insertOrChange oldAttr newAttr visits store = (outcome, store') →
  ∃ visited, visited `prefix_of` visits
             ∧ touchedOnly visited store store'
             ∧ (∀ e, outcome = inl e → visited ≠ visits).
Proof.
  revert store. induction visits as [|id visits IH]; intros store; simpl.
  - intros [= <- <-]. exists []. split; [done|]. split; [apply touchedOnly_refl|done].
  - destruct (store !! id) as [node|] eqn:Hnode.
    + destruct (bool_decide (oldAttr = None) && Node.hasAttrKey node (Attribute.key newAttr)).
      * intros [= <- <-]. exists []. split; [apply prefix_nil|].
        split; [apply touchedOnly_refl|done].
      * intros Hrec. apply IH in Hrec as (visited & Hprefix & Htouched & Hstop).
        exists (id :: visited). split; [by apply prefix_cons|].
        split; [by eapply touchedOnly_step|].
        intros e He [= Heq]. by eapply Hstop.
    + intros [= <- <-]. exists []. split; [apply prefix_nil|].
      split; [apply touchedOnly_refl|done].
Qed.

(** When a new attribute is given, the first loop only checks. *)
Lemma removeOrChange_checks_only oldAttr newAttr visits store outcome store' :
  removeOrChange oldAttr (Some newAttr) visits store = (outcome, store') →
  store' = store
  ∧ (outcome = Ok () → Forall (λ id, id < length store) visits).
Proof.
  induction visits as [|id visits IH]; simpl.
  - by intros [= <- <-].
  - destruct (store !! id) as [node|] eqn:Hnode; [|by intros [= <- <-]].
    destruct (negb (Node.hasAttr node oldAttr)); [by intros [= <- <-]|].
    intros Hrec. destruct (IH Hrec) as [-> Hall]. split; [done|].
    intros Hok. constructor; [by eapply lookup_lt_Some | by apply Hall].
Qed.

(** When an old attribute is given, the second loop does not check
    anything and ends normally on nodes that exist. *)
Lemma insertOrChange_change_ok oldAttr newAttr visits store :
  Forall (λ id, id < length store) visits →
  (insertOrChange (Some oldAttr) newAttr visits store).1 = Ok ().
Proof.
  revert store. induction visits as [|id visits IH]; intros store Hall; simpl; [done|].
  apply Forall_cons in Hall as [Hid Hall].
  destruct (lookup_lt_is_Some_2 store id Hid) as [node ->]. simpl.
  apply IH. by rewrite length_insert.
Qed.

End ChangeOperationExecute.

(** ** ChangeOperation: a loop that ends normally *)

Section VisitAll.

Variable check : Node.t → bool.
Variable update : Node.t → Node.t.

(** Node by node: a visited node passed the check and holds its update,
    provided that updating twice is updating once for a node that can be
    visited again; the other nodes are as before. *)
Lemma visitAll_lookup visits store store' :
  (∀ node, check node = true → check (update node) = true →
           update (update node) = update node) →
  visitAll check update visits store = Some store' →
  length store' = length store
  ∧ (∀ id, id ∈ visits →
       ∃ node, store !! id = Some node ∧ check node = true
               ∧ store' !! id = Some (update node))
  ∧ (∀ id, id ∉ visits → store' !! id = store !! id).
Proof.
  intros Hrevisit. revert store.
  induction visits as [|id0 rest IH]; intros store; simpl.
  - intros [= <-]. split; [done|]. split; [|done]. intros id Hin. by apply elem_of_nil in Hin.
  - destruct (store !! id0) as [node0|] eqn:Hnode0; [|done].
    destruct (check node0) eqn:Hcheck0; [|done].
    intros Hrest. destruct (IH _ Hrest) as (Hlen & Hvisited & Hother).
    rewrite length_insert in Hlen.
    assert (id0 < length store) as Hlt by by eapply lookup_lt_Some.
    split; [done|]. split.
    + intros id Hin. destruct (decide (id = id0)) as [->|Hne].
      * exists node0. split; [done|]. split; [done|].
        destruct (decide (id0 ∈ rest)) as [Hagain|Honce].
        -- destruct (Hvisited _ Hagain) as (node & Hnode & Hcheck & Hupd).
           rewrite list_lookup_insert_eq in Hnode by done.
           injection Hnode as <-. rewrite Hupd. f_equal. by apply Hrevisit.
        -- rewrite (Hother _ Honce). by apply list_lookup_insert_eq.
      * apply elem_of_cons in Hin as [?|Hin]; [done|].
        destruct (Hvisited _ Hin) as (node & Hnode & Hcheck & Hupd).
        rewrite list_lookup_insert_ne in Hnode by done. by exists node.
    + intros id Hnotin. apply not_elem_of_cons in Hnotin as [Hne Hnotin].
      rewrite (Hother _ Hnotin). by apply list_lookup_insert_ne.
Qed.

(** A check that fails on updated nodes lets every node be visited once
    only. *)
Lemma visitAll_NoDup visits store store' :
  (∀ node, check node = true → check (update node) = false) →
  visitAll check update visits store = Some store' → NoDup visits.
Proof.
  intros Honce. revert store.
  induction visits as [|id0 rest IH]; intros store; simpl; [constructor|].
  destruct (store !! id0) as [node0|] eqn:Hnode0; [|done].
  destruct (check node0) eqn:Hcheck0; [|done].
  intros Hrest. constructor; [|by eapply IH].
  intros Hagain.
  apply visitAll_lookup in Hrest as (_ & Hvisited & _).
  - destruct (Hvisited _ Hagain) as (node & Hnode & Hcheck & _).
    rewrite list_lookup_insert_eq in Hnode by by eapply lookup_lt_Some.
    injection Hnode as <-. rewrite (Honce _ Hcheck0) in Hcheck. discriminate Hcheck.
  - intros node Hc Hc'. rewrite (Honce _ Hc) in Hc'. discriminate Hc'.
Qed.

(** The loop ends normally when every node to visit passes the check
    and is visited once... *)
Lemma visitAll_is_Some_NoDup visits store :
  NoDup visits →
  (∀ id, id ∈ visits → ∃ node, store !! id = Some node ∧ check node = true) →
  is_Some (visitAll check update visits store).
Proof.
  revert store. induction visits as [|id0 rest IH]; intros store Hnodup Hall; simpl; [done|].
  apply NoDup_cons in Hnodup as [Hfresh Hnodup].
  destruct (Hall id0) as (node0 & -> & ->); [by left|].
  apply IH; [done|]. intros id Hin.
  destruct (Hall id) as (node & Hnode & Hcheck); [by right|].
  exists node. split; [|done].
  rewrite list_lookup_insert_ne; [done|]. by intros ->.
Qed.

(** ... or when updated nodes still pass the check. *)
Lemma visitAll_is_Some_stable visits store :
  (∀ node, check node = true → check (update node) = true) →
  (∀ id, id ∈ visits → ∃ node, store !! id = Some node ∧ check node = true) →
  is_Some (visitAll check update visits store).
Proof.
  intros Hstable. revert store.
  induction visits as [|id0 rest IH]; intros store Hall; simpl; [done|].
  destruct (Hall id0) as (node0 & Hnode0 & Hcheck0); [by left|].
  rewrite Hnode0, Hcheck0. apply IH. intros id Hin.
  destruct (decide (id = id0)) as [->|Hne].
  - exists (update node0). split; [|by apply Hstable].
    apply list_lookup_insert_eq. by eapply lookup_lt_Some.
  - destruct (Hall id) as (node & Hnode & Hcheck); [by right|].
    exists node. split; [|done]. by rewrite list_lookup_insert_ne.
Qed.

End VisitAll.

(** Undoing a loop by a second loop over the same nodes: if the second
    update takes the update of a visited node back to the node, the
    second loop ends normally and restores the store. *)
Lemma visitAll_undo (check check' : Node.t → bool) (update update' : Node.t → Node.t)
    visits store store' :
  (∀ node, check node = true → check (update node) = true →
           update (update node) = update node) →
  (∀ node, check' node = true → check' (update' node) = true →
           update' (update' node) = update' node) →
  (∀ id node, id ∈ visits → store !! id = Some node → check node = true →
              check' (update node) = true ∧ update' (update node) = node) →
  (NoDup visits ∨ ∀ node, check' node = true → check' (update' node) = true) →
  visitAll check update visits store = Some store' →
  visitAll check' update' visits store' = Some store.
Proof.
  intros Hrevisit Hrevisit' Hlink Hagain Hforward.
  destruct (visitAll_lookup _ _ _ _ _ Hrevisit Hforward) as (Hlen & Hvisited & Hother).
  assert (∀ id, id ∈ visits →
            ∃ node', store' !! id = Some node' ∧ check' node' = true) as Hready.
  { intros id Hin. destruct (Hvisited _ Hin) as (node & Hnode & Hcheck & Hupd).
    exists (update node). split; [done|]. by eapply Hlink. }
  assert (is_Some (visitAll check' update' visits store')) as [store'' Hback].
  { destruct Hagain as [Hnodup|Hstable].
    - by apply visitAll_is_Some_NoDup.
    - by apply visitAll_is_Some_stable. }
  rewrite Hback. f_equal.
  destruct (visitAll_lookup _ _ _ _ _ Hrevisit' Hback) as (_ & Hvisited' & Hother').
  apply list_eq. intros id.
  destruct (decide (id ∈ visits)) as [Hin|Hnotin].
  - destruct (Hvisited _ Hin) as (node & Hnode & Hcheck & Hupd).
    destruct (Hvisited' _ Hin) as (node' & Hnode' & _ & Hupd').
    rewrite Hupd in Hnode'. injection Hnode' as <-.
    rewrite Hupd', Hnode. f_equal. by eapply Hlink.
  - by rewrite (Hother' _ Hnotin), (Hother _ Hnotin).
Qed.

(** ** ChangeOperation: the loops of [_execute] when they end normally *)

Section ChangeOperationOk.

Import ChangeOperation.

Lemma removeOrChange_Ok oldAttr newAttr visits store store' :
  removeOrChange oldAttr newAttr visits store = (Ok (), store')
  ↔ visitAll (λ node, Node.hasAttr node oldAttr) (removeUpdate oldAttr newAttr)
      visits store = Some store'.
Proof.
  revert store. induction visits as [|id visits IH]; intros store; simpl.
  - split; by intros [= <-].
  - destruct (store !! id) as [node|] eqn:Hnode; [|done].
    destruct (Node.hasAttr node oldAttr); simpl; [|done].
    rewrite IH. unfold removeUpdate. destruct newAttr; [|done].
    by rewrite (list_insert_id _ _ _ Hnode).
Qed.

Lemma insertOrChange_Ok oldAttr newAttr visits store store' :
  insertOrChange oldAttr newAttr visits store = (Ok (), store')
  ↔ visitAll (insertCheck oldAttr newAttr) (λ node, Node.setAttr node newAttr)
      visits store = Some store'.
Proof.
  revert store. induction visits as [|id visits IH]; intros store; simpl.
  - split; by intros [= <-].
  - destruct (store !! id) as [node|] eqn:Hnode; [|done].
    unfold insertCheck at 1.
    destruct (bool_decide (oldAttr = None) && Node.hasAttrKey node (Attribute.key newAttr));
      simpl; [done|].
    apply IH.
Qed.

(** Attributes of a node, one key at a time. *)
Lemma hasAttr_lookup node attr :
  Node.hasAttr node attr = true
  ↔ Node.attrs node !! Attribute.key attr = Some (Attribute.value attr).
Proof. unfold Node.hasAttr. by rewrite bool_decide_eq_true. Qed.

Lemma hasAttrKey_false node key :
  Node.hasAttrKey node key = false ↔ Node.attrs node !! key = None.
Proof.
  unfold Node.hasAttrKey. rewrite bool_decide_eq_false.
  by rewrite <- eq_None_not_Some.
Qed.

Lemma setAttr_removeAttr node attr :
  Node.hasAttr node attr = true →
  Node.setAttr (Node.removeAttr node (Attribute.key attr)) attr = node.
Proof.
  rewrite hasAttr_lookup. destruct node as [attrs]. unfold Node.setAttr; simpl.
  intros Hhas. by rewrite insert_delete_eq, insert_id.
Qed.

Lemma removeAttr_setAttr node attr :
  Node.hasAttrKey node (Attribute.key attr) = false →
  Node.removeAttr (Node.setAttr node attr) (Attribute.key attr) = node.
Proof.
  rewrite hasAttrKey_false. destruct node as [attrs]. unfold Node.removeAttr; simpl.
  intros Hnone. by rewrite delete_insert_eq, delete_id.
Qed.

Lemma setAttr_setAttr node oldAttr newAttr :
  Attribute.key oldAttr = Attribute.key newAttr →
  Node.hasAttr node oldAttr = true →
  Node.setAttr (Node.setAttr node newAttr) oldAttr = node.
Proof.
  rewrite hasAttr_lookup. destruct node as [attrs]. unfold Node.setAttr; simpl.
  intros <- Hhas. by rewrite insert_insert_eq, insert_id.
Qed.

Lemma setAttr_idem node attr :
  Node.setAttr (Node.setAttr node attr) attr = Node.setAttr node attr.
Proof. destruct node as [attrs]. unfold Node.setAttr; simpl. by rewrite insert_insert_eq. Qed.

Lemma hasAttr_setAttr node attr : Node.hasAttr (Node.setAttr node attr) attr = true.
Proof. rewrite hasAttr_lookup. simpl. apply lookup_insert_eq. Qed.

Lemma hasAttrKey_setAttr node attr :
  Node.hasAttrKey (Node.setAttr node attr) (Attribute.key attr) = true.
Proof.
  unfold Node.hasAttrKey. rewrite bool_decide_eq_true. simpl.
  rewrite lookup_insert_eq. by eexists.
Qed.

Lemma hasAttr_removeAttr node attr :
  Node.hasAttr (Node.removeAttr node (Attribute.key attr)) attr = false.
Proof.
  unfold Node.hasAttr. rewrite bool_decide_eq_false. simpl.
  by rewrite lookup_delete_eq.
Qed.

Lemma hasAttrKey_removeAttr node key :
  Node.hasAttrKey (Node.removeAttr node key) key = false.
Proof. rewrite hasAttrKey_false. simpl. apply lookup_delete_eq. Qed.

End ChangeOperationOk.

(** A loop that only checks leaves the store as it is. *)
Lemma visitAll_check_only (check : Node.t → bool) visits store :
  (∀ id, id ∈ visits → ∃ node, store !! id = Some node ∧ check node = true) →
  visitAll check (λ node, node) visits store = Some store.
Proof.
  induction visits as [|id0 rest IH]; intros Hall; simpl; [done|].
  destruct (Hall id0) as (node0 & Hnode0 & Hcheck0); [by left|].
  rewrite Hnode0, Hcheck0, (list_insert_id _ _ _ Hnode0).
  apply IH. intros id Hin. apply Hall. by right.
Qed.

(** ** ChangeOperation: where it throws *)

Section ChangeOperationThrow.

Import ChangeOperation.



End ChangeOperationThrow.




(** ** The reversed ChangeOperation undoes the operation *)

Lemma _execute_getReversed (op : ChangeOperation.t) (visits : list nat)
    (store store' : list Node.t) :
  ChangeOperation._execute op visits store = (Ok (), store') →
  ChangeOperation._execute (ChangeOperation.getReversed op) visits store' = (Ok (), store).
Proof.
  unfold ChangeOperation._execute, ChangeOperation.getReversed.
  destruct op as [range [o|] [n|] version]; simpl.
  - (* change *)
    rewrite (String.eqb_sym (Attribute.key n) (Attribute.key o)).
    destruct (String.eqb (Attribute.key o) (Attribute.key n)) eqn:Hkey; simpl; [|done].
    apply String.eqb_eq in Hkey.
    destruct (ChangeOperation.removeOrChange o (Some n) visits store)
      as [removed store1] eqn:Hfirst.
    destruct (removeOrChange_checks_only _ _ _ _ _ _ Hfirst) as [-> _].
    destruct removed as [e|[]]; [done|]. intros Hsecond.
    apply removeOrChange_Ok in Hfirst. apply insertOrChange_Ok in Hsecond.
    destruct (visitAll_lookup _ (removeUpdate o (Some n)) _ _ _
                (λ node _ _, eq_refl) Hfirst) as (_ & Hold & _).
    destruct (visitAll_lookup _ (λ node, Node.setAttr node n) _ _ _
                (λ node _ _, setAttr_idem node n) Hsecond) as (_ & Hnew & _).
    assert (ChangeOperation.removeOrChange n (Some o) visits store' = (Ok (), store'))
      as ->.
    { apply removeOrChange_Ok.
      apply (visitAll_check_only (λ node, Node.hasAttr node n)).
      intros id Hin. destruct (Hnew _ Hin) as (node & _ & _ & Hset).
      exists (Node.setAttr node n). split; [done|]. apply hasAttr_setAttr. }
    apply insertOrChange_Ok.
    eapply visitAll_undo; [| | |right|exact Hsecond].
    + intros node _ _. apply setAttr_idem.
    + intros node _ _. apply setAttr_idem.
    + intros id node Hin Hnode _. split; [done|].
      destruct (Hold _ Hin) as (node0 & Hnode0 & Hhas & _).
      rewrite Hnode in Hnode0. injection Hnode0 as <-.
      by apply setAttr_setAttr.
    + done.
  - (* removal *)
    destruct (ChangeOperation.removeOrChange o None visits store)
      as [removed store1] eqn:Hfirst.
    destruct removed as [e|[]]; [done|]. intros [= <-].
    apply removeOrChange_Ok in Hfirst.
    apply insertOrChange_Ok.
    eapply visitAll_undo; [| | | |exact Hfirst].
    + intros node _ Hagain. unfold removeUpdate in Hagain.
      by rewrite hasAttr_removeAttr in Hagain.
    + intros; apply setAttr_idem.
    + intros id node _ _ Hhas. unfold removeUpdate, insertCheck. split.
      * by rewrite hasAttrKey_removeAttr, andb_false_r.
      * by apply setAttr_removeAttr.
    + left. eapply visitAll_NoDup; [|exact Hfirst].
      intros node _. apply hasAttr_removeAttr.
  - (* insertion *)
    intros Hsecond. apply insertOrChange_Ok in Hsecond.
    assert (ChangeOperation.removeOrChange n None visits store' = (Ok (), store)) as ->;
      [|done].
    apply removeOrChange_Ok.
    eapply visitAll_undo; [| | | |exact Hsecond].
    + intros node _ Hagain. unfold insertCheck in Hagain.
      by rewrite hasAttrKey_setAttr in Hagain.
    + intros node _ Hagain. unfold removeUpdate in Hagain.
      by rewrite hasAttr_removeAttr in Hagain.
    + intros id node _ _ Hfree. unfold insertCheck in Hfree. simpl in Hfree.
      apply negb_true_iff in Hfree.
      split; [apply hasAttr_setAttr | by apply removeAttr_setAttr].
    + left. eapply visitAll_NoDup; [|exact Hsecond].
      intros node _. unfold insertCheck. by rewrite hasAttrKey_setAttr.
  - (* neither *)
    by intros [= <-].
Qed.

(** C3: [getReversed] of a ReinsertOperation is the RemoveOperation that
    takes [howMany] nodes from the position where they were reinserted
    (the reinsertion's [targetPosition]) to the graveyard, for
    [baseVersion + 1]; [getReversed] of a ChangeOperation is the
    ChangeOperation on the same range with the old and the new attribute
    swapped, for [baseVersion + 1], and it is the inverse: run on the
    nodes that the operation has changed, it gives the nodes back as
    they were. *)
Theorem getReversed_inverse (graveyardPosition : Position.t) (d : Operation.MoveData)
    (op : ChangeOperation.t) (visits : list nat) (store store' : list Node.t) :
  (∃ reversed,
     ReinsertOperation.getReversed graveyardPosition d = Operation.Remove reversed
     ∧ ReinsertOperation.getReversed graveyardPosition d
       = RemoveOperation.new graveyardPosition
           (Operation.targetPosition d) (Operation.howMany d) (Operation.baseVersion d + 1)
     ∧ Operation.sourcePosition reversed = Operation.targetPosition d
     ∧ Operation.targetPosition reversed = graveyardPosition
     ∧ Operation.howMany reversed = Operation.howMany d
     ∧ Operation.baseVersion reversed = (Operation.baseVersion d + 1)%Z)
  ∧ (ChangeOperation.range (ChangeOperation.getReversed op) = ChangeOperation.range op
     ∧ ChangeOperation.oldAttr (ChangeOperation.getReversed op) = ChangeOperation.newAttr op
     ∧ ChangeOperation.newAttr (ChangeOperation.getReversed op) = ChangeOperation.oldAttr op
     ∧ ChangeOperation.baseVersion (ChangeOperation.getReversed op)
       = (ChangeOperation.baseVersion op + 1)%Z)
  ∧ (ChangeOperation._execute op visits store = (Ok (), store') →
     ChangeOperation._execute (ChangeOperation.getReversed op) visits store'
     = (Ok (), store)).
Proof.
  split; [|split].
  - eexists. by repeat split.
  - by repeat split.
  - apply _execute_getReversed.
Qed.

Lemma getReversed_inverse_witness :
  ReinsertOperation.getReversed (Position.mk "$graveyard" [0]) reinsertTwo
  = Operation.Remove
      (Operation.mkMove (flatPosition 3) 2 (Position.mk "$graveyard" [0]) 8)
  ∧ ChangeOperation.getReversed addFooBar
    = ChangeOperation.mk (flatRange 0 2) (Some fooBar) None 8
  ∧ ChangeOperation._execute (ChangeOperation.getReversed addFooBar) [0; 1] fooBarNodes
    = (Ok (), plainNodes).
Proof.
  destruct (getReversed_inverse (Position.mk "$graveyard" [0]) reinsertTwo
              addFooBar [0; 1] plainNodes fooBarNodes) as (Hreinsert & Hchange & Hundo).
  split; [reflexivity|]. split; [reflexivity|].
  apply Hundo. vm_compute. reflexivity.
Defined.

(** ** createFromRanges *)



Lemma isBefore_not_isAfter p q : Position.isBefore p q = true → Position.isAfter p q = false.
Proof. unfold Position.isBefore, Position.isAfter. by destruct (Position.compareWith p q). Qed.

(** C4, at a failing input: three ranges, [second] at index 0 as the
    reference range, then [first], whose end touches the start of
    [second], and [third].  The comparator answers true or false, never
    a negative number, and a host that moves an element only before an
    element it is below leaves the array as it was passed.  On such a
    host the reference range stays at index 0: the loop for the ranges
    before it does not run, and the loop for the ranges after it stops
    at [first], whose start does not touch the end of [second].
    [createFromRanges] returns a copy of [second]: [first] is not
    merged. *)
Theorem createFromRanges_reference_second
    (sort : (nat * Range.t → nat * Range.t → bool)
            → list (nat * Range.t) → list (nat * Range.t))
    (isTouching : Position.t → Position.t → bool) (first second third : Range.t) :
  sort Range.startsAfter (Range.tagged [second; first; third])
  = Range.tagged [second; first; third] →
  isTouching (Range.end_ first) (Range.start second) = true →
  isTouching (Range.start first) (Range.end_ second) = false →
  Range.createFromRanges sort isTouching [second; first; third] = Ok second.
Proof.
  intros Hhost _ Hforward. unfold Range.createFromRanges. rewrite Hhost.
  unfold Range.tagged, Range.indexOf. simpl.
  by rewrite !createFromPosition_id, Hforward, Range_new_id.
Qed.

Lemma createFromRanges_reference_second_witness :
  Range.createFromRanges (λ _ a, a) Position.isEqual
    [flatRange 2 4; flatRange 0 2; flatRange 6 8]
  = Ok (flatRange 2 4).
Proof.
  apply (createFromRanges_reference_second (λ _ a, a) Position.isEqual
           (flatRange 0 2) (flatRange 2 4) (flatRange 6 8)); reflexivity.
Defined.

(** On a host that sorts by insertion the same array is put in the order
    of the document, and the two touching ranges are merged. *)
Example createFromRanges_reference_second_sorted :
  Range.createFromRanges (@Range.insertionSort _) Position.isEqual
    [flatRange 2 4; flatRange 0 2; flatRange 6 8]
  = Ok (flatRange 0 4).
Proof. reflexivity. Qed.

(** ** getTransformedByDeltas: the clean-up loops *)

(** The loops end before the fuel does: with at least as much fuel as
    there are indices left, more fuel changes nothing. *)
Lemma removeRelated_fuel (fuel1 fuel2 : nat) range (j : nat) (ranges : list Range.t) :
  (length ranges - j ≤ fuel1)%nat → (length ranges - j ≤ fuel2)%nat →
  Range.removeRelated fuel1 range j ranges = Range.removeRelated fuel2 range j ranges.
Proof.
  revert fuel2 j ranges.
  induction fuel1 as [|fuel1 IH]; intros fuel2 j ranges H1 H2.
  - assert (ranges !! j = None) as Hend by (apply lookup_ge_None; lia).
    destruct fuel2; simpl; [done|]. by rewrite Hend.
  - destruct fuel2 as [|fuel2]; simpl.
    + assert (ranges !! j = None) as -> by (apply lookup_ge_None; lia). done.
    + destruct (ranges !! j) as [next|] eqn:Hnext; [|done].
      apply lookup_lt_Some in Hnext as Hlt.
      destruct (_ || _).
      * apply IH; rewrite length_delete by (by eexists); lia.
      * apply IH; lia.
Qed.

Lemma removeRelated_length (fuel : nat) range (j : nat) (ranges : list Range.t) :
  (length (Range.removeRelated fuel range j ranges) ≤ length ranges)%nat.
Proof.
  revert j ranges. induction fuel as [|fuel IH]; intros j ranges; simpl; [done|].
  destruct (ranges !! j) as [next|] eqn:Hnext; [|done].
  destruct (_ || _); [|apply IH].
  etransitivity; [apply IH|]. rewrite length_delete by (by eexists). lia.
Qed.

Lemma removeContained_fuel (fuel1 fuel2 i : nat) (ranges : list Range.t) :
  (length ranges - i ≤ fuel1)%nat → (length ranges - i ≤ fuel2)%nat →
  Range.removeContained fuel1 i ranges = Range.removeContained fuel2 i ranges.
Proof.
  revert fuel2 i ranges.
  induction fuel1 as [|fuel1 IH]; intros fuel2 i ranges H1 H2.
  - assert (ranges !! i = None) as Hend by (apply lookup_ge_None; lia).
    destruct fuel2; simpl; [done|]. by rewrite Hend.
  - destruct fuel2 as [|fuel2]; simpl.
    + assert (ranges !! i = None) as -> by (apply lookup_ge_None; lia). done.
    + destruct (ranges !! i) as [range|] eqn:Hrange; [|done].
      apply lookup_lt_Some in Hrange as Hlt.
      pose proof (removeRelated_length (length ranges) range (S i) ranges).
      apply IH; lia.
Qed.


(** C6, at a failing input: the range of the first ten nodes of a root
    and two moves inside that root, of the nodes at offsets 6 and 7 to
    offset 2, then of the eight nodes from offset 2 on to offset 1.
    The two moves turn the range into the pieces [0,10], [3,9] and
    [1,3].  The clean-up removes [3,9], which
    [0,10] contains, and then steps over [1,3], which has taken its
    index: the array returned holds [1,3] next to the range [0,10] that
    contains it. *)
Theorem getTransformedByDeltas_keeps_contained :
  Range.transformByDeltas [moveDelta 0 6 2 2; moveDelta 1 2 8 1] [flatRange 0 10]
  = Ok [flatRange 0 10; flatRange 3 9; flatRange 1 3]
  ∧ Range.getTransformedByDeltas (flatRange 0 10) [moveDelta 0 6 2 2; moveDelta 1 2 8 1]
    = Ok [flatRange 0 10; flatRange 1 3]
  ∧ Range.containsRange (flatRange 0 10) (flatRange 1 3) = true.
Proof. by split; [|split]; vm_compute. Qed.

(** ** Maps as ordered lists of entries *)

Section JSMapFacts.

Context {V : Type}.
Implicit Types (m : list (string * V)) (key k : string).

Lemma get_set_eq key (value : V) m : JSMap.get key (JSMap.set key value m) = Some value.
Proof.
  induction m as [|[k v] m IH]; simpl.
  - by rewrite String.eqb_refl.
  - destruct (String.eqb k key) eqn:Hk; simpl; by rewrite Hk.
Qed.

Lemma get_set_ne key k (value : V) m :
  k ≠ key → JSMap.get key (JSMap.set k value m) = JSMap.get key m.
Proof.
  intros Hne. apply String.eqb_neq in Hne.
  induction m as [|[k' v] m IH]; simpl.
  - by rewrite Hne.
  - destruct (String.eqb k' k) eqn:Hk; simpl.
    + apply String.eqb_eq in Hk as ->. by rewrite Hne.
    + by rewrite IH.
Qed.

Lemma get_delete_ne key k m :
  k ≠ key → JSMap.get key (JSMap.delete k m) = JSMap.get key m.
Proof.
  intros Hne. apply String.eqb_neq in Hne.
  induction m as [|[k' v] m IH]; simpl; [done|].
  destruct (String.eqb k' k) eqn:Hk; simpl.
  - apply String.eqb_eq in Hk as ->. by rewrite Hne.
  - by rewrite IH.
Qed.

(** In a map, where every key occurs once, an entry is what [get]
    finds. *)
Lemma get_entry key (value : V) m :
  NoDup m.*1 → (key, value) ∈ m → JSMap.get key m = Some value.
Proof.
  induction m as [|[k v] m IH]; simpl; intros Hnodup Hin.
  - by apply elem_of_nil in Hin.
  - apply NoDup_cons in Hnodup as [Hfresh Hnodup].
    apply elem_of_cons in Hin as [[= <- <-]|Hin].
    + by rewrite String.eqb_refl.
    + destruct (String.eqb k key) eqn:Hk; [|by apply IH].
      apply String.eqb_eq in Hk as ->. destruct Hfresh.
      apply list_elem_of_fmap. by exists (key, value).
Qed.

End JSMapFacts.

Lemma foldl_invariant {A B} (I : A → Prop) (f : A → B → A) (l : list B) (a : A) :
  I a → (∀ acc x, x ∈ l → I acc → I (f acc x)) → I (foldl f a l).
Proof.
  revert a. induction l as [|x l IH]; simpl; intros a Ha Hstep; [done|].
  apply IH.
  - apply Hstep; [by left | done].
  - intros acc y Hin. apply Hstep. by right.
Qed.

(** ** LiveSelection: attribute priorities *)

Section AttributePriority.

Import LiveSelection.

Lemma _setAttribute_low_blocked key value s :
  JSMap.get key (_attributePriority s) = Some normal →
  _setAttribute key value false s = (false, s).
Proof.
  intros Hnormal. unfold _setAttribute. simpl.
  by rewrite (bool_decide_eq_true_2 _ Hnormal).
Qed.

Lemma _removeAttribute_low_blocked key s :
  JSMap.get key (_attributePriority s) = Some normal →
  _removeAttribute key false s = (false, s).
Proof.
  intros Hnormal. unfold _removeAttribute. simpl.
  by rewrite (bool_decide_eq_true_2 _ Hnormal).
Qed.

Lemma _setAttribute_low_keeps key old k value s :
  keepsNormal key old s → keepsNormal key old (_setAttribute k value false s).2.
Proof.
  intros [Hvalue Hnormal]. destruct (decide (k = key)) as [->|Hne].
  - by rewrite _setAttribute_low_blocked.
  - unfold _setAttribute.
    destruct (_ && _); [done|]. destruct (bool_decide _); [done|].
    unfold keepsNormal, getAttribute. simpl. by rewrite !get_set_ne.
Qed.

Lemma _removeAttribute_low_keeps key old k s :
  keepsNormal key old s → keepsNormal key old (_removeAttribute k false s).2.
Proof.
  intros [Hvalue Hnormal]. destruct (decide (k = key)) as [->|Hne].
  - by rewrite _removeAttribute_low_blocked.
  - unfold _removeAttribute.
    destruct (_ && _); [done|]. destruct (negb _); [done|].
    unfold keepsNormal, getAttribute. simpl. by rewrite get_set_ne, get_delete_ne.
Qed.

Lemma _setAttributesTo_low_keeps key old attrs s :
  keepsNormal key old s → keepsNormal key old (_setAttributesTo attrs false s).2.
Proof.
  intros Hkeeps. unfold _setAttributesTo.
  apply (foldl_invariant (λ acc, keepsNormal key old acc.2)).
  - apply (foldl_invariant (λ acc, keepsNormal key old acc.2)); [done|].
    intros [changed s'] [oldKey oldValue] _ Hacc. simpl in *.
    destruct (bool_decide _); [done|].
    pose proof (_removeAttribute_low_keeps key old oldKey s' Hacc) as Hstep.
    by destruct (_removeAttribute oldKey false s').
  - intros [changed s'] [k value] _ Hacc. simpl in *.
    pose proof (_setAttribute_low_keeps key old k value s' Hacc) as Hstep.
    by destruct (_setAttribute k value false s').
Qed.

Lemma dropLowPriority_keeps key old s :
  NoDup (_attributePriority s).*1 →
  keepsNormal key old s → keepsNormal key old (dropLowPriority s).
Proof.
  intros Hnodup Hkeeps. unfold dropLowPriority.
  apply (foldl_invariant (keepsNormal key old)); [done|].
  intros s' [k priority] Hin [Hvalue Hnormal]. simpl.
  destruct (bool_decide_reflect (priority = low)) as [->|_]; [|done].
  assert (k ≠ key) as Hne.
  { intros ->. destruct Hkeeps as [_ Hwas].
    rewrite (get_entry _ _ _ Hnodup Hin) in Hwas. discriminate Hwas. }
  unfold keepsNormal, getAttribute. simpl. by rewrite !get_delete_ne.
Qed.

Lemma get_set_low k key (priorities : list (string * Priority)) :
  JSMap.get k priorities ≠ Some normal →
  JSMap.get k (JSMap.set key low priorities) ≠ Some normal.
Proof.
  intros Hlow. destruct (decide (key = k)) as [->|Hne].
  - by rewrite get_set_eq.
  - by rewrite get_set_ne.
Qed.

Lemma _setAttributesTo_low_allLow attrs s :
  allLow s → allLow (_setAttributesTo attrs false s).2.
Proof.
  intros Hlow. unfold _setAttributesTo.
  apply (foldl_invariant (λ acc, allLow acc.2)).
  - apply (foldl_invariant (λ acc, allLow acc.2)); [done|].
    intros [changed s'] [oldKey oldValue] _ Hacc. simpl in *.
    destruct (bool_decide _); [done|].
    unfold _removeAttribute. destruct (_ && _); [done|]. destruct (negb _); [done|].
    intros k. simpl. apply get_set_low, Hacc.
  - intros [changed s'] [key value] _ Hacc. simpl in *.
    unfold _setAttribute. destruct (_ && _); [done|]. destruct (bool_decide _); [done|].
    intros k. simpl. apply get_set_low, Hacc.
Qed.

End AttributePriority.

(** C8: while the priority recorded for [key] is [normal], a
    low-priority [_setAttribute] or [_removeAttribute] of [key] returns
    [false] and changes nothing; the refresh that is not [clearAll],
    which only writes with low priority, keeps the value of [key] and
    its priority; after the full refresh ([clearAll]) no key has
    priority [normal] any more.  [_attributePriority] is a Map: every
    key occurs in it once. *)
Theorem low_priority_respects_normal
    (surrounding : LiveSelection.t → list (string * Value))
    (s : LiveSelection.t) (key : string) :
  NoDup (LiveSelection._attributePriority s).*1 →
  JSMap.get key (LiveSelection._attributePriority s) = Some LiveSelection.normal →
  (∀ value, LiveSelection._setAttribute key value false s = (false, s))
  ∧ LiveSelection._removeAttribute key false s = (false, s)
  ∧ (LiveSelection.getAttribute key (LiveSelection._updateAttributes surrounding false s)
     = LiveSelection.getAttribute key s
     ∧ JSMap.get key
         (LiveSelection._attributePriority
            (LiveSelection._updateAttributes surrounding false s))
       = Some LiveSelection.normal)
  ∧ (∀ k, JSMap.get k
            (LiveSelection._attributePriority
               (LiveSelection._updateAttributes surrounding true s))
          ≠ Some LiveSelection.normal).
Proof.
  intros Hnodup Hnormal.
  split; [by intros; apply _setAttribute_low_blocked|].
  split; [by apply _removeAttribute_low_blocked|].
  split.
  - assert (keepsNormal key (LiveSelection.getAttribute key s) s) as Hkeeps by done.
    apply (dropLowPriority_keeps _ _ _ Hnodup) in Hkeeps.
    apply (_setAttributesTo_low_keeps _ _
             (JSMap.toMap (surrounding s))) in Hkeeps.
    unfold LiveSelection._updateAttributes. simpl.
    destruct (Nat.ltb 0 _); apply Hkeeps.
  - assert (allLow (LiveSelection.setAttrs [] (LiveSelection.setAttributePriority [] s)))
      as Hlow by (by intros k).
    apply (_setAttributesTo_low_allLow (JSMap.toMap (surrounding s))) in Hlow.
    unfold LiveSelection._updateAttributes. simpl.
    destruct (Nat.ltb 0 _); apply Hlow.
Qed.

Lemma low_priority_respects_normal_witness :
  (∀ value, LiveSelection._setAttribute "bold" value false boldSelection
            = (false, boldSelection))
  ∧ LiveSelection._removeAttribute "bold" false boldSelection = (false, boldSelection)
  ∧ (LiveSelection.getAttribute "bold"
       (LiveSelection._updateAttributes italicAround false boldSelection)
     = LiveSelection.getAttribute "bold" boldSelection
     ∧ JSMap.get "bold"
         (LiveSelection._attributePriority
            (LiveSelection._updateAttributes italicAround false boldSelection))
       = Some LiveSelection.normal)
  ∧ (∀ k, JSMap.get k
            (LiveSelection._attributePriority
               (LiveSelection._updateAttributes italicAround true boldSelection))
          ≠ Some LiveSelection.normal).
Proof.
  apply (low_priority_respects_normal italicAround boldSelection "bold").
  - simpl. apply NoDup_singleton.
  - reflexivity.
Defined.

(** ** LiveSelection: what the attribute methods leave alone *)

Section AttributeFrame.

Import LiveSelection.


Lemma _setAttribute_frame s0 key value directChange s :
  sameOutsideAttributes s0 s →
  sameOutsideAttributes s0 (_setAttribute key value directChange s).2.
Proof.
  intros Hsame. unfold _setAttribute.
  destruct (_ && _); [done|]. by destruct (bool_decide _).
Qed.

Lemma _removeAttribute_frame s0 key directChange s :
  sameOutsideAttributes s0 s →
  sameOutsideAttributes s0 (_removeAttribute key directChange s).2.
Proof.
  intros Hsame. unfold _removeAttribute.
  destruct (_ && _); [done|]. by destruct (negb _).
Qed.

Lemma _setAttributesTo_frame s0 attrs directChange s :
  sameOutsideAttributes s0 s →
  sameOutsideAttributes s0 (_setAttributesTo attrs directChange s).2.
Proof.
  intros Hsame. unfold _setAttributesTo.
  apply (foldl_invariant (λ acc, sameOutsideAttributes s0 acc.2)).
  - apply (foldl_invariant (λ acc, sameOutsideAttributes s0 acc.2)); [done|].
    intros [changed s'] [oldKey oldValue] _ Hacc. simpl in *.
    destruct (bool_decide _); [done|].
    pose proof (_removeAttribute_frame s0 oldKey directChange s' Hacc) as Hstep.
    by destruct (_removeAttribute oldKey directChange s').
  - intros [changed s'] [key value] _ Hacc. simpl in *.
    pose proof (_setAttribute_frame s0 key value directChange s' Hacc) as Hstep.
    by destruct (_setAttribute key value directChange s').
Qed.

Lemma dropLowPriority_frame s : sameOutsideAttributes s (dropLowPriority s).
Proof.
  unfold dropLowPriority.
  apply (foldl_invariant (sameOutsideAttributes s)); [done|].
  intros s' entry _ Hacc. by destruct (bool_decide _).
Qed.

(** [_updateAttributes] touches neither the ranges nor the document,
    and adds at most its [change:attribute] event to the effects. *)
Lemma _updateAttributes_frame surrounding clearAll s :
  _document (_updateAttributes surrounding clearAll s) = _document s
  ∧ _ranges (_updateAttributes surrounding clearAll s) = _ranges s
  ∧ _lastRangeBackward (_updateAttributes surrounding clearAll s) = _lastRangeBackward s
  ∧ ∃ fired, effects (_updateAttributes surrounding clearAll s) = effects s ++ fired.
Proof.
  unfold _updateAttributes.
  set (s1 := if clearAll then _ else _).
  assert (sameOutsideAttributes s s1) as Hs1.
  { subst s1. destruct clearAll; [done | apply dropLowPriority_frame]. }
  apply (_setAttributesTo_frame s (JSMap.toMap (surrounding s)) false) in Hs1
    as (Hdoc & Hranges & Hlast & Heffects).
  destruct (Nat.ltb 0 _); simpl; rewrite Hdoc, Hranges, Hlast, Heffects.
  - repeat split. by eexists.
  - repeat split. exists []. by rewrite app_nil_r.
Qed.

End AttributeFrame.

(** ** LiveSelection: ranges *)

Section SelectionRanges.

Import LiveSelection.

Variable surrounding : t → list (string * Value).
Variable checkRange : list Range.t → Range.t → option Exception.

(** The loop of [removeAllRanges] empties the array when it has fuel
    for every range, and never throws. *)
Lemma _removeAllRanges_empties (fuel : nat) s :
  (length (_ranges s) ≤ fuel)%nat →
  ∃ s', _removeAllRanges fuel s = (Ok (), s')
        ∧ _ranges s' = [] ∧ _document s' = _document s
        ∧ _attrs s' = _attrs s ∧ _attributePriority s' = _attributePriority s.
Proof.
  revert s. induction fuel as [|fuel IH]; intros s Hfuel.
  - exists s. destruct (_ranges s) eqn:Hranges; [done|simpl in Hfuel; lia].
  - simpl. destruct (Nat.ltb_spec 0 (length (_ranges s))) as [Hsome|Hnone].
    + unfold bind, _popRange, _removeRangeAtIndex.
      replace (Z.of_nat (length (_ranges s)) - 1 <? 0)%Z with false
        by (symmetry; apply Z.ltb_ge; lia).
      rewrite Z.min_l by lia.
      replace (Z.to_nat (Z.of_nat (length (_ranges s)) - 1))
        with (length (_ranges s) - 1) by lia.
      destruct (lookup_lt_is_Some_2 (_ranges s) (length (_ranges s) - 1))
        as [range Hrange]; [lia|].
      rewrite Hrange.
      destruct (IH (emit (Detach range)
                      (setRangesField (delete (length (_ranges s) - 1) (_ranges s)) s)))
        as (s' & Hrun & Hempty & Hdoc & Hattrs & Hprio).
      { simpl. rewrite length_delete by (by eexists). lia. }
      exists s'. by rewrite Hrun.
    + exists s. split; [done|]. split; [|done].
      destruct (_ranges s); [done|simpl in Hnone; lia].
Qed.

Lemma removeAllRanges_default s :
  ∃ s', removeAllRanges surrounding s = (Ok (), s')
        ∧ _ranges s' = [] ∧ _document s' = _document s.
Proof.
  unfold removeAllRanges, Selection_removeAllRanges, bind, modify, refreshAttributes.
  destruct (Nat.ltb_spec 0 (length (_ranges s))) as [Hsome|Hnone].
  - destruct (_removeAllRanges_empties (length (_ranges s)) s)
      as (s' & -> & Hempty & Hdoc & _); [done|].
    eexists. split; [done|].
    destruct (_updateAttributes_frame surrounding true
                (emit (Fire "change:range" true []) s')) as (-> & -> & _).
    done.
  - eexists. split; [done|].
    destruct (_updateAttributes_frame surrounding true s) as (-> & -> & _).
    split; [|done]. destruct (_ranges s); [done|simpl in Hnone; lia].
Qed.

Lemma addRange_document range isBackward s :
  _document (addRange surrounding checkRange range isBackward s).2 = _document s.
Proof.
  unfold addRange, Selection_addRange, _pushRange, _prepareRange, bind, modify,
    refreshAttributes, ret, throw.
  destruct range as [range|]; [|done].
  destruct (String.eqb _ _); simpl.
  - by destruct (_updateAttributes_frame surrounding true
                   (emit (Fire "change:range" true [])
                      (setLastRangeBackward isBackward (emit (Warn rangeInGraveyard) s))))
      as (-> & _).
  - destruct (checkRange _ _); [done|]. simpl.
    by destruct (_updateAttributes_frame surrounding true
                   (emit (Fire "change:range" true [])
                      (setLastRangeBackward isBackward
                         (setRangesField (_ranges s ++ [Range.createFromRange range]) s))))
      as (-> & _).
Qed.

End SelectionRanges.

(** C7: a LiveSelection without ranges of its own has [rangeCount] 1
    and [getRanges] yields one range, the default range of the document;
    when a range is added to it (the range is taken when it is outside
    the graveyard and passes [_checkRange], and is then the one range of
    the selection) and all ranges are removed, [removeAllRanges] returns
    normally and the selection is again without ranges of its own:
    [rangeCount] is 1 and [getRanges] yields the default range. *)
Theorem default_range_state
    (surrounding : LiveSelection.t → list (string * Value))
    (checkRange : list Range.t → Range.t → option Exception)
    (s : LiveSelection.t) (added : LiveSelection.Argument) (isBackward : bool) :
  LiveSelection._ranges s = [] →
  LiveSelection.rangeCount s = 1
  ∧ LiveSelection.getRanges s
    = [LiveSelection._getDefaultRange (LiveSelection._document s)]
  ∧ (∀ range,
       added = LiveSelection.IsRange range →
       Range.root range ≠ LiveSelection.graveyard (LiveSelection._document s) →
       checkRange [] range = None →
       LiveSelection.getRanges
         (LiveSelection.addRange surrounding checkRange added isBackward s).2
       = [range])
  ∧ ∃ s',
      LiveSelection.removeAllRanges surrounding
        (LiveSelection.addRange surrounding checkRange added isBackward s).2
      = (Ok (), s')
      ∧ LiveSelection._ranges s' = []
      ∧ LiveSelection.rangeCount s' = 1
      ∧ LiveSelection.getRanges s'
        = [LiveSelection._getDefaultRange (LiveSelection._document s)].
Proof.
  intros Hnone.
  split; [by unfold LiveSelection.rangeCount; rewrite Hnone|].
  split; [by unfold LiveSelection.getRanges; rewrite Hnone|].
  split.
  - intros range -> Hroot Hcheck.
    apply String.eqb_neq in Hroot.
    unfold LiveSelection.addRange, LiveSelection.Selection_addRange,
      LiveSelection._pushRange, LiveSelection._prepareRange, LiveSelection.bind,
      LiveSelection.modify, LiveSelection.refreshAttributes.
    rewrite Hroot, Hnone, Hcheck. simpl.
    unfold LiveSelection.getRanges, LiveSelection.Selection_getRanges.
    repeat match goal with
    | |- context [LiveSelection._ranges
                    (LiveSelection._updateAttributes surrounding true ?x)] =>
        rewrite (proj1 (proj2 (_updateAttributes_frame surrounding true x)))
    end.
    simpl. rewrite ?Hnone. simpl. by rewrite !createFromRange_id.
  - destruct (removeAllRanges_default surrounding
                (LiveSelection.addRange surrounding checkRange added isBackward s).2)
      as (s' & Hrun & Hempty & Hdoc).
    exists s'. split; [done|]. split; [done|].
    rewrite addRange_document in Hdoc.
    unfold LiveSelection.rangeCount, LiveSelection.getRanges.
    by rewrite Hempty, Hdoc.
Qed.

Lemma default_range_state_witness :
  LiveSelection.rangeCount boldSelection = 1
  ∧ LiveSelection.getRanges boldSelection = [flatRange 0 0]
  ∧ (∀ range,
       LiveSelection.IsRange (flatRange 2 5) = LiveSelection.IsRange range →
       Range.root range ≠ "$graveyard" →
       neverIntersects [] range = None →
       LiveSelection.getRanges
         (LiveSelection.addRange italicAround neverIntersects
            (LiveSelection.IsRange (flatRange 2 5)) false boldSelection).2
       = [range])
  ∧ ∃ s',
      LiveSelection.removeAllRanges italicAround
        (LiveSelection.addRange italicAround neverIntersects
           (LiveSelection.IsRange (flatRange 2 5)) false boldSelection).2
      = (Ok (), s')
      ∧ LiveSelection._ranges s' = []
      ∧ LiveSelection.rangeCount s' = 1
      ∧ LiveSelection.getRanges s' = [flatRange 0 0].
Proof.
  apply (default_range_state italicAround neverIntersects boldSelection
           (LiveSelection.IsRange (flatRange 2 5)) false).
  reflexivity.
Defined.

(** C9: [_pushRange] with a range in the graveyard root returns
    normally; it has logged one warning and changed nothing in the
    selection, whose ranges are as before.  Through [addRange] the call
    returns normally as well, with the same ranges and the warning
    logged.  With an argument that is not a Range, both throw
    [model-selection-added-not-range] and leave the selection as it
    was. *)
Theorem graveyard_range_rejected
    (surrounding : LiveSelection.t → list (string * Value))
    (checkRange : list Range.t → Range.t → option Exception)
    (s : LiveSelection.t) (range : Range.t) (isBackward : bool) :
  Range.root range = LiveSelection.graveyard (LiveSelection._document s) →
  (∃ s',
     LiveSelection._pushRange checkRange (LiveSelection.IsRange range) s = (Ok (), s')
     ∧ LiveSelection.effects s'
       = LiveSelection.effects s ++ [LiveSelection.Warn LiveSelection.rangeInGraveyard]
     ∧ LiveSelection._ranges s' = LiveSelection._ranges s
     ∧ LiveSelection._lastRangeBackward s' = LiveSelection._lastRangeBackward s
     ∧ LiveSelection._attrs s' = LiveSelection._attrs s
     ∧ LiveSelection._attributePriority s' = LiveSelection._attributePriority s
     ∧ LiveSelection._document s' = LiveSelection._document s)
  ∧ (∃ s',
       LiveSelection.addRange surrounding checkRange (LiveSelection.IsRange range)
         isBackward s = (Ok (), s')
       ∧ LiveSelection._ranges s' = LiveSelection._ranges s
       ∧ ∃ later,
           LiveSelection.effects s'
           = LiveSelection.effects s
             ++ LiveSelection.Warn LiveSelection.rangeInGraveyard :: later)
  ∧ LiveSelection._pushRange checkRange LiveSelection.NotRange s
    = (Throw LiveSelection.addedNotRange, s)
  ∧ LiveSelection.addRange surrounding checkRange LiveSelection.NotRange isBackward s
    = (Throw LiveSelection.addedNotRange, s).
Proof.
  intros Hroot. apply String.eqb_eq in Hroot.
  split; [|split; [|done]].
  - unfold LiveSelection._pushRange, LiveSelection._prepareRange, LiveSelection.bind.
    rewrite Hroot. simpl. eexists. split; [done|]. by repeat split.
  - unfold LiveSelection.addRange, LiveSelection.Selection_addRange,
      LiveSelection._pushRange, LiveSelection._prepareRange, LiveSelection.bind,
      LiveSelection.modify, LiveSelection.refreshAttributes.
    rewrite Hroot. simpl. eexists. split; [done|].
    match goal with
    | |- context [LiveSelection._updateAttributes surrounding true ?x] =>
        destruct (_updateAttributes_frame surrounding true x)
          as (_ & -> & _ & fired & ->)
    end.
    split; [done|]. simpl.
    exists (LiveSelection.Fire "change:range" true [] :: fired).
    by rewrite <- !app_assoc.
Qed.

Lemma graveyard_range_rejected_witness :
  (∃ s',
     LiveSelection._pushRange neverIntersects (LiveSelection.IsRange graveyardRange)
       boldSelection = (Ok (), s')
     ∧ LiveSelection.effects s'
       = LiveSelection.effects boldSelection
         ++ [LiveSelection.Warn LiveSelection.rangeInGraveyard]
     ∧ LiveSelection._ranges s' = LiveSelection._ranges boldSelection
     ∧ LiveSelection._lastRangeBackward s' = LiveSelection._lastRangeBackward boldSelection
     ∧ LiveSelection._attrs s' = LiveSelection._attrs boldSelection
     ∧ LiveSelection._attributePriority s' = LiveSelection._attributePriority boldSelection
     ∧ LiveSelection._document s' = LiveSelection._document boldSelection)
  ∧ (∃ s',
       LiveSelection.addRange italicAround neverIntersects
         (LiveSelection.IsRange graveyardRange) true boldSelection = (Ok (), s')
       ∧ LiveSelection._ranges s' = LiveSelection._ranges boldSelection
       ∧ ∃ later,
           LiveSelection.effects s'
           = LiveSelection.effects boldSelection
             ++ LiveSelection.Warn LiveSelection.rangeInGraveyard :: later)
  ∧ LiveSelection._pushRange neverIntersects LiveSelection.NotRange boldSelection
    = (Throw LiveSelection.addedNotRange, boldSelection)
  ∧ LiveSelection.addRange italicAround neverIntersects LiveSelection.NotRange true
      boldSelection
    = (Throw LiveSelection.addedNotRange, boldSelection).
Proof.
  apply (graveyard_range_rejected italicAround neverIntersects boldSelection
           graveyardRange true).
  reflexivity.
Defined.

(** ** The Range constructor makes its own positions *)

Section Copies.

Import Store.

Lemma readPosition_Some h p position :
  readPosition h p = Some position →
  ∃ object, positions h !! p = Some object
            ∧ arrays h !! path object = Some (Position.path position)
            ∧ root object = Position.root position.
Proof.
  unfold readPosition. destruct (positions h !! p) as [object|]; [|done].
  destruct (arrays h !! path object) as [segments|] eqn:Harray; [|done].
  intros [= <-]. exists object. by repeat split.
Qed.

(** The copy is allocated behind every object that exists. *)
Lemma createFromPosition_allocates h p position :
  readPosition h p = Some position →
  createFromPosition p h
  = (Ok (length (positions h)),
     mk (positions h ++ [mkPosition (Position.root position) (length (arrays h))])
        (arrays h ++ [Position.path position])).
Proof.
  intros Hread. apply readPosition_Some in Hread as (object & Hobject & Harray & Hroot).
  unfold createFromPosition. by rewrite Hobject, Harray, Hroot.
Qed.

Lemma readPosition_grows h more moreArrays p position :
  readPosition h p = Some position →
  readPosition (mk (positions h ++ more) (arrays h ++ moreArrays)) p = Some position.
Proof.
  intros Hread. destruct (readPosition_Some _ _ _ Hread) as (object & Hobject & Harray & Hroot).
  unfold readPosition in *. simpl.
  rewrite (lookup_app_l_Some _ _ _ _ Hobject), (lookup_app_l_Some _ _ _ _ Harray).
  by rewrite Hobject, Harray in Hread.
Qed.

Lemma readPosition_allocated h name segments :
  readPosition
    (mk (positions h ++ [mkPosition name (length (arrays h))]) (arrays h ++ [segments]))
    (length (positions h))
  = Some (Position.mk name segments).
Proof.
  unfold readPosition. simpl.
  rewrite lookup_app_r, Nat.sub_diag by done. simpl.
  by rewrite lookup_app_r, Nat.sub_diag by done.
Qed.

Lemma readPosition_assignPosition h p object q :
  p ≠ q → readPosition (assignPosition p object h) q = readPosition h q.
Proof.
  intros Hne. unfold readPosition, assignPosition. simpl.
  by rewrite list_lookup_insert_ne.
Qed.

Lemma readPosition_assignArray h a segments q object :
  positions h !! q = Some object → path object ≠ a →
  readPosition (assignArray a segments h) q = readPosition h q.
Proof.
  intros Hobject Hne. unfold readPosition, assignArray. simpl.
  rewrite Hobject. by rewrite list_lookup_insert_ne.
Qed.

End Copies.

(** C10: [new Range( p )] with the end omitted is a collapsed range
    whose start and end are equal to [p]; with or without an end, the
    boundaries of the new range are objects (and path arrays) of its
    own: whatever is assigned afterwards to an object or an array that
    existed before the call, the positions passed in among them, the
    range reads the same. *)
Theorem Range_constructor_copies (h : Store.t) (start : nat) (end_ : option nat)
    (position : Position.t) :
  Store.readPosition h start = Some position →
  (∀ e, end_ = Some e → is_Some (Store.readPosition h e)) →
  ∃ r h',
    Store.newRange start end_ h = (Ok r, h')
    ∧ Store.readRange h' r = Some (Range.new position (end_ ≫= Store.readPosition h))
    ∧ (end_ = None →
       Range.start (Range.new position None) = position
       ∧ Range.end_ (Range.new position None) = position
       ∧ Range.isCollapsed (Range.new position None) = true)
    ∧ (∀ p object, p < length (Store.positions h) →
         Store.readRange (Store.assignPosition p object h') r = Store.readRange h' r)
    ∧ (∀ a segments, a < length (Store.arrays h) →
         Store.readRange (Store.assignArray a segments h') r = Store.readRange h' r)
    ∧ (∀ p value object,
         Store.readPosition h p = Some value → Store.positions h !! p = Some object →
         p < length (Store.positions h) ∧ Store.path object < length (Store.arrays h)).
Proof.
  intros Hstart Hend.
  set (source := match end_ with Some e => e | None => start end).
  assert (∃ value, Store.readPosition h source = Some value
                   ∧ Range.new position (end_ ≫= Store.readPosition h)
                     = Range.mk position value) as (value & Hsource & Hnew).
  { subst source. destruct end_ as [e|]; simpl.
    - destruct (Hend e eq_refl) as [value Hvalue]. exists value. rewrite Hvalue.
      split; [done|]. unfold Range.new. by rewrite !createFromPosition_id.
    - exists position. split; [done|]. unfold Range.new. by rewrite !createFromPosition_id. }
  set (h1 := Store.mk
               (Store.positions h
                  ++ [Store.mkPosition (Position.root position) (length (Store.arrays h))])
               (Store.arrays h ++ [Position.path position])).
  set (h2 := Store.mk
               (Store.positions h1
                  ++ [Store.mkPosition (Position.root value) (length (Store.arrays h1))])
               (Store.arrays h1 ++ [Position.path value])).
  exists (Store.mkRange (length (Store.positions h)) (length (Store.positions h1))), h2.
  assert (Store.readPosition h1 (length (Store.positions h)) = Some position) as Hread1.
  { subst h1. rewrite readPosition_allocated. by destruct position. }
  assert (Store.readPosition h2 (length (Store.positions h)) = Some position) as Hread1'.
  { by apply readPosition_grows. }
  assert (Store.readPosition h2 (length (Store.positions h1)) = Some value) as Hread2.
  { subst h2. rewrite readPosition_allocated. by destruct value. }
  assert (length (Store.positions h1) = S (length (Store.positions h))) as Hlen1.
  { subst h1. simpl. rewrite length_app. simpl. lia. }
  assert (length (Store.arrays h1) = S (length (Store.arrays h))) as Hlen1a.
  { subst h1. simpl. rewrite length_app. simpl. lia. }
  assert (Store.positions h2 !! length (Store.positions h)
          = Some (Store.mkPosition (Position.root position) (length (Store.arrays h))))
    as Hobject1.
  { subst h2 h1. simpl. rewrite <- app_assoc. by rewrite lookup_app_r, Nat.sub_diag. }
  assert (Store.positions h2 !! length (Store.positions h1)
          = Some (Store.mkPosition (Position.root value) (length (Store.arrays h1))))
    as Hobject2.
  { subst h2. simpl. by rewrite lookup_app_r, Nat.sub_diag. }
  split; [|split; [|split; [|split; [|split]]]].
  - unfold Store.newRange. rewrite (createFromPosition_allocates _ _ _ Hstart).
    fold h1. fold source.
    rewrite (createFromPosition_allocates h1 source value); [done|].
    by apply readPosition_grows.
  - unfold Store.readRange. cbn [Store.start Store.end_].
    by rewrite Hread1', Hread2, Hnew.
  - intros ->. unfold Range.new, Range.isCollapsed. simpl.
    by rewrite !createFromPosition_id, isEqual_refl.
  - intros p object Hold. unfold Store.readRange. cbn [Store.start Store.end_].
    rewrite !readPosition_assignPosition; [done|lia|lia].
  - intros a segments Hold. unfold Store.readRange. cbn [Store.start Store.end_].
    rewrite (readPosition_assignArray _ _ _ _ _ Hobject1)
      by (cbn [Store.path]; lia).
    by rewrite (readPosition_assignArray _ _ _ _ _ Hobject2)
      by (cbn [Store.path]; lia).
  - intros p value' object Hread Hobject.
    apply readPosition_Some in Hread as (object' & Hobject' & Harray & _).
    rewrite Hobject in Hobject'. injection Hobject' as <-.
    split; by eapply lookup_lt_Some.
Qed.

Lemma Range_constructor_copies_witness :
  ∃ r h',
    Store.newRange 0 None onePosition = (Ok r, h')
    ∧ Store.readRange h' r = Some (Range.new (flatPosition 4) None)
    ∧ (@None nat = None →
       Range.start (Range.new (flatPosition 4) None) = flatPosition 4
       ∧ Range.end_ (Range.new (flatPosition 4) None) = flatPosition 4
       ∧ Range.isCollapsed (Range.new (flatPosition 4) None) = true)
    ∧ (∀ p object, p < length (Store.positions onePosition) →
         Store.readRange (Store.assignPosition p object h') r = Store.readRange h' r)
    ∧ (∀ a segments, a < length (Store.arrays onePosition) →
         Store.readRange (Store.assignArray a segments h') r = Store.readRange h' r)
    ∧ (∀ p value object,
         Store.readPosition onePosition p = Some value →
         Store.positions onePosition !! p = Some object →
         p < length (Store.positions onePosition)
         ∧ Store.path object < length (Store.arrays onePosition)).
Proof.
  apply (Range_constructor_copies onePosition 0 None (flatPosition 4)).
  - reflexivity.
  - intros e He. discriminate He.
Defined.

(** * Further properties *)

(** ** The order of positions, continued *)

Section PositionOrderMore.

Import Position.

Lemma compareArraysFrom_differAt i a b j :
  compareArraysFrom i a b = differAt j →
  (i ≤ j)%nat ∧ ∃ x y, a !! (j - i) = Some x ∧ b !! (j - i) = Some y ∧ x ≠ y.
Proof.
  revert i b. induction a as [|x a IH]; intros i [|y b]; simpl; try done.
  destruct (Nat.eqb_spec x y) as [->|Hne].
  - intros Hrec. destruct (IH _ _ Hrec) as (Hle & x' & y' & Hx & Hy & Hdiff).
    split; [lia|]. exists x', y'.
    replace (j - i) with (S (j - S i)) by lia. done.
  - intros [= <-]. split; [done|]. exists x, y. by rewrite Nat.sub_diag.
Qed.

Lemma compareArraysFrom_same i a b : compareArraysFrom i a b = same → a = b.
Proof.
  revert i b. induction a as [|x a IH]; intros i [|y b]; simpl; try done.
  destruct (Nat.eqb_spec x y) as [->|Hne]; [|done].
  intros Hrec. f_equal. by eapply IH.
Qed.

Lemma isAfter_isBefore p q : isAfter p q = true → isBefore q p = true.
Proof.
  unfold isBefore, isAfter, compareWith, compareArrays.
  rewrite (String.eqb_sym (root q) (root p)).
  destruct (String.eqb (root p) (root q)); simpl; [|done].
  rewrite (compareArraysFrom_swap 0 (path p) (path q)).
  destruct (compareArraysFrom 0 (path p) (path q)) as [| | |j] eqn:Hcompare; try done.
  apply compareArraysFrom_differAt in Hcompare as (_ & x & y & Hx & Hy & Hne).
  rewrite Nat.sub_0_r in Hx, Hy. rewrite Hx, Hy. simpl.
  destruct (Nat.ltb_spec x y) as [Hlt|Hge]; [done|]. intros _.
  destruct (Nat.ltb_spec y x); [done | lia].
Qed.

(** [p.isBefore( q )] and [q.isAfter( p )] are the same test. *)
Lemma isBefore_swap p q : isBefore p q = isAfter q p.
Proof.
  destruct (isBefore p q) eqn:Hbefore.
  - symmetry. by apply isBefore_isAfter.
  - destruct (isAfter q p) eqn:Hafter; [|done].
    apply isAfter_isBefore in Hafter. congruence.
Qed.

Lemma isAfter_asym p q : isAfter p q = true → isAfter q p = false.
Proof. intros Hafter. apply isBefore_not_isAfter. by apply isAfter_isBefore. Qed.

(** Positions of one root are before, after or equal to each other. *)
Lemma compareWith_same_root p q :
  root p = root q →
  isAfter p q = true ∨ isAfter q p = true ∨ p = q.
Proof.
  intros Hroot. rewrite <- (isBefore_swap p q).
  unfold isAfter, isBefore, compareWith, compareArrays.
  rewrite Hroot, String.eqb_refl. simpl.
  destruct (compareArraysFrom 0 (path p) (path q)) as [| | |j] eqn:Hcompare; eauto.
  - right. right. apply compareArraysFrom_same in Hcompare.
    destruct p, q; simpl in *; congruence.
  - destruct (Nat.ltb _ _); eauto.
Qed.

Lemma isBefore_same_root p q : isBefore p q = true → root p = root q.
Proof.
  unfold isBefore, compareWith.
  destruct (String.eqb_spec (root p) (root q)); [done|]. simpl. done.
Qed.

End PositionOrderMore.

(** ** Intersection and difference of ranges *)

Lemma isIntersecting_swap (a b : Range.t) :
  Range.isIntersecting a b = Range.isIntersecting b a.
Proof.
  unfold Range.isIntersecting.
  rewrite (isBefore_swap (Range.start a)), (isBefore_swap (Range.start b)).
  apply andb_comm.
Qed.

(** X1: two ranges intersect whichever of them is asked. *)
Theorem isIntersecting_sym (a b : Range.t) :
  Range.isIntersecting a b = Range.isIntersecting b a.
Proof. apply isIntersecting_swap. Qed.

(** X2: when [other] lies strictly inside a range, the difference is the
    part before [other] followed by the part after it, and the
    intersection is [other]. *)
Theorem getDifference_strictly_inside (r other : Range.t) :
  Range.containsRange r other = true →
  Range.getDifference r other
  = [Range.mk (Range.start r) (Range.start other);
     Range.mk (Range.end_ other) (Range.end_ r)]
  ∧ Range.getIntersection r other = Some other.
Proof.
  unfold Range.containsRange. intros Hboth.
  apply andb_true_iff in Hboth as [Hstart Hend].
  assert (Range.isIntersecting r other = true) as Hint.
  { unfold Range.isIntersecting, Range.containsPosition in *.
    apply andb_true_iff in Hstart as [_ Hstart], Hend as [Hend _].
    rewrite isBefore_swap, Hend. simpl.
    by rewrite <- isBefore_swap. }
  unfold Range.getDifference, Range.getIntersection.
  rewrite Hint, Hstart, Hend. unfold Range.new.
  rewrite !createFromPosition_id. split; [done|]. by destruct other.
Qed.

Lemma getDifference_strictly_inside_witness :
  Range.getDifference (flatRange 2 9) (flatRange 4 6) = [flatRange 2 4; flatRange 6 9]
  ∧ Range.getIntersection (flatRange 2 9) (flatRange 4 6) = Some (flatRange 4 6).
Proof.
  apply (getDifference_strictly_inside (flatRange 2 9) (flatRange 4 6)). reflexivity.
Defined.

(** X3: when a range lies strictly inside [other], nothing of it is left
    in the difference, and the intersection is the range itself. *)
Theorem getDifference_strictly_covered (r other : Range.t) :
  Range.containsRange other r = true →
  Range.getDifference r other = [] ∧ Range.getIntersection r other = Some r.
Proof.
  unfold Range.containsRange, Range.containsPosition. intros Hboth.
  apply andb_true_iff in Hboth as [Hstart Hend].
  apply andb_true_iff in Hstart as [Hstart1 Hstart2], Hend as [Hend1 Hend2].
  unfold Range.getDifference, Range.getIntersection, Range.isIntersecting,
    Range.containsPosition.
  rewrite Hstart2, Hend1, (isAfter_asym _ _ Hstart1). simpl.
  rewrite (isBefore_swap (Range.end_ other)), (isAfter_asym (Range.end_ other)).
  - rewrite andb_false_r. split; [done|]. by rewrite Range_new_id.
  - by rewrite <- isBefore_swap.
Qed.

Lemma getDifference_strictly_covered_witness :
  Range.getDifference (flatRange 4 6) (flatRange 2 9) = []
  ∧ Range.getIntersection (flatRange 4 6) (flatRange 2 9) = Some (flatRange 4 6).
Proof.
  apply (getDifference_strictly_covered (flatRange 4 6) (flatRange 2 9)). reflexivity.
Defined.

(** X4: for ranges that each lie in one root, the intersection does not
    depend on which range is asked. *)
Theorem getIntersection_comm (a b : Range.t) :
  Position.root (Range.start a) = Position.root (Range.end_ a) →
  Range.getIntersection a b = Range.getIntersection b a.
Proof.
  intros Hroot. unfold Range.getIntersection.
  rewrite (isIntersecting_swap b a).
  destruct (Range.isIntersecting a b) eqn:Hint; [|done].
  unfold Range.isIntersecting in Hint. apply andb_true_iff in Hint as [Hse Hes].
  pose proof (isBefore_same_root _ _ Hse) as Hroot1.
  pose proof (isBefore_same_root _ _ (isAfter_isBefore _ _ Hes)) as Hroot2.
  unfold Range.containsPosition.
  rewrite (isAfter_isBefore _ _ Hes), andb_true_r.
  rewrite (isBefore_isAfter _ _ Hse), andb_true_l.
  rewrite Hse, andb_true_r.
  rewrite Hes, andb_true_l.
  f_equal. f_equal.
  - destruct (compareWith_same_root (Range.start b) (Range.start a)) as [H|[H|H]];
      [congruence| | |].
    + by rewrite H, (isAfter_asym _ _ H).
    + by rewrite H, (isAfter_asym _ _ H).
    + rewrite H. by destruct (Position.isAfter _ _).
  - f_equal. rewrite !(isBefore_swap _ (Range.end_ _)).
    destruct (compareWith_same_root (Range.end_ b) (Range.end_ a)) as [H|[H|H]];
      [congruence| | |].
    + by rewrite H, (isAfter_asym _ _ H).
    + by rewrite H, (isAfter_asym _ _ H).
    + rewrite H. by destruct (Position.isAfter _ _).
Qed.

Lemma getIntersection_comm_witness :
  Range.getIntersection (flatRange 2 6) (flatRange 4 9)
  = Range.getIntersection (flatRange 4 9) (flatRange 2 6).
Proof. apply (getIntersection_comm (flatRange 2 6) (flatRange 4 9)). reflexivity. Defined.

(** ** Transformation by deltas: what a range becomes *)

Lemma mapResult_singleton {A B} (f : A → Result B) (a : A) (b : B) :
  f a = Ok b → mapResult f [a] = Ok [b].
Proof. intros Hf. simpl. by rewrite Hf. Qed.

(** A range transformed by an insertion that is not spread is one
    range. *)
Lemma _getTransformedByInsertion_single r insertPosition howMany isSticky :
  ∃ r', Range._getTransformedByInsertion r insertPosition howMany false isSticky = [r'].
Proof. unfold Range._getTransformedByInsertion. simpl. by eexists. Qed.

Lemma _getTransformedByInsertion_nonempty r insertPosition howMany spread isSticky :
  Range._getTransformedByInsertion r insertPosition howMany spread isSticky ≠ [].
Proof. unfold Range._getTransformedByInsertion. by destruct (_ && _). Qed.

Lemma _getTransformedByMove_nonempty r sourcePosition targetPosition howMany :
  Range._getTransformedByMove r sourcePosition targetPosition howMany ≠ [].
Proof.
  unfold Range._getTransformedByMove.
  destruct (Range.isCollapsed r); [done|].
  unfold Range.getDifference, Range.getIntersection.
  destruct (Range.isIntersecting r _).
  - intros Hempty. apply app_eq_nil in Hempty as [_ Hcommon]. discriminate Hcommon.
  - by simpl.
Qed.

Lemma mapResult_concat_nonempty {A B} (f : A → Result (list B)) (l : list A) results :
  l ≠ [] → (∀ a bs, f a = Ok bs → bs ≠ []) →
  mapResult f l = Ok results → concat results ≠ [].
Proof.
  destruct l as [|a l]; [done|]. intros _ Hf. simpl.
  destruct (f a) as [e|bs] eqn:Hfa; [done|]. simpl.
  destruct (mapResult f l) as [e|rest]; [done|]. simpl.
  intros [= <-]. simpl. intros Hempty. apply app_eq_nil in Hempty as [-> _].
  by eapply Hf.
Qed.

Lemma transformByOperation_nonempty op ranges ranges' :
  ranges ≠ [] → Range.transformByOperation op ranges = Ok ranges' → ranges' ≠ [].
Proof.
  intros Hne. unfold Range.transformByOperation.
  destruct (bool_decide _); [|by intros [= <-]].
  destruct (mapResult _ ranges) as [e|results] eqn:Hmap; [done|]. simpl.
  intros [= <-]. eapply mapResult_concat_nonempty; [done| |exact Hmap].
  intros range bs. simpl.
  destruct (Range.targetOrPosition op) as [target|]; [|done].
  destruct (Range.howManyOrMaxOffset op) as [e|howMany]; [done|]. simpl.
  unfold Range._getTransformedByDocumentChange.
  destruct (String.eqb _ _).
  - intros [= <-]. apply _getTransformedByInsertion_nonempty.
  - destruct (Range.sourceOf op); [|done].
    intros [= <-]. apply _getTransformedByMove_nonempty.
Qed.

Lemma transformByOperations_nonempty ops ranges ranges' :
  ranges ≠ [] → Range.transformByOperations ops ranges = Ok ranges' → ranges' ≠ [].
Proof.
  revert ranges. induction ops as [|op ops IH]; intros ranges Hne; simpl.
  - by intros [= <-].
  - destruct (Range.transformByOperation op ranges) as [e|next] eqn:Hop; [done|]. simpl.
    apply IH. by eapply transformByOperation_nonempty.
Qed.

(** X5: a range never vanishes under a delta: when [getTransformedByDelta]
    returns, the array holds at least one range. *)
Theorem getTransformedByDelta_nonempty (r : Range.t) (delta : Delta.t)
    (ranges : list Range.t) :
  Range.getTransformedByDelta r delta = Ok ranges → ranges ≠ [].
Proof. by apply transformByOperations_nonempty. Qed.

Lemma getTransformedByDelta_nonempty_witness :
  [flatRange 0 2; flatRange 4 10; flatRange 2 4] ≠ [].
Proof.
  apply (getTransformedByDelta_nonempty (flatRange 0 10) (moveDelta 0 6 2 2)).
  reflexivity.
Defined.

Lemma addAttribute_unsupported : "addAttribute" ∉ Range.supportedTypes.
Proof.
  unfold Range.supportedTypes. rewrite !not_elem_of_cons.
  repeat split; try discriminate. apply not_elem_of_nil.
Qed.

Lemma transformByOperations_notMove ops r :
  Forall notMove ops → ∃ r', Range.transformByOperations ops [r] = Ok [r'].
Proof.
  revert r. induction ops as [|op ops IH]; intros r Hall; simpl; [by eexists|].
  apply Forall_cons in Hall as [Hop Hall].
  assert (∃ r1, Range.transformByOperation op [r] = Ok [r1]) as [r1 ->].
  { unfold Range.transformByOperation. destruct Hop as [(p & n & v & ->)|Hother].
    - simpl. by eexists.
    - rewrite bool_decide_eq_false_2 by done. by eexists. }
  simpl. by apply IH.
Qed.

(** X6: a delta of insertions and of operations that ranges are not
    transformed by never splits a range and never throws: the result is
    one range. *)
Theorem getTransformedByDelta_notMove (r : Range.t) (delta : Delta.t) :
  Forall notMove (Delta.operations delta) →
  ∃ r', Range.getTransformedByDelta r delta = Ok [r'].
Proof. apply transformByOperations_notMove. Qed.

Lemma getTransformedByDelta_notMove_witness :
  ∃ r', Range.getTransformedByDelta (flatRange 2 5)
          (Delta.mk [Operation.Insert (flatPosition 1) 3 0;
                     Operation.Other "addAttribute" 1]) = Ok [r'].
Proof.
  apply (getTransformedByDelta_notMove (flatRange 2 5)).
  apply Forall_cons. split; [left; by eexists _, _, _|].
  apply Forall_cons. split; [|apply Forall_nil_2].
  right. apply addAttribute_unsupported.
Defined.

Lemma transformByOperations_unsupported ops ranges :
  Forall (λ op, Operation.type op ∉ Range.supportedTypes) ops →
  Range.transformByOperations ops ranges = Ok ranges.
Proof.
  induction ops as [|op ops IH]; intros Hall; simpl; [done|].
  apply Forall_cons in Hall as [Hop Hall].
  unfold Range.transformByOperation. rewrite bool_decide_eq_false_2 by done.
  simpl. by apply IH.
Qed.

Lemma transformByDeltas_unsupported deltas r :
  Forall (λ delta, Forall (λ op, Operation.type op ∉ Range.supportedTypes)
                     (Delta.operations delta)) deltas →
  Range.transformByDeltas deltas [r] = Ok [r].
Proof.
  induction deltas as [|delta deltas IH]; intros Hall; simpl; [done|].
  apply Forall_cons in Hall as [Hdelta Hall].
  unfold Range.getTransformedByDelta.
  rewrite (transformByOperations_unsupported _ _ Hdelta). simpl.
  rewrite createFromRange_id. by apply IH.
Qed.

(** X7: deltas made only of operations that ranges are not transformed
    by (attribute, rename, no-operation, ...) leave the range as it is;
    so does the empty sequence of deltas. *)
Theorem getTransformedByDeltas_unsupported (r : Range.t) (deltas : list Delta.t) :
  Forall (λ delta, Forall (λ op, Operation.type op ∉ Range.supportedTypes)
                     (Delta.operations delta)) deltas →
  Range.getTransformedByDeltas r deltas = Ok [r].
Proof.
  intros Hall. unfold Range.getTransformedByDeltas.
  rewrite createFromRange_id, (transformByDeltas_unsupported _ _ Hall). done.
Qed.

Lemma getTransformedByDeltas_unsupported_witness :
  Range.getTransformedByDeltas (flatRange 2 5)
    [Delta.mk [Operation.Other "addAttribute" 0]; Delta.mk []]
  = Ok [flatRange 2 5].
Proof.
  apply (getTransformedByDeltas_unsupported (flatRange 2 5)).
  apply Forall_cons. split; [|apply Forall_cons; split; apply Forall_nil_2].
  apply Forall_cons. split; [|apply Forall_nil_2].
  apply addAttribute_unsupported.
Defined.

(** ** getTransformedByDeltas: what the clean-up keeps *)

Lemma head_delete_S {A} (j : nat) (l : list A) : head (delete (S j) l) = head l.
Proof. by destruct l. Qed.

(** The inner loop removes elements: what it returns is a sublist of the
    array, and the elements before index [j] stay where they are. *)
Lemma removeRelated_sublist fuel range j ranges :
  Range.removeRelated fuel range j ranges `sublist_of` ranges.
Proof.
  revert j ranges. induction fuel as [|fuel IH]; intros j ranges; simpl; [done|].
  destruct (ranges !! j) as [next|]; [|done].
  destruct (_ || _); [|apply IH].
  etransitivity; [apply IH | apply sublist_delete].
Qed.

Lemma removeRelated_head fuel range j ranges :
  head (Range.removeRelated fuel range (S j) ranges) = head ranges.
Proof.
  revert j ranges. induction fuel as [|fuel IH]; intros j ranges; simpl; [done|].
  destruct (ranges !! S j) as [next|]; [|done].
  destruct (_ || _); [|apply IH].
  by rewrite IH, head_delete_S.
Qed.

Lemma removeContained_sublist fuel i ranges :
  Range.removeContained fuel i ranges `sublist_of` ranges.
Proof.
  revert i ranges. induction fuel as [|fuel IH]; intros i ranges; simpl; [done|].
  destruct (ranges !! i) as [range|]; [|done].
  etransitivity; [apply IH | apply removeRelated_sublist].
Qed.

Lemma removeContained_head fuel i ranges :
  head (Range.removeContained fuel i ranges) = head ranges.
Proof.
  revert i ranges. induction fuel as [|fuel IH]; intros i ranges; simpl; [done|].
  destruct (ranges !! i) as [range|]; [|done].
  by rewrite IH, removeRelated_head.
Qed.

Lemma transformByDeltas_nonempty deltas ranges ranges' :
  ranges ≠ [] → Range.transformByDeltas deltas ranges = Ok ranges' → ranges' ≠ [].
Proof.
  revert ranges. induction deltas as [|delta deltas IH]; intros ranges Hne; simpl.
  - by intros [= <-].
  - destruct (mapResult _ ranges) as [e|results] eqn:Hmap; [done|]. simpl.
    apply IH. eapply mapResult_concat_nonempty; [done| |exact Hmap].
    intros range pieces. apply transformByOperations_nonempty. done.
Qed.

(** X8: a range never vanishes under deltas either: the clean-up of
    [getTransformedByDeltas] always keeps the first piece, so the array
    returned holds at least one range. *)
Theorem getTransformedByDeltas_nonempty (r : Range.t) (deltas : list Delta.t)
    (ranges : list Range.t) :
  Range.getTransformedByDeltas r deltas = Ok ranges → ranges ≠ [].
Proof.
  unfold Range.getTransformedByDeltas.
  destruct (Range.transformByDeltas deltas _) as [e|pieces] eqn:Hpieces; [done|]. simpl.
  intros [= <-] Hempty.
  apply transformByDeltas_nonempty in Hpieces; [|done].
  pose proof (removeContained_head (length pieces) 0 pieces) as Hhead.
  rewrite Hempty in Hhead. by destruct pieces.
Qed.

Lemma getTransformedByDeltas_nonempty_witness :
  [flatRange 0 10; flatRange 1 3] ≠ [].
Proof.
  apply (getTransformedByDeltas_nonempty (flatRange 0 10)
           [moveDelta 0 6 2 2; moveDelta 1 2 8 1]).
  vm_compute. reflexivity.
Defined.

(** X9: for a single delta, [getTransformedByDeltas] returns some of the
    ranges of [getTransformedByDelta], in the same order and beginning
    with the same range; it throws exactly when [getTransformedByDelta]
    throws. *)
Theorem getTransformedByDeltas_single (r : Range.t) (delta : Delta.t) :
  match Range.getTransformedByDelta r delta with
  | inl e => Range.getTransformedByDeltas r [delta] = Throw e
  | inr pieces =>
      ∃ ranges, Range.getTransformedByDeltas r [delta] = Ok ranges
                ∧ ranges `sublist_of` pieces
                ∧ head ranges = head pieces
  end.
Proof.
  unfold Range.getTransformedByDeltas. simpl. rewrite createFromRange_id.
  destruct (Range.getTransformedByDelta r delta) as [e|pieces]; simpl; [done|].
  rewrite app_nil_r. eexists. split; [done|].
  split; [apply removeContained_sublist | apply removeContained_head].
Qed.

(** ** Flat ranges *)

Section Siblings.

Import Position.

Lemma compareArraysFrom_siblings i (parent : list nat) (a b : nat) :
  compareArraysFrom i (parent ++ [a]) (parent ++ [b])
  = if Nat.eqb a b then same else differAt (i + length parent).
Proof.
  revert i. induction parent as [|x parent IH]; intros i; simpl.
  - rewrite Nat.add_0_r. by destruct (Nat.eqb a b).
  - rewrite Nat.eqb_refl, IH. destruct (Nat.eqb a b); [done|]. f_equal. lia.
Qed.

(** Two positions in one parent compare as their offsets do. *)
Lemma compareWith_siblings name (parent : list nat) (a b : nat) :
  compareWith (mk name (parent ++ [a])) (mk name (parent ++ [b]))
  = match Nat.compare a b with
    | Eq => rel_same
    | Lt => rel_before
    | Gt => rel_after
    end.
Proof.
  unfold compareWith, compareArrays. simpl.
  rewrite String.eqb_refl, compareArraysFrom_siblings. simpl.
  destruct (Nat.compare_spec a b) as [->|Hlt|Hgt].
  - by rewrite Nat.eqb_refl.
  - replace (Nat.eqb a b) with false by (symmetry; apply Nat.eqb_neq; lia).
    rewrite !list_lookup_middle by done. simpl.
    by replace (Nat.ltb a b) with true by (symmetry; apply Nat.ltb_lt; lia).
  - replace (Nat.eqb a b) with false by (symmetry; apply Nat.eqb_neq; lia).
    rewrite !list_lookup_middle by done. simpl.
    by replace (Nat.ltb a b) with false by (symmetry; apply Nat.ltb_ge; lia).
Qed.

Lemma path_parent_offset p :
  path p ≠ [] → p = mk (root p) (getParentPath p ++ [offset p]).
Proof.
  intros Hne. destruct p as [name segments]. unfold getParentPath, offset. simpl in *.
  f_equal. by apply app_removelast_last.
Qed.

Lemma getParentPath_mk name (parent : list nat) o :
  getParentPath (mk name (parent ++ [o])) = parent.
Proof. unfold getParentPath. simpl. apply removelast_last. Qed.

Lemma offset_mk name (parent : list nat) o : offset (mk name (parent ++ [o])) = o.
Proof. unfold offset. simpl. apply last_last. Qed.

Lemma getParentPath_setOffset p o : getParentPath (setOffset p o) = getParentPath p.
Proof. unfold setOffset, getParentPath at 1. simpl. apply removelast_last. Qed.

Lemma offset_setOffset p o : offset (setOffset p o) = o.
Proof. unfold setOffset, offset. simpl. apply last_last. Qed.

Lemma isEqual_eq p q : isEqual p q = true → p = q.
Proof.
  unfold isEqual, compareWith, compareArrays.
  destruct (String.eqb_spec (root p) (root q)) as [Hroot|]; simpl; [|done].
  destruct (compareArraysFrom 0 (path p) (path q)) eqn:Hcompare; try done.
  - intros _. apply compareArraysFrom_same in Hcompare.
    destruct p, q; simpl in *; congruence.
  - by destruct (Nat.ltb _ _).
Qed.

(** A position and the same position at another offset are different
    positions of one parent. *)
Lemma isEqual_setOffset p o : o ≠ offset p → isEqual p (setOffset p o) = false.
Proof.
  intros Hne. destruct (isEqual p (setOffset p o)) eqn:Hequal; [|done].
  apply isEqual_eq in Hequal. destruct Hne.
  apply (f_equal offset) in Hequal. by rewrite offset_setOffset in Hequal.
Qed.

End Siblings.

Section FlatRanges.

Variable maxOffset : list nat → nat.

(** A range from a position to the same position at another offset is
    flat and not collapsed. *)
Lemma new_setOffset_flat pos o :
  o ≠ Position.offset pos →
  Range.isFlat (Range.new pos (Some (Position.setOffset pos o))) = true
  ∧ Range.isCollapsed (Range.new pos (Some (Position.setOffset pos o))) = false.
Proof.
  intros Hne. unfold Range.isFlat, Range.isCollapsed, Range.new.
  rewrite !createFromPosition_id. cbn [Range.start Range.end_].
  rewrite getParentPath_setOffset, (isEqual_setOffset _ _ Hne).
  split; [|done]. simpl. rewrite String.eqb_refl. by rewrite bool_decide_eq_true_2.
Qed.

Lemma pushShifted_flat ranges pos howMany :
  (0 ≤ Z.of_nat (Position.offset pos) + howMany)%Z →
  Forall (λ x, Range.isFlat x = true ∧ Range.isCollapsed x = false) ranges →
  ∃ ranges', Range.pushShifted ranges pos howMany = Some ranges'
             ∧ Forall (λ x, Range.isFlat x = true ∧ Range.isCollapsed x = false) ranges'.
Proof.
  intros Hsum Hall. unfold Range.pushShifted, Position.getShiftedByInt.
  destruct (Z.eqb_spec howMany 0) as [->|Hne]; [by eexists|].
  replace (_ <? 0)%Z with false by (symmetry; apply Z.ltb_ge; lia).
  eexists. split; [done|]. apply Forall_app. split; [done|].
  apply Forall_singleton, new_setOffset_flat. lia.
Qed.

Lemma goUp_flat fuel diffAt ranges pos :
  Forall (λ x, Range.isFlat x = true ∧ Range.isCollapsed x = false) ranges →
  ∃ ranges' pos', Range.goUp maxOffset fuel diffAt ranges pos = Some (ranges', pos')
    ∧ Forall (λ x, Range.isFlat x = true ∧ Range.isCollapsed x = false) ranges'.
Proof.
  revert ranges pos. induction fuel as [|fuel IH]; intros ranges pos Hall; simpl.
  - by eexists _, _.
  - destruct (Nat.ltb _ _); [|by eexists _, _].
    destruct (pushShifted_flat ranges pos
                (Z.of_nat (maxOffset (Position.getParentPath pos))
                 - Z.of_nat (Position.offset pos))) as (ranges' & -> & Hall');
      [lia|done|].
    by apply IH.
Qed.

Lemma goDown_flat fuel endPath ranges pos :
  Forall (λ x, Range.isFlat x = true ∧ Range.isCollapsed x = false) ranges →
  ∃ ranges', Range.goDown fuel endPath ranges pos = Some ranges'
    ∧ Forall (λ x, Range.isFlat x = true ∧ Range.isCollapsed x = false) ranges'.
Proof.
  revert ranges pos. induction fuel as [|fuel IH]; intros ranges pos Hall; simpl.
  - by eexists.
  - destruct (Nat.leb _ _); [|by eexists].
    destruct (pushShifted_flat ranges pos
                (Z.of_nat (default 0 (endPath !! (length (Position.path pos) - 1)))
                 - Z.of_nat (Position.offset pos))) as (ranges' & -> & Hall');
      [lia|done|].
    by apply IH.
Qed.

(** X10: [getMinimalFlatRanges] returns normally, whatever the range and
    the sizes of the elements, and every range it returns is flat and
    not collapsed.  The path of the start is not empty, as for every
    position of a document. *)
Theorem getMinimalFlatRanges_flat (r : Range.t) :
  Position.path (Range.start r) ≠ [] →
  ∃ ranges, Range.getMinimalFlatRanges maxOffset r = Some ranges
            ∧ Forall (λ x, Range.isFlat x = true ∧ Range.isCollapsed x = false) ranges.
Proof.
  intros _. unfold Range.getMinimalFlatRanges.
  destruct (goUp_flat (length (Position.path (Range.start r)))
              (length (Position.getCommonPath (Range.start r) (Range.end_ r)))
              [] (Position.createFromPosition (Range.start r)))
    as (ranges & pos & -> & Hall); [done|].
  by apply goDown_flat.
Qed.

Lemma commonPrefix_siblings (parent : list nat) (a b : nat) :
  Position.commonPrefix (parent ++ [a]) (parent ++ [b])
  = parent ++ (if Nat.eqb a b then [a] else []).
Proof.
  induction parent as [|x parent IH]; simpl.
  - by destruct (Nat.eqb a b).
  - by rewrite Nat.eqb_refl, IH.
Qed.

Lemma goUp_stop fuel diffAt ranges pos :
  (length (Position.path pos) ≤ diffAt + 1)%nat →
  Range.goUp maxOffset fuel diffAt ranges pos = Some (ranges, pos).
Proof.
  intros Hle. destruct fuel; simpl; [done|].
  by replace (Nat.ltb _ _) with false by (symmetry; apply Nat.ltb_ge; lia).
Qed.

Lemma goDown_stop fuel endPath ranges pos :
  (length endPath < length (Position.path pos))%nat →
  Range.goDown fuel endPath ranges pos = Some ranges.
Proof.
  intros Hlt. destruct fuel; simpl; [done|].
  by replace (Nat.leb _ _) with false by (symmetry; apply Nat.leb_gt; lia).
Qed.

(** X11: a flat range is its own minimal flat range, and a collapsed one
    has none. *)
Theorem getMinimalFlatRanges_of_flat (r : Range.t) :
  Position.path (Range.start r) ≠ [] →
  Position.path (Range.end_ r) ≠ [] →
  Range.isFlat r = true →
  Range.getMinimalFlatRanges maxOffset r
  = Some (if Range.isCollapsed r then [] else [r]).
Proof.
  intros Hstart Hend Hflat. unfold Range.isFlat in Hflat.
  apply andb_true_iff in Hflat as [Hroot Hparent].
  apply String.eqb_eq in Hroot. apply bool_decide_eq_true in Hparent.
  destruct r as [start end_]. cbn [Range.start Range.end_] in *.
  rewrite (path_parent_offset _ Hstart), (path_parent_offset _ Hend).
  rewrite <- Hroot, <- Hparent.
  set (name := Position.root start). set (parent := Position.getParentPath start).
  generalize (Position.offset start) (Position.offset end_). intros a b.
  unfold Range.getMinimalFlatRanges, Range.isCollapsed, Position.isEqual,
    Position.getCommonPath.
  rewrite createFromPosition_id.
  cbn [Range.start Range.end_ Position.root Position.path].
  rewrite compareWith_siblings, String.eqb_refl, commonPrefix_siblings.
  cbn [negb].
  rewrite goUp_stop by (cbn [Position.path]; rewrite !length_app; simpl; lia).
  cbn [Range.goDown Position.path]. rewrite !length_app. cbn [length].
  rewrite Nat.leb_refl. replace (length parent + 1 - 1) with (length parent) by lia.
  rewrite list_lookup_middle by done. cbn [default from_option id].
  unfold Range.pushShifted, Position.getShiftedByInt. rewrite !offset_mk.
  destruct (Nat.compare_spec a b) as [->|Hlt|Hgt].
  - rewrite Z.sub_diag. cbn [Z.eqb].
    apply goDown_stop. unfold Position.setOffset. cbn [Position.path].
    rewrite getParentPath_mk, !length_app. simpl. lia.
  - replace (_ =? 0)%Z with false by (symmetry; apply Z.eqb_neq; lia).
    replace (_ <? 0)%Z with false by (symmetry; apply Z.ltb_ge; lia).
    replace (Z.to_nat _) with b by lia.
    unfold Position.setOffset. rewrite getParentPath_mk.
    rewrite goDown_stop by (cbn [Position.path]; rewrite !length_app; simpl; lia).
    done.
  - replace (_ =? 0)%Z with false by (symmetry; apply Z.eqb_neq; lia).
    replace (_ <? 0)%Z with false by (symmetry; apply Z.ltb_ge; lia).
    replace (Z.to_nat _) with b by lia.
    unfold Position.setOffset. rewrite getParentPath_mk.
    rewrite goDown_stop by (cbn [Position.path]; rewrite !length_app; simpl; lia).
    done.
Qed.

End FlatRanges.

Lemma getMinimalFlatRanges_flat_witness :
  ∃ ranges,
    Range.getMinimalFlatRanges documentedSizes
      (Range.mk (Position.mk "main" [0; 0; 3]) (Position.mk "main" [3; 0; 2]))
    = Some ranges
    ∧ Forall (λ x, Range.isFlat x = true ∧ Range.isCollapsed x = false) ranges.
Proof.
  apply (getMinimalFlatRanges_flat documentedSizes
           (Range.mk (Position.mk "main" [0; 0; 3]) (Position.mk "main" [3; 0; 2]))).
  discriminate.
Defined.

(** The example of the documentation of [getMinimalFlatRanges]. *)
Example getMinimalFlatRanges_documented :
  Range.getMinimalFlatRanges documentedSizes
    (Range.mk (Position.mk "main" [0; 0; 3]) (Position.mk "main" [3; 0; 2]))
  = Some [Range.mk (Position.mk "main" [0; 0; 3]) (Position.mk "main" [0; 0; 5]);
          Range.mk (Position.mk "main" [0; 1]) (Position.mk "main" [0; 2]);
          Range.mk (Position.mk "main" [1]) (Position.mk "main" [3]);
          Range.mk (Position.mk "main" [3; 0; 0]) (Position.mk "main" [3; 0; 2])].
Proof. reflexivity. Qed.

Lemma getMinimalFlatRanges_of_flat_witness :
  Range.getMinimalFlatRanges (λ _, 7) (flatRange 2 5) = Some [flatRange 2 5].
Proof.
  apply (getMinimalFlatRanges_of_flat (λ _, 7) (flatRange 2 5));
    [done | done | reflexivity].
Defined.

(** X12: [createFromPositionAndShift] puts the two positions in order:
    for a shift that keeps the offset from becoming negative, of either
    sign, it returns a flat range whose start is not after its end; the
    position given is the start of the range for a positive shift and
    its end otherwise, and the range is collapsed exactly for the
    shift 0. *)
Theorem createFromPositionAndShift_normalized (position : Position.t) (shift : Z) :
  Position.path position ≠ [] →
  (0 ≤ Z.of_nat (Position.offset position) + shift)%Z →
  ∃ r, Range.createFromPositionAndShift position shift = Some r
       ∧ Range.isFlat r = true
       ∧ Position.isAfter (Range.start r) (Range.end_ r) = false
       ∧ (if (0 <? shift)%Z then Range.start r = position else Range.end_ r = position)
       ∧ (Range.isCollapsed r = true ↔ shift = 0%Z).
Proof.
  intros Hpath Hpos. unfold Range.createFromPositionAndShift, Position.getShiftedByInt.
  replace (_ <? 0)%Z with false by (symmetry; apply Z.ltb_ge; lia).
  eexists. split; [done|]. revert Hpos.
  rewrite (path_parent_offset _ Hpath).
  set (name := Position.root position). set (parent := Position.getParentPath position).
  rewrite offset_mk. generalize (Position.offset position).
  intros a Hpos. unfold Position.setOffset. rewrite getParentPath_mk.
  cbn [Position.root].
  unfold Range.isFlat, Range.isCollapsed, Range.new, Position.isAfter, Position.isEqual.
  destruct (Z.ltb_spec 0 shift) as [Hshift|Hshift];
    rewrite !createFromPosition_id; cbn [Range.start Range.end_ Position.root];
    rewrite !getParentPath_mk, String.eqb_refl, compareWith_siblings;
    (split; [by rewrite bool_decide_eq_true_2|]).
  - destruct (Nat.compare_spec a (Z.to_nat (Z.of_nat a + shift)));
      split; try done; try lia; split; try done; split; intros; try done; lia.
  - destruct (Nat.compare_spec (Z.to_nat (Z.of_nat a + shift)) a);
      split; try done; try lia; split; try done; split; intros; try done; lia.
Qed.

Lemma createFromPositionAndShift_normalized_witness :
  ∃ r, Range.createFromPositionAndShift (flatPosition 5) (-3) = Some r
       ∧ Range.isFlat r = true
       ∧ Position.isAfter (Range.start r) (Range.end_ r) = false
       ∧ (if (0 <? -3)%Z then Range.start r = flatPosition 5
          else Range.end_ r = flatPosition 5)
       ∧ (Range.isCollapsed r = true ↔ (-3 = 0)%Z).
Proof.
  apply (createFromPositionAndShift_normalized (flatPosition 5) (-3)); [done|].
  vm_compute. discriminate.
Defined.

(** ** createFromRanges: the sorted array *)

Section SortedRanges.

Context {A : Type}.
Variable positive : A → A → bool.

Lemma sortInsert_Permutation (element : A) (revSorted : list A) :
  Range.sortInsert positive element revSorted ≡ₚ element :: revSorted.
Proof.
  induction revSorted as [|tmp rest IH]; simpl; [done|].
  destruct (positive tmp element); [|done].
  rewrite IH. apply Permutation_swap.
Qed.

Lemma foldl_sortInsert_Permutation (a revSorted : list A) :
  foldl (λ revSorted element, Range.sortInsert positive element revSorted) revSorted a
  ≡ₚ a ++ revSorted.
Proof.
  revert revSorted. induction a as [|element a IH]; intros revSorted; simpl; [done|].
  rewrite IH, sortInsert_Permutation. by rewrite Permutation_middle.
Qed.

(** Sorting moves the elements and keeps them all. *)
Lemma insertionSort_Permutation (a : list A) : Range.insertionSort positive a ≡ₚ a.
Proof.
  unfold Range.insertionSort. rewrite <- Permutation_rev, foldl_sortInsert_Permutation.
  by rewrite app_nil_r.
Qed.

End SortedRanges.

Lemma indexOfFrom_first i identity before range after :
  identity ∉ before.*1 →
  Range.indexOfFrom i identity (before ++ (identity, range) :: after)
  = (i + Z.of_nat (length before))%Z.
Proof.
  revert i. induction before as [|[id r] before IH]; intros i Hnotin; simpl.
  - rewrite Nat.eqb_refl. lia.
  - apply not_elem_of_cons in Hnotin as [Hne Hnotin]. simpl in Hne.
    replace (Nat.eqb id identity) with false by (symmetry; apply Nat.eqb_neq; congruence).
    rewrite IH by done. lia.
Qed.

Lemma imap_tagged_snd {B} (f : nat → nat) (l : list B) :
  (imap (λ i x, (f i, x)) l).*2 = l.
Proof.
  rewrite fmap_imap. rewrite <- (list_fmap_id l) at 2.
  rewrite <- (imap_const id l). by apply imap_ext.
Qed.

(** The array that [createFromRanges] works on after sorting, on a host
    whose [sort] keeps the elements of this array: the ranges other than
    the reference range, in some order, with the reference range among
    them at [refIndex]. *)
Lemma sorted_reference
    (sort : (nat * Range.t → nat * Range.t → bool)
            → list (nat * Range.t) → list (nat * Range.t))
    (ref : Range.t) (others : list Range.t) :
  sort Range.startsAfter (Range.tagged (ref :: others)) ≡ₚ Range.tagged (ref :: others) →
  ∃ before after,
    (sort Range.startsAfter (Range.tagged (ref :: others))).*2 = before ++ ref :: after
    ∧ Range.indexOf 0 (sort Range.startsAfter (Range.tagged (ref :: others)))
      = Z.of_nat (length before)
    ∧ before ++ after ≡ₚ others.
Proof.
  set (sorted := sort _ _). intros Hperm.
  change (Range.tagged (ref :: others))
    with ((0, ref) :: imap (λ i range, (S i, range)) others) in Hperm.
  assert ((0, ref) ∈ sorted) as Hin by (rewrite Hperm; left).
  apply list_elem_of_split_l in Hin as (l1 & l2 & Hsplit & Hfirst).
  rewrite Hsplit in Hperm |- *.
  assert (0 ∉ l1.*1) as Hnotin.
  { intros Htag. apply list_elem_of_fmap in Htag as ([tag range] & Htag & Hl1).
    simpl in Htag. subst tag.
    assert ((0, range) ∈ (0, ref) :: imap (λ i range, (S i, range)) others) as Hwhere.
    { rewrite <- Hperm. apply elem_of_app. by left. }
    apply elem_of_cons in Hwhere as [[= ->]|Hwhere]; [done|].
    apply elem_of_lookup_imap_1 in Hwhere as (i & x & Heq & _). discriminate Heq. }
  exists l1.*2, l2.*2. split; [by rewrite fmap_app|]. split.
  - unfold Range.indexOf. rewrite indexOfFrom_first by done.
    rewrite length_fmap. lia.
  - symmetry in Hperm. apply Permutation_cons_app_inv in Hperm.
    rewrite <- fmap_app, <- Hperm. by rewrite (imap_tagged_snd S).
Qed.

Section CreateFromRangesMore.

Variable sort : (nat * Range.t → nat * Range.t → bool)
                → list (nat * Range.t) → list (nat * Range.t).
Variable isTouching : Position.t → Position.t → bool.

Lemma glueAfter_untouched rest result :
  (∀ range, range ∈ rest → isTouching (Range.start range) (Range.end_ result) = false) →
  Range.glueAfter isTouching rest result = result.
Proof.
  destruct rest as [|range rest]; intros Hnone; simpl; [done|].
  rewrite Hnone; [done | by left].
Qed.

(** X13: ranges that do not touch the reference range are left out,
    wherever they lie and in whatever order they are given: the result
    is a copy of the reference range.  This holds in whatever order the
    host's [sort] leaves the array; a [sort] moves the elements of an
    array and keeps them all. *)
Theorem createFromRanges_untouched (ref : Range.t) (others : list Range.t) :
  (∀ a, sort Range.startsAfter a ≡ₚ a) →
  (∀ range, range ∈ others →
     isTouching (Range.end_ range) (Range.start ref) = false
     ∧ isTouching (Range.start range) (Range.end_ ref) = false) →
  Range.createFromRanges sort isTouching (ref :: others) = Ok ref.
Proof.
  intros Hhost Hnone. destruct others as [|second rest].
  { simpl. by rewrite createFromRange_id. }
  unfold Range.createFromRanges.
  destruct (sorted_reference sort ref (second :: rest) (Hhost _))
    as (before & after & -> & -> & Hperm).
  rewrite Range_new_id.
  assert (∀ range, range ∈ before ++ after →
            isTouching (Range.end_ range) (Range.start ref) = false
            ∧ isTouching (Range.start range) (Range.end_ ref) = false) as Hnone'.
  { intros range Hin. apply Hnone. by rewrite <- Hperm. }
  assert ((if (0 <=? Z.of_nat (length before) - 1)%Z
           then Range.glueBefore isTouching
                  (drop (Z.to_nat (Z.of_nat (length before) - 1)) (before ++ ref :: after))
                  ref
           else Ok ref) = Ok ref) as ->.
  { destruct (Z.leb_spec 0 (Z.of_nat (length before) - 1)) as [Hsome|]; [|done].
    destruct before as [|x before _] using rev_ind; [simpl in Hsome; lia|].
    rewrite length_app, <- !app_assoc. simpl.
    replace (Z.to_nat _) with (length before) by lia.
    rewrite drop_app_length. simpl.
    destruct (Hnone' x) as [-> _]; [|done].
    apply elem_of_app. left. apply elem_of_app. right. by left. }
  simpl. replace (Z.to_nat _) with (length before + 1) by lia.
  rewrite <- Nat.add_1_r, <- drop_drop, drop_app_length. simpl. f_equal.
  apply glueAfter_untouched. intros range Hin. apply Hnone'.
  apply elem_of_app. by right.
Qed.

Lemma foldl_sortInsert_follows (f : nat → nat) tag previous revSorted others :
  follows isTouching previous others →
  foldl (λ revSorted element, Range.sortInsert Range.startsAfter element revSorted)
    ((tag, previous) :: revSorted) (imap (λ i range, (f i, range)) others)
  = rev (imap (λ i range, (f i, range)) others) ++ (tag, previous) :: revSorted.
Proof.
  revert f tag previous revSorted.
  induction others as [|range others IH]; intros f tag previous revSorted; simpl; [done|].
  intros (Horder & _ & Hrest).
  change (Range.startsAfter (tag, previous) (f 0, range))
    with (Position.isAfter (Range.start previous) (Range.start range)).
  rewrite Horder.
  rewrite (IH (f ∘ S) (f 0) range _ Hrest). by rewrite <- app_assoc.
Qed.

(** A host that sorts by insertion leaves an array of ranges in the
    order of the document as it was passed. *)
Lemma insertionSort_follows ref others :
  follows isTouching ref others →
  Range.insertionSort Range.startsAfter (Range.tagged (ref :: others))
  = Range.tagged (ref :: others).
Proof.
  intros Hfollows. unfold Range.insertionSort.
  change (Range.tagged (ref :: others))
    with ((0, ref) :: imap (λ i range, (S i, range)) others).
  change (foldl ?f [] ((0, ref) :: ?l)) with (foldl f [(0, ref)] l).
  rewrite (foldl_sortInsert_follows S 0 ref [] others Hfollows).
  by rewrite rev_app_distr, rev_involutive.
Qed.

Lemma last_nonempty {A} (x : A) (l : list A) (d d' : A) :
  List.last (x :: l) d = List.last (x :: l) d'.
Proof. revert x. induction l as [|y l IH]; intros x; [done|]. apply (IH y). Qed.

Lemma glueAfter_follows previous others result :
  Range.end_ result = Range.end_ previous →
  follows isTouching previous others →
  Range.glueAfter isTouching others result
  = Range.mk (Range.start result) (Range.end_ (List.last others previous)).
Proof.
  revert previous result.
  induction others as [|range others IH]; intros previous result Hend; simpl.
  - intros _. rewrite <- Hend. by destruct result.
  - intros (_ & Htouch & Hrest). rewrite Hend, Htouch.
    rewrite (IH range) by (by rewrite ?createFromPosition_id).
    simpl. f_equal. f_equal. destruct others; [done|]. apply last_nonempty.
Qed.

(** X14: ranges given in the order of the document, the reference range
    first and each touching the one before it, are combined into the
    range from the start of the first to the end of the last, on a host
    whose [sort] leaves this array as it was passed (the order of the
    sorted array is the host's). *)
Theorem createFromRanges_follows (ref : Range.t) (others : list Range.t) :
  sort Range.startsAfter (Range.tagged (ref :: others)) = Range.tagged (ref :: others) →
  follows isTouching ref others →
  Range.createFromRanges sort isTouching (ref :: others)
  = Ok (Range.mk (Range.start ref) (Range.end_ (List.last others ref))).
Proof.
  intros Hhost Hfollows. destruct others as [|second rest].
  { simpl. by rewrite createFromRange_id; destruct ref. }
  unfold Range.createFromRanges. rewrite Hhost.
  change (Range.tagged (ref :: second :: rest))
    with ((0, ref) :: imap (λ i range, (S i, range)) (second :: rest)).
  change (Range.indexOf 0 ((0, ref) :: ?l)) with 0%Z.
  change (((0, ref) :: ?l).*2) with (ref :: l.*2).
  rewrite (imap_tagged_snd S), Range_new_id.
  change (Ok (Range.glueAfter isTouching (second :: rest) ref) = Ok
            (Range.mk (Range.start ref) (Range.end_ (List.last (second :: rest) ref)))).
  f_equal. by apply glueAfter_follows.
Qed.

End CreateFromRangesMore.

Lemma createFromRanges_untouched_witness :
  Range.createFromRanges (@Range.insertionSort _) Position.isEqual
    [flatRange 4 6; flatRange 8 9; flatRange 0 2]
  = Ok (flatRange 4 6).
Proof.
  apply (createFromRanges_untouched (@Range.insertionSort _) Position.isEqual
           (flatRange 4 6) [flatRange 8 9; flatRange 0 2]).
  { intros a. apply insertionSort_Permutation. }
  intros range Hin.
  apply elem_of_cons in Hin as [->|Hin]; [by split|].
  apply elem_of_cons in Hin as [->|Hin]; [by split|].
  by apply elem_of_nil in Hin.
Defined.

Lemma createFromRanges_follows_witness :
  Range.createFromRanges (@Range.insertionSort _) Position.isEqual
    [flatRange 0 2; flatRange 2 4; flatRange 4 9]
  = Ok (flatRange 0 9).
Proof.
  apply (createFromRanges_follows (@Range.insertionSort _) Position.isEqual
           (flatRange 0 2) [flatRange 2 4; flatRange 4 9]).
  - reflexivity.
  - simpl. repeat split; reflexivity.
Defined.

(** ** Maps as ordered lists of entries, continued *)

Section JSMapMore.

Context {V : Type}.
Implicit Types (m : list (string * V)) (key k : string).

Lemma get_delete_eq key m : JSMap.get key (JSMap.delete key m) = None.
Proof.
  induction m as [|[k v] m IH]; simpl; [done|].
  destruct (String.eqb k key) eqn:Hk; simpl; [done|]. by rewrite Hk.
Qed.

Lemma get_Some_elem key (value : V) m : JSMap.get key m = Some value → (key, value) ∈ m.
Proof.
  induction m as [|[k v] m IH]; simpl; [done|].
  destruct (String.eqb_spec k key) as [->|Hne].
  - intros [= ->]. by left.
  - intros Hget. right. by apply IH.
Qed.

Lemma get_None_keys key m : JSMap.get key m = None ↔ key ∉ m.*1.
Proof.
  induction m as [|[k v] m IH]; simpl.
  - split; [intros _; apply not_elem_of_nil | done].
  - rewrite not_elem_of_cons. destruct (String.eqb_spec k key) as [->|Hne].
    + split; [done | by intros [? _]].
    + rewrite IH. split; [by split; [congruence|] | by intros [_ ?]].
Qed.

Lemma set_keys key (value : V) m :
  (JSMap.set key value m).*1 = if bool_decide (key ∈ m.*1) then m.*1 else m.*1 ++ [key].
Proof.
  induction m as [|[k v] m IH]; [done|]. cbn [JSMap.set].
  destruct (String.eqb_spec k key) as [->|Hne]; rewrite !fmap_cons; cbn [fst].
  - by rewrite bool_decide_eq_true_2 by (by left).
  - rewrite IH. destruct (bool_decide_reflect (key ∈ m.*1)) as [Hin|Hnotin].
    + by rewrite bool_decide_eq_true_2 by (by right).
    + rewrite bool_decide_eq_false_2; [done|].
      rewrite not_elem_of_cons. split; [congruence | done].
Qed.

(** Setting a key keeps every key of a map once. *)
Lemma set_NoDup key (value : V) m : NoDup m.*1 → NoDup (JSMap.set key value m).*1.
Proof.
  intros Hnodup. rewrite set_keys.
  destruct (bool_decide_reflect (key ∈ m.*1)) as [Hin|Hnotin]; [done|].
  apply NoDup_app. split; [done|]. split; [|apply NoDup_singleton].
  intros k Hk Hkey. apply list_elem_of_singleton in Hkey as ->. done.
Qed.

Lemma toMap_NoDup (entries : list (string * V)) : NoDup (JSMap.toMap entries).*1.
Proof.
  unfold JSMap.toMap.
  apply (foldl_invariant (λ m : list (string * V), NoDup m.*1)); [constructor|].
  intros m [k v] _ Hnodup. by apply set_NoDup.
Qed.

End JSMapMore.

(** ** LiveSelection: the attributes after a write *)

Section AttributeWrites.

Import LiveSelection.

(** X15: [getRanges] yields as many ranges as [rangeCount] says, and
    never none. *)
Theorem getRanges_rangeCount (s : t) :
  length (getRanges s) = rangeCount s ∧ (1 ≤ rangeCount s)%nat.
Proof.
  unfold getRanges, rangeCount, Selection_getRanges.
  destruct (_ranges s) as [|range ranges]; simpl; [done|].
  rewrite length_fmap. split; [done | lia].
Qed.

(** X16: a write of [key] that the priority of [key] lets through
    ([directChange], or a key not held with priority [normal]) leaves
    [key] with the value written and the other keys as they were; it
    reports a change exactly when the value was not there already. *)
Theorem _setAttribute_written (key : string) (value : Value) (directChange : bool) (s : t) :
  (directChange = false → JSMap.get key (_attributePriority s) ≠ Some normal) →
  getAttribute key (_setAttribute key value directChange s).2 = Some value
  ∧ (∀ k, k ≠ key →
       getAttribute k (_setAttribute key value directChange s).2 = getAttribute k s)
  ∧ ((_setAttribute key value directChange s).1 = false
     ↔ getAttribute key s = Some value).
Proof.
  intros Hallowed. unfold _setAttribute.
  assert (bool_decide (priorityOf directChange = low)
          && bool_decide (JSMap.get key (_attributePriority s) = Some normal) = false)
    as ->.
  { destruct directChange; [done|]. simpl. by apply bool_decide_eq_false_2, Hallowed. }
  destruct (bool_decide_reflect (getAttribute key s = Some value)) as [Hsame|Hdiff];
    simpl.
  - done.
  - unfold getAttribute. simpl. rewrite get_set_eq.
    split; [done|]. split; [|done].
    intros k Hne. by rewrite get_set_ne.
Qed.

Lemma _setAttribute_written_witness :
  getAttribute "bold" (_setAttribute "bold" (VBool false) true boldSelection).2
  = Some (VBool false)
  ∧ (∀ k, k ≠ "bold" →
       getAttribute k (_setAttribute "bold" (VBool false) true boldSelection).2
       = getAttribute k boldSelection)
  ∧ ((_setAttribute "bold" (VBool false) true boldSelection).1 = false
     ↔ getAttribute "bold" boldSelection = Some (VBool false)).
Proof. apply (_setAttribute_written "bold" (VBool false) true boldSelection). done. Defined.

(** X17: a removal of [key] that the priority of [key] lets through
    leaves the selection without [key] and the other keys as they were;
    it reports a change exactly when the key was there. *)
Theorem _removeAttribute_removed (key : string) (directChange : bool) (s : t) :
  (directChange = false → JSMap.get key (_attributePriority s) ≠ Some normal) →
  hasAttribute key (_removeAttribute key directChange s).2 = false
  ∧ (∀ k, k ≠ key →
       getAttribute k (_removeAttribute key directChange s).2 = getAttribute k s)
  ∧ (_removeAttribute key directChange s).1 = hasAttribute key s.
Proof.
  intros Hallowed. unfold _removeAttribute.
  assert (bool_decide (priorityOf directChange = low)
          && bool_decide (JSMap.get key (_attributePriority s) = Some normal) = false)
    as ->.
  { destruct directChange; [done|]. simpl. by apply bool_decide_eq_false_2, Hallowed. }
  destruct (hasAttribute key s) eqn:Hhas; simpl.
  - unfold hasAttribute, JSMap.has, getAttribute. simpl. rewrite get_delete_eq.
    split; [done|]. split; [|done].
    intros k Hne. by rewrite get_delete_ne.
  - done.
Qed.

Lemma _removeAttribute_removed_witness :
  hasAttribute "bold" (_removeAttribute "bold" true boldSelection).2 = false
  ∧ (∀ k, k ≠ "bold" →
       getAttribute k (_removeAttribute "bold" true boldSelection).2
       = getAttribute k boldSelection)
  ∧ (_removeAttribute "bold" true boldSelection).1 = hasAttribute "bold" boldSelection.
Proof. apply (_removeAttribute_removed "bold" true boldSelection). done. Defined.

End AttributeWrites.

Section AttributeLoops.

Import LiveSelection.

Lemma _removeAttribute_other k key directChange s :
  k ≠ key →
  getAttribute k (_removeAttribute key directChange s).2 = getAttribute k s
  ∧ JSMap.get k (_attributePriority (_removeAttribute key directChange s).2)
    = JSMap.get k (_attributePriority s).
Proof.
  intros Hne. unfold _removeAttribute.
  destruct (_ && _); [done|]. destruct (negb _); [done|].
  unfold getAttribute. simpl. by rewrite get_delete_ne, get_set_ne.
Qed.

Lemma _setAttribute_other k key value directChange s :
  k ≠ key →
  getAttribute k (_setAttribute key value directChange s).2 = getAttribute k s
  ∧ JSMap.get k (_attributePriority (_setAttribute key value directChange s).2)
    = JSMap.get k (_attributePriority s).
Proof.
  intros Hne. unfold _setAttribute.
  destruct (_ && _); [done|]. destruct (bool_decide _); [done|].
  unfold getAttribute. simpl. by rewrite !get_set_ne.
Qed.

(** A low-priority write to a key that is not held with priority
    [normal] leaves it so. *)
Lemma _removeAttribute_low_priority key s :
  JSMap.get key (_attributePriority s) ≠ Some normal →
  JSMap.get key (_attributePriority (_removeAttribute key false s).2) ≠ Some normal.
Proof.
  intros Hlow. unfold _removeAttribute.
  destruct (_ && _); [done|]. destruct (negb _); [done|].
  simpl. by rewrite get_set_eq.
Qed.

Lemma _setAttribute_low_priority key value s :
  JSMap.get key (_attributePriority s) ≠ Some normal →
  JSMap.get key (_attributePriority (_setAttribute key value false s).2) ≠ Some normal.
Proof.
  intros Hlow. unfold _setAttribute.
  destruct (_ && _); [done|]. destruct (bool_decide _); [done|].
  simpl. by rewrite get_set_eq.
Qed.

Lemma _removeAttribute_gone key directChange s :
  (directChange = false → JSMap.get key (_attributePriority s) ≠ Some normal) →
  getAttribute key (_removeAttribute key directChange s).2 = None.
Proof.
  intros Hallowed. unfold _removeAttribute.
  assert (bool_decide (priorityOf directChange = low)
          && bool_decide (JSMap.get key (_attributePriority s) = Some normal) = false)
    as ->.
  { destruct directChange; [done|]. simpl. by apply bool_decide_eq_false_2, Hallowed. }
  unfold hasAttribute, JSMap.has, getAttribute.
  destruct (JSMap.get key (_attrs s)) eqn:Hget; simpl; [|done].
  apply get_delete_eq.
Qed.

Lemma _setAttribute_there key value directChange s :
  (directChange = false → JSMap.get key (_attributePriority s) ≠ Some normal) →
  getAttribute key (_setAttribute key value directChange s).2 = Some value.
Proof.
  intros Hallowed. unfold _setAttribute.
  assert (bool_decide (priorityOf directChange = low)
          && bool_decide (JSMap.get key (_attributePriority s) = Some normal) = false)
    as ->.
  { destruct directChange; [done|]. simpl. by apply bool_decide_eq_false_2, Hallowed. }
  destruct (bool_decide_reflect (getAttribute key s = Some value)); [done|].
  unfold getAttribute. simpl. apply get_set_eq.
Qed.

(** The first loop of [_setAttributesTo], seen from one key that writes
    are let through for: the key is left with a value only if that is
    the value to be set. *)
Lemma removeLoop_key (attrs : list (string * Value)) directChange k
    (entries : list (string * Value)) (acc : list string * t) :
  (directChange = false → JSMap.get k (_attributePriority acc.2) ≠ Some normal) →
  (∀ v, getAttribute k acc.2 = Some v → JSMap.get k attrs = Some v ∨ (k, v) ∈ entries) →
  (directChange = false →
   JSMap.get k
     (_attributePriority
        (foldl
           (λ (acc : list string * t) (entry : string * Value),
              let '(oldKey, oldValue) := entry in
              if bool_decide (JSMap.get oldKey attrs = Some oldValue) then acc
              else
                let '(removed, s') := _removeAttribute oldKey directChange acc.2 in
                (if removed then JSMap.setAdd oldKey acc.1 else acc.1, s'))
           acc entries).2) ≠ Some normal)
  ∧ (∀ v,
       getAttribute k
         (foldl
            (λ (acc : list string * t) (entry : string * Value),
               let '(oldKey, oldValue) := entry in
               if bool_decide (JSMap.get oldKey attrs = Some oldValue) then acc
               else
                 let '(removed, s') := _removeAttribute oldKey directChange acc.2 in
                 (if removed then JSMap.setAdd oldKey acc.1 else acc.1, s'))
            acc entries).2 = Some v →
       JSMap.get k attrs = Some v).
Proof.
  revert acc. induction entries as [|[oldKey oldValue] entries IH];
    intros [changed s] Hallowed Hvalue; simpl in *.
  - split; [done|]. intros v Hv. destruct (Hvalue v Hv) as [?|Hin]; [done|].
    by apply elem_of_nil in Hin.
  - destruct (bool_decide_reflect (JSMap.get oldKey attrs = Some oldValue)) as [Hsame|Hdiff].
    + apply IH; [done|]. simpl. intros v Hv.
      destruct (Hvalue v Hv) as [?|Hin]; [by left|].
      apply elem_of_cons in Hin as [[= <- <-]|Hin]; [by left | by right].
    + destruct (_removeAttribute oldKey directChange s) as [removed s'] eqn:Hremove.
      assert (s' = (_removeAttribute oldKey directChange s).2) as -> by by rewrite Hremove.
      apply IH; simpl.
      * intros ->. destruct (decide (k = oldKey)) as [->|Hne].
        -- by apply _removeAttribute_low_priority, Hallowed.
        -- rewrite (proj2 (_removeAttribute_other k oldKey false s Hne)). by apply Hallowed.
      * intros v. destruct (decide (k = oldKey)) as [->|Hne].
        -- by rewrite _removeAttribute_gone.
        -- rewrite (proj1 (_removeAttribute_other k oldKey directChange s Hne)).
           intros Hv. destruct (Hvalue v Hv) as [?|Hin]; [by left|].
           apply elem_of_cons in Hin as [[= ? _]|Hin]; [done | by right].
Qed.

(** The second loop, seen from such a key: the key ends with the value
    that the map gives it, or as it was when the map has no value for
    it. *)
Lemma setLoop_key directChange k (attrs : list (string * Value)) (acc : list string * t) :
  NoDup attrs.*1 →
  (directChange = false → JSMap.get k (_attributePriority acc.2) ≠ Some normal) →
  getAttribute k
    (foldl
       (λ (acc : list string * t) (entry : string * Value),
          let '(key, value) := entry in
          let '(gotAdded, s') := _setAttribute key value directChange acc.2 in
          (if gotAdded then JSMap.setAdd key acc.1 else acc.1, s'))
       acc attrs).2
  = match JSMap.get k attrs with
    | Some v => Some v
    | None => getAttribute k acc.2
    end.
Proof.
  revert acc. induction attrs as [|[key value] attrs IH];
    intros [changed s] Hnodup Hallowed; [done|].
  rewrite fmap_cons in Hnodup. apply NoDup_cons in Hnodup as [Hfresh Hnodup].
  cbn [foldl JSMap.get snd fst] in *.
  destruct (_setAttribute key value directChange s) as [gotAdded s'] eqn:Hset.
  assert (s' = (_setAttribute key value directChange s).2) as -> by by rewrite Hset.
  destruct (String.eqb_spec key k) as [->|Hne].
  - rewrite IH; simpl.
    + apply get_None_keys in Hfresh as ->. by apply _setAttribute_there.
    + done.
    + intros ->. by apply _setAttribute_low_priority, Hallowed.
  - rewrite IH; simpl.
    + by rewrite (proj1 (_setAttribute_other k key value directChange s (not_eq_sym Hne))).
    + done.
    + rewrite (proj2 (_setAttribute_other k key value directChange s (not_eq_sym Hne))).
      done.
Qed.

Lemma _setAttributesTo_key attrs directChange k s :
  NoDup attrs.*1 →
  (directChange = false → JSMap.get k (_attributePriority s) ≠ Some normal) →
  getAttribute k (_setAttributesTo attrs directChange s).2 = JSMap.get k attrs.
Proof.
  intros Hnodup Hallowed. unfold _setAttributesTo.
  destruct (removeLoop_key attrs directChange k (getAttributes s) ([], s))
    as [Hallowed' Hvalue]; [done| |].
  { intros v Hv. right. by apply get_Some_elem. }
  rewrite setLoop_key by done.
  destruct (JSMap.get k attrs) as [v|] eqn:Hget; [done|].
  match goal with
  | |- ?x = None => destruct x as [v|] eqn:Hleft; [|done]
  end.
  discriminate (Hvalue v eq_refl).
Qed.

Lemma dropLowPriority_not_normal k s :
  JSMap.get k (_attributePriority s) ≠ Some normal →
  JSMap.get k (_attributePriority (dropLowPriority s)) ≠ Some normal.
Proof.
  intros Hlow. unfold dropLowPriority.
  apply (foldl_invariant (λ s', JSMap.get k (_attributePriority s') ≠ Some normal));
    [done|].
  intros s' [key priority] _ Hacc. simpl.
  destruct (bool_decide _); [|done]. simpl.
  destruct (decide (key = k)) as [->|Hne].
  - by rewrite get_delete_eq.
  - by rewrite get_delete_ne.
Qed.

End AttributeLoops.

(** X18: [_setAttributesTo] with a map [attrs] (every key once) leaves a
    key that writes are let through for ([directChange], or a key not
    held with priority [normal]) exactly as [attrs] has it: with the
    value of [attrs], or without a value when [attrs] has none. *)
Theorem _setAttributesTo_exact (attrs : list (string * Value)) (directChange : bool)
    (k : string) (s : LiveSelection.t) :
  NoDup attrs.*1 →
  (directChange = false →
   JSMap.get k (LiveSelection._attributePriority s) ≠ Some LiveSelection.normal) →
  LiveSelection.getAttribute k (LiveSelection._setAttributesTo attrs directChange s).2
  = JSMap.get k attrs.
Proof. apply _setAttributesTo_key. Qed.

Lemma _setAttributesTo_exact_witness :
  LiveSelection.getAttribute "bold"
    (LiveSelection._setAttributesTo [("italic", VBool true)] true boldSelection).2
  = JSMap.get "bold" [("italic", VBool true)].
Proof.
  apply (_setAttributesTo_exact [("italic", VBool true)] true "bold" boldSelection).
  - apply NoDup_singleton.
  - discriminate.
Defined.

(** X19: after [_updateAttributes] the selection has, for every key that
    it does not hold with priority [normal], the value that the
    surrounding text has for it (the last one, if the text gives several),
    and none when the text has none; after the full refresh ([clearAll])
    this holds for all keys. *)
Theorem _updateAttributes_exact
    (surrounding : LiveSelection.t → list (string * Value))
    (clearAll : bool) (k : string) (s : LiveSelection.t) :
  (clearAll = false →
   JSMap.get k (LiveSelection._attributePriority s) ≠ Some LiveSelection.normal) →
  LiveSelection.getAttribute k (LiveSelection._updateAttributes surrounding clearAll s)
  = JSMap.get k (JSMap.toMap (surrounding s)).
Proof.
  intros Hallowed. unfold LiveSelection._updateAttributes.
  match goal with
  | |- LiveSelection.getAttribute k (if _ then LiveSelection.emit _ ?x else ?x) = _ =>
      assert (∀ e b, LiveSelection.getAttribute k (if b : bool then LiveSelection.emit e x else x)
                     = LiveSelection.getAttribute k x) as -> by (by intros e [])
  end.
  apply _setAttributesTo_key; [apply toMap_NoDup|]. intros _.
  destruct clearAll; [done|]. by apply dropLowPriority_not_normal, Hallowed.
Qed.

Lemma _updateAttributes_exact_witness :
  LiveSelection.getAttribute "bold"
    (LiveSelection._updateAttributes italicAround true boldSelection)
  = JSMap.get "bold" (JSMap.toMap (italicAround boldSelection)).
Proof.
  apply (_updateAttributes_exact italicAround true "bold" boldSelection). discriminate.
Defined.

(** ** LiveSelection: removing and adding ranges *)

Section RangesMore.

Import LiveSelection.

Variable surrounding : t → list (string * Value).
Variable checkRange : list Range.t → Range.t → option Exception.

Lemma _popRange_snoc s ranges range :
  _ranges s = ranges ++ [range] →
  _popRange s = (Ok (), emit (Detach range) (setRangesField ranges s)).
Proof.
  intros Hranges. unfold _popRange, _removeRangeAtIndex.
  rewrite Hranges, length_app. simpl.
  replace (_ <? 0)%Z with false by (symmetry; apply Z.ltb_ge; lia).
  rewrite Z.min_l by lia.
  replace (Z.to_nat _) with (length ranges) by lia.
  rewrite list_lookup_middle by done.
  f_equal. f_equal. f_equal.
  rewrite delete_take_drop, take_app_length.
  replace (S (length ranges)) with (length (ranges ++ [range]))
    by (rewrite length_app; simpl; lia).
  by rewrite drop_all, app_nil_r.
Qed.

(** X20: [_popRange] removes the last range of the selection and
    detaches it; on a selection without ranges of its own it throws a
    TypeError, the range spliced out being [undefined]. *)
Theorem _popRange_last (s : t) :
  _popRange s
  = match rev (_ranges s) with
    | [] => (Throw TypeError, s)
    | range :: before => (Ok (), emit (Detach range) (setRangesField (rev before) s))
    end.
Proof.
  destruct (_ranges s) as [|first ranges] eqn:Hranges using rev_ind.
  - unfold _popRange, _removeRangeAtIndex. by rewrite Hranges.
  - rewrite rev_app_distr. simpl. rewrite rev_involutive. by apply _popRange_snoc.
Qed.

(** The loop of [removeAllRanges], with fuel for every range: the state
    it ends in. *)
Lemma _removeAllRanges_detaches (fuel : nat) s :
  (length (_ranges s) ≤ fuel)%nat →
  _removeAllRanges fuel s
  = (Ok (), mk (_document s) [] (_lastRangeBackward s) (_attrs s) (_attributePriority s)
              (effects s ++ map Detach (rev (_ranges s)))).
Proof.
  revert s. induction fuel as [|fuel IH]; intros s Hfuel.
  - destruct s as [document ranges backward attrs priorities events]. simpl in *.
    destruct ranges; [|simpl in Hfuel; lia]. simpl. by rewrite app_nil_r.
  - simpl. destruct (_ranges s) as [|first ranges _] eqn:Hranges using rev_ind.
    + simpl. destruct s; simpl in *. subst. simpl. by rewrite app_nil_r.
    + replace (Nat.ltb 0 _) with true
        by (symmetry; apply Nat.ltb_lt; rewrite length_app; simpl; lia).
      unfold bind. rewrite (_popRange_snoc s ranges first Hranges).
      rewrite IH by (rewrite length_app in Hfuel; simpl in *; lia).
      simpl. rewrite rev_app_distr. simpl. by rewrite <- app_assoc.
Qed.


(** X30: [destroy] returns normally, whatever the selection holds: it
    has detached every range of the selection, the last one first, and
    left the selection without ranges of its own and otherwise as it
    was. *)
Theorem destroy_detaches (s : t) :
  destroy s
  = (Ok (), mk (_document s) [] (_lastRangeBackward s) (_attrs s) (_attributePriority s)
              (effects s ++ map Detach (rev (_ranges s)))).
Proof. unfold destroy. by apply _removeAllRanges_detaches. Qed.

(** X22: [addRange] with a range outside the graveyard: when
    [_checkRange] throws, [addRange] throws the same and the selection is
    as it was; otherwise the range is the new last range of the
    selection, whose direction is the one given. *)
Theorem addRange_appends (s : t) (range : Range.t) (isBackward : bool) :
  Range.root range ≠ graveyard (_document s) →
  match checkRange (_ranges s) range with
  | Some e => addRange surrounding checkRange (IsRange range) isBackward s = (Throw e, s)
  | None =>
      ∃ s', addRange surrounding checkRange (IsRange range) isBackward s = (Ok (), s')
            ∧ _ranges s' = _ranges s ++ [range]
            ∧ _lastRangeBackward s' = isBackward
            ∧ rangeCount s' = S (length (_ranges s))
  end.
Proof.
  intros Hroot. apply String.eqb_neq in Hroot.
  unfold addRange, Selection_addRange, _pushRange, _prepareRange, bind, modify,
    refreshAttributes.
  rewrite Hroot. destruct (checkRange (_ranges s) range) as [e|]; [done|]. simpl.
  eexists. split; [done|].
  match goal with
  | |- context [_updateAttributes surrounding true ?x] =>
      destruct (_updateAttributes_frame surrounding true x)
        as (_ & Hranges & Hlast & _)
  end.
  unfold rangeCount. rewrite Hranges, Hlast. simpl.
  rewrite createFromRange_id, length_app. simpl.
  split; [done|]. split; [done|].
  replace (length (_ranges s) + 1) with (S (length (_ranges s))) by lia. done.
Qed.

End RangesMore.

Lemma addRange_appends_witness :
  match neverIntersects (LiveSelection._ranges boldSelection) (flatRange 2 5) with
  | Some e =>
      LiveSelection.addRange italicAround neverIntersects
        (LiveSelection.IsRange (flatRange 2 5)) true boldSelection = (Throw e, boldSelection)
  | None =>
      ∃ s', LiveSelection.addRange italicAround neverIntersects
              (LiveSelection.IsRange (flatRange 2 5)) true boldSelection = (Ok (), s')
            ∧ LiveSelection._ranges s' = LiveSelection._ranges boldSelection ++ [flatRange 2 5]
            ∧ LiveSelection._lastRangeBackward s' = true
            ∧ LiveSelection.rangeCount s' = S (length (LiveSelection._ranges boldSelection))
  end.
Proof.
  apply (addRange_appends italicAround neverIntersects boldSelection (flatRange 2 5) true).
  discriminate.
Defined.

(** ** LiveSelection: attributes stored in the parent *)

Section StoredAttributes.

Import LiveSelection.

Lemma prefix_append (p s : string) : String.prefix p (p ++ s)%string = true.
Proof.
  induction p as [|a p IH]; simpl; [by destruct s|].
  by destruct (Ascii.ascii_dec a a).
Qed.

Lemma substr_append (p s : string) : substr (String.length p) (p ++ s)%string = s.
Proof. induction p as [|a p IH]; simpl; [by destruct s | done]. Qed.

Lemma prefix_substr (p s : string) :
  String.prefix p s = true → (p ++ substr (String.length p) s)%string = s.
Proof.
  revert s. induction p as [|a p IH]; intros [|b s]; simpl; try done.
  destruct (Ascii.ascii_dec a b) as [->|]; [|done].
  intros Hprefix.
  change (String b (p ++ substr (String.length p) s)%string = String b s).
  by rewrite IH.
Qed.

(** X23: the selection reads back from an empty parent element exactly
    the attributes stored under their store keys: [key] with [value] is
    yielded if and only if the parent has [value] under
    [_getStoreAttributeKey( key )]; outside an empty element nothing is
    yielded. *)
Theorem _getStoredAttributes_stored (inEmptyNode : bool)
    (parentAttributes : list (string * Value)) (key : string) (value : Value) :
  (key, value) ∈ _getStoredAttributes inEmptyNode parentAttributes
  ↔ inEmptyNode = true ∧ (_getStoreAttributeKey key, value) ∈ parentAttributes.
Proof.
  unfold _getStoredAttributes, _getStoreAttributeKey. destruct inEmptyNode.
  - rewrite list_elem_of_omap. split.
    + intros ([k v] & Hin & Hyield). cbn [fst snd] in Hyield.
      destruct (String.prefix storePrefix k) eqn:Hprefix; [|done].
      injection Hyield as <- <-. split; [done|].
      change (((storePrefix ++ substr (String.length storePrefix) k)%string, v)
              ∈ parentAttributes).
      by rewrite (prefix_substr _ _ Hprefix).
    + intros [_ Hin]. eexists. split; [exact Hin|]. cbn [fst snd].
      by rewrite prefix_append, substr_append.
  - split; [intros Hin; by apply elem_of_nil in Hin | by intros [? _]].
Qed.

End StoredAttributes.

(** ** ChangeOperation: what [_execute] has done when it returns, and why
    it throws *)

Section ChangeOperationOutcome.

Import ChangeOperation.

Lemma removeOrChange_Throw oldAttr newAttr visits store e store' :
  removeOrChange oldAttr newAttr visits store = (Throw e, store') →
  (e = noAttrToRemove
   ∧ ∃ id node, id ∈ visits ∧ store' !! id = Some node
                ∧ Node.hasAttr node oldAttr = false)
  ∨ (e = TypeError ∧ ∃ id, id ∈ visits ∧ store' !! id = None).
Proof.
  revert store. induction visits as [|id visits IH]; intros store; simpl; [done|].
  destruct (store !! id) as [node|] eqn:Hnode.
  - destruct (Node.hasAttr node oldAttr) eqn:Hhas; simpl.
    + intros Hrec. destruct (IH _ Hrec) as [(-> & id' & node' & Hin & ?)|(-> & id' & Hin & ?)].
      * left. split; [done|]. exists id', node'. split; [by right | done].
      * right. split; [done|]. exists id'. split; [by right | done].
    + intros [= <- <-]. left. split; [done|]. exists id, node. split; [by left | done].
  - intros [= <- <-]. right. split; [done|]. exists id. split; [by left | done].
Qed.

Lemma insertOrChange_Throw oldAttr newAttr visits store e store' :
  insertOrChange oldAttr newAttr visits store = (Throw e, store') →
  (e = attrExists ∧ oldAttr = None
   ∧ ∃ id node, id ∈ visits ∧ store' !! id = Some node
                ∧ Node.hasAttrKey node (Attribute.key newAttr) = true)
  ∨ (e = TypeError ∧ ∃ id, id ∈ visits ∧ store' !! id = None).
Proof.
  revert store. induction visits as [|id visits IH]; intros store; simpl; [done|].
  destruct (store !! id) as [node|] eqn:Hnode.
  - destruct (bool_decide_reflect (oldAttr = None)) as [Hnone|Hsome]; simpl.
    + destruct (Node.hasAttrKey node (Attribute.key newAttr)) eqn:Hhas.
      * intros [= <- <-]. left. split; [done|]. split; [done|].
        exists id, node. split; [by left | done].
      * intros Hrec.
        destruct (IH _ Hrec) as [(-> & ? & id' & node' & Hin & ?)|(-> & id' & Hin & ?)].
        -- left. split; [done|]. split; [done|]. exists id', node'. split; [by right | done].
        -- right. split; [done|]. exists id'. split; [by right | done].
    + intros Hrec.
      destruct (IH _ Hrec) as [(-> & ? & id' & node' & Hin & ?)|(-> & id' & Hin & ?)].
      * left. split; [done|]. split; [done|]. exists id', node'. split; [by right | done].
      * right. split; [done|]. exists id'. split; [by right | done].
  - intros [= <- <-]. right. split; [done|]. exists id. split; [by left | done].
Qed.

End ChangeOperationOutcome.

(** X24: when [_execute] returns, every node of the range had what the
    operation asks of a node (the old attribute, or no attribute with the
    key of the new one) and is now that node with the new attribute set,
    or with the old key removed; the other nodes are as they were. *)
Theorem _execute_Ok_state (op : ChangeOperation.t) (visits : list nat)
    (store store' : list Node.t) :
  ChangeOperation._execute op visits store = (Ok (), store') →
  length store' = length store
  ∧ ∀ id node, store !! id = Some node →
      if bool_decide (id ∈ visits)
      then ready op node ∧ store' !! id = Some (applyChange op node)
      else store' !! id = Some node.
Proof.
  unfold ChangeOperation._execute, ready, applyChange.
  destruct op as [range [o|] [n|] version]; simpl.
  - (* change *)
    destruct (negb (String.eqb (Attribute.key o) (Attribute.key n))); [done|].
    destruct (ChangeOperation.removeOrChange o (Some n) visits store)
      as [removed store1] eqn:Hfirst.
    destruct (removeOrChange_checks_only _ _ _ _ _ _ Hfirst) as [-> _].
    destruct removed as [e|[]]; [done|]. intros Hsecond.
    apply removeOrChange_Ok in Hfirst. apply insertOrChange_Ok in Hsecond.
    destruct (visitAll_lookup _ (removeUpdate o (Some n)) _ _ _
                (λ node _ _, eq_refl) Hfirst) as (_ & Hold & _).
    destruct (visitAll_lookup _ (λ node, Node.setAttr node n) _ _ _
                (λ node _ _, setAttr_idem node n) Hsecond) as (Hlen & Hnew & Hother).
    split; [done|]. intros id node Hnode.
    destruct (bool_decide_reflect (id ∈ visits)) as [Hin|Hnotin].
    + destruct (Hold _ Hin) as (node0 & Hnode0 & Hhas & _).
      destruct (Hnew _ Hin) as (node1 & Hnode1 & _ & Hset).
      rewrite Hnode in Hnode0, Hnode1.
      injection Hnode0 as <-. injection Hnode1 as <-. done.
    + by rewrite (Hother _ Hnotin).
  - (* removal *)
    destruct (ChangeOperation.removeOrChange o None visits store)
      as [removed store1] eqn:Hfirst.
    destruct removed as [e|[]]; [done|]. intros [= <-].
    apply removeOrChange_Ok in Hfirst.
    apply visitAll_lookup in Hfirst as (Hlen & Hold & Hother).
    + split; [done|]. intros id node Hnode.
      destruct (bool_decide_reflect (id ∈ visits)) as [Hin|Hnotin].
      * destruct (Hold _ Hin) as (node0 & Hnode0 & Hhas & Hremoved).
        rewrite Hnode in Hnode0. injection Hnode0 as <-. done.
      * by rewrite (Hother _ Hnotin).
    + intros node _ Hagain. unfold removeUpdate in Hagain.
      by rewrite hasAttr_removeAttr in Hagain.
  - (* insertion *)
    intros Hsecond. apply insertOrChange_Ok in Hsecond.
    apply visitAll_lookup in Hsecond as (Hlen & Hnew & Hother).
    + split; [done|]. intros id node Hnode.
      destruct (bool_decide_reflect (id ∈ visits)) as [Hin|Hnotin].
      * destruct (Hnew _ Hin) as (node0 & Hnode0 & Hfree & Hset).
        rewrite Hnode in Hnode0. injection Hnode0 as <-.
        unfold insertCheck in Hfree. simpl in Hfree.
        apply negb_true_iff in Hfree. done.
      * by rewrite (Hother _ Hnotin).
    + intros node _ Hagain. unfold insertCheck in Hagain.
      by rewrite hasAttrKey_setAttr in Hagain.
  - (* neither *)
    intros [= <-]. split; [done|]. intros id node Hnode.
    by destruct (bool_decide _).
Qed.

Lemma _execute_Ok_state_witness :
  length fooBarNodes = length plainNodes
  ∧ ∀ id node, plainNodes !! id = Some node →
      if bool_decide (id ∈ [0; 1])
      then ready addFooBar node ∧ fooBarNodes !! id = Some (applyChange addFooBar node)
      else fooBarNodes !! id = Some node.
Proof.
  apply (_execute_Ok_state addFooBar [0; 1] plainNodes fooBarNodes).
  vm_compute. reflexivity.
Defined.

(** X25: [_execute] returns normally when the old and the new attribute,
    if both are given, have the same key, the range yields every node
    once, and every node of the range has what the operation asks of a
    node. *)
Theorem _execute_succeeds (op : ChangeOperation.t) (visits : list nat)
    (store : list Node.t) :
  ChangeOperation.keysDiffer (ChangeOperation.oldAttr op) (ChangeOperation.newAttr op)
  = false →
  NoDup visits →
  (∀ id, id ∈ visits → ∃ node, store !! id = Some node ∧ ready op node) →
  ∃ store', ChangeOperation._execute op visits store = (Ok (), store').
Proof.
  unfold ChangeOperation._execute, ready.
  destruct op as [range [o|] [n|] version]; simpl; intros Hkeys Hnodup Hready.
  - (* change *)
    rewrite Hkeys.
    assert (ChangeOperation.removeOrChange o (Some n) visits store = (Ok (), store)) as ->.
    { apply removeOrChange_Ok.
      by apply (visitAll_check_only (λ node, Node.hasAttr node o)). }
    destruct (ChangeOperation.insertOrChange (Some o) n visits store)
      as [outcome store'] eqn:Hsecond.
    pose proof (insertOrChange_change_ok o n visits store) as Hok.
    rewrite Hsecond in Hok. simpl in Hok. rewrite Hok; [by exists store'|].
    apply Forall_forall. intros id Hin.
    destruct (Hready id Hin) as (node & Hnode & _). by eapply lookup_lt_Some.
  - (* removal *)
    destruct (visitAll_is_Some_NoDup (λ node, Node.hasAttr node o)
                (removeUpdate o None) visits store Hnodup Hready) as [store' Hall].
    apply removeOrChange_Ok in Hall. rewrite Hall. by exists store'.
  - (* insertion *)
    destruct (visitAll_is_Some_NoDup (insertCheck None n)
                (λ node, Node.setAttr node n) visits store Hnodup) as [store' Hall].
    { intros id Hin. destruct (Hready id Hin) as (node & Hnode & Hfree).
      exists node. split; [done|]. unfold insertCheck. simpl. by rewrite Hfree. }
    apply insertOrChange_Ok in Hall. by exists store'.
  - (* neither *)
    by exists store.
Qed.

Lemma _execute_succeeds_witness :
  ∃ store', ChangeOperation._execute addFooBar [0; 1] plainNodes = (Ok (), store').
Proof.
  apply (_execute_succeeds addFooBar [0; 1] plainNodes).
  - reflexivity.
  - apply NoDup_cons. split; [|apply NoDup_singleton].
    intros Hin. apply list_elem_of_singleton in Hin. discriminate Hin.
  - intros id Hin.
    apply elem_of_cons in Hin as [->|Hin]; [by eexists|].
    apply list_elem_of_singleton in Hin as ->. by eexists.
Defined.

(** X26: each error of [_execute] tells which precondition failed.
    [operation-change-different-keys]: both attributes are given and
    their keys differ, and nothing has been done.
    [operation-change-no-attr-to-remove]: an old attribute is given and
    a node of the range does not have it.
    [operation-change-attr-exists]: only a new attribute is given and a
    node of the range has an attribute with its key.  The node is as the
    operation left the document. *)
Theorem _execute_Throw_reason (op : ChangeOperation.t) (visits : list nat)
    (store store' : list Node.t) (e : Exception) :
  ChangeOperation._execute op visits store = (Throw e, store') →
  (e = ChangeOperation.differentKeys
   ∧ ChangeOperation.keysDiffer (ChangeOperation.oldAttr op) (ChangeOperation.newAttr op)
     = true
   ∧ store' = store)
  ∨ (e = ChangeOperation.noAttrToRemove
     ∧ ∃ oldAttr id node,
         ChangeOperation.oldAttr op = Some oldAttr ∧ id ∈ visits
         ∧ store' !! id = Some node ∧ Node.hasAttr node oldAttr = false)
  ∨ (e = ChangeOperation.attrExists
     ∧ ChangeOperation.oldAttr op = None
     ∧ ∃ newAttr id node,
         ChangeOperation.newAttr op = Some newAttr ∧ id ∈ visits
         ∧ store' !! id = Some node
         ∧ Node.hasAttrKey node (Attribute.key newAttr) = true)
  ∨ (e = TypeError ∧ ∃ id, id ∈ visits ∧ store' !! id = None).
Proof.
  unfold ChangeOperation._execute.
  destruct (ChangeOperation.keysDiffer _ _) eqn:Hkeys.
  { intros [= <- <-]. by left. }
  destruct op as [range [o|] [n|] version]; simpl in *.
  - (* change *)
    destruct (ChangeOperation.removeOrChange o (Some n) visits store)
      as [removed store1] eqn:Hfirst.
    destruct removed as [e1|[]].
    + intros [= <- <-].
      apply removeOrChange_Throw in Hfirst as [(-> & id & node & ?)|(-> & ?)].
      * right. left. split; [done|]. by exists o, id, node.
      * by do 3 right.
    + intros Hsecond.
      apply insertOrChange_Throw in Hsecond as [(_ & Hnone & _)|(-> & ?)]; [done|].
      by do 3 right.
  - (* removal *)
    destruct (ChangeOperation.removeOrChange o None visits store)
      as [removed store1] eqn:Hfirst.
    destruct removed as [e1|[]]; [|done]. intros [= <- <-].
    apply removeOrChange_Throw in Hfirst as [(-> & id & node & ?)|(-> & ?)].
    + right. left. split; [done|]. by exists o, id, node.
    + by do 3 right.
  - (* insertion *)
    intros Hsecond.
    apply insertOrChange_Throw in Hsecond as [(-> & _ & id & node & ?)|(-> & ?)].
    + do 2 right. left. split; [done|]. split; [done|]. by exists n, id, node.
    + by do 3 right.
  - (* neither *)
    done.
Qed.

Lemma _execute_Throw_reason_witness :
  (ChangeOperation.noAttrToRemove = ChangeOperation.differentKeys
   ∧ ChangeOperation.keysDiffer (ChangeOperation.oldAttr removeFooBar)
       (ChangeOperation.newAttr removeFooBar) = true
   ∧ [Node.mk ∅; Node.mk ∅] = twoNodes)
  ∨ (ChangeOperation.noAttrToRemove = ChangeOperation.noAttrToRemove
     ∧ ∃ oldAttr id node,
         ChangeOperation.oldAttr removeFooBar = Some oldAttr ∧ id ∈ [0; 1]
         ∧ [Node.mk ∅; Node.mk ∅] !! id = Some node ∧ Node.hasAttr node oldAttr = false)
  ∨ (ChangeOperation.noAttrToRemove = ChangeOperation.attrExists
     ∧ ChangeOperation.oldAttr removeFooBar = None
     ∧ ∃ newAttr id node,
         ChangeOperation.newAttr removeFooBar = Some newAttr ∧ id ∈ [0; 1]
         ∧ [Node.mk ∅; Node.mk ∅] !! id = Some node
         ∧ Node.hasAttrKey node (Attribute.key newAttr) = true)
  ∨ (ChangeOperation.noAttrToRemove = TypeError
     ∧ ∃ id, id ∈ [0; 1] ∧ [Node.mk (∅ : gmap string Value); Node.mk ∅] !! id = None).
Proof.
  apply (_execute_Throw_reason removeFooBar [0; 1] twoNodes
           [Node.mk ∅; Node.mk ∅] ChangeOperation.noAttrToRemove).
  vm_compute. reflexivity.
Defined.

(** ** LiveSelection: the keys of the [change:attribute] event *)

Section JSMapKeys.

Context {V : Type}.
Implicit Types (m : list (string * V)) (key k : string).

Lemma delete_keys_sublist key m : (JSMap.delete key m).*1 `sublist_of` m.*1.
Proof.
  induction m as [|[k v] m IH]; [done|]. cbn [JSMap.delete].
  destruct (String.eqb k key); rewrite !fmap_cons.
  - by apply sublist_cons.
  - by apply sublist_skip.
Qed.

Lemma delete_NoDup key m : NoDup m.*1 → NoDup (JSMap.delete key m).*1.
Proof. intros Hnodup. eapply sublist_NoDup; [done | apply delete_keys_sublist]. Qed.

Lemma foldl_set_get k (entries : list (string * V)) m :
  NoDup entries.*1 →
  JSMap.get k (foldl (λ m kv, JSMap.set kv.1 kv.2 m) m entries)
  = match JSMap.get k entries with
    | Some v => Some v
    | None => JSMap.get k m
    end.
Proof.
  revert m. induction entries as [|[key value] entries IH]; intros m Hnodup; [done|].
  rewrite fmap_cons in Hnodup. apply NoDup_cons in Hnodup as [Hfresh Hnodup].
  cbn [foldl JSMap.get fst snd] in *. rewrite IH by done.
  destruct (String.eqb_spec key k) as [->|Hne].
  - apply get_None_keys in Hfresh as ->. apply get_set_eq.
  - by rewrite get_set_ne.
Qed.

(** [toMap] of the entries of a map is the same map, key by key. *)
Lemma toMap_get k (entries : list (string * V)) :
  NoDup entries.*1 → JSMap.get k (JSMap.toMap entries) = JSMap.get k entries.
Proof.
  intros Hnodup. unfold JSMap.toMap. rewrite foldl_set_get by done.
  by destruct (JSMap.get k entries).
Qed.

End JSMapKeys.

Lemma changed_keys (old new : list (string * Value)) (k : string) :
  NoDup new.*1 →
  k ∈ (filter (λ entry : string * Value,
                 negb (JSMap.has entry.1 old)
                 || negb (bool_decide (JSMap.get entry.1 old = Some entry.2)))
              new).*1
      ++ filter (λ oldKey, negb (JSMap.has oldKey new)) old.*1
  ↔ JSMap.get k new ≠ JSMap.get k old.
Proof.
  intros Hnodup. rewrite elem_of_app, list_elem_of_fmap. split.
  - intros [([k' v] & -> & Hentry)|Hgone].
    + apply list_elem_of_filter in Hentry as [Hdiff Hin]. simpl in *.
      rewrite (get_entry _ _ _ Hnodup Hin). intros Hsame.
      unfold JSMap.has in Hdiff. rewrite <- Hsame in Hdiff. simpl in Hdiff.
      by rewrite bool_decide_eq_true_2 in Hdiff.
    + apply list_elem_of_filter in Hgone as [Hgone Hin].
      unfold JSMap.has in Hgone.
      destruct (JSMap.get k new) eqn:Hnew; [done|].
      intros Hsame. symmetry in Hsame. by apply get_None_keys in Hsame.
  - intros Hdiff. destruct (JSMap.get k new) as [v|] eqn:Hnew.
    + left. exists (k, v). split; [done|].
      apply list_elem_of_filter. split; [|by apply get_Some_elem]. simpl.
      unfold JSMap.has. destruct (JSMap.get k old) as [v'|]; [|done]. simpl.
      rewrite bool_decide_eq_false_2; [done | congruence].
    + right. apply list_elem_of_filter. split.
      * unfold JSMap.has. by rewrite Hnew.
      * destruct (decide (k ∈ old.*1)) as [|Hnotin]; [done|].
        apply get_None_keys in Hnotin. congruence.
Qed.

Section AttributeEvent.

Import LiveSelection.

Lemma _setAttributesTo_NoDup attrs directChange s :
  NoDup (_attrs s).*1 → NoDup (_attrs (_setAttributesTo attrs directChange s).2).*1.
Proof.
  intros Hnodup. unfold _setAttributesTo.
  apply (foldl_invariant (λ acc : list string * t, NoDup (_attrs acc.2).*1)).
  - apply (foldl_invariant (λ acc : list string * t, NoDup (_attrs acc.2).*1)); [done|].
    intros [changed s'] [oldKey oldValue] _ Hacc. simpl in *.
    destruct (bool_decide _); [done|].
    unfold _removeAttribute. destruct (_ && _); [done|]. destruct (negb _); [done|].
    simpl. by apply delete_NoDup.
  - intros [changed s'] [key value] _ Hacc. simpl in *.
    unfold _setAttribute. destruct (_ && _); [done|]. destruct (bool_decide _); [done|].
    simpl. by apply set_NoDup.
Qed.

Lemma dropLowPriority_NoDup s :
  NoDup (_attrs s).*1 → NoDup (_attrs (dropLowPriority s)).*1.
Proof.
  intros Hnodup. unfold dropLowPriority.
  apply (foldl_invariant (λ s' : t, NoDup (_attrs s').*1)); [done|].
  intros s' entry _ Hacc. destruct (bool_decide _); [|done].
  simpl. by apply delete_NoDup.
Qed.

(** X27: [_updateAttributes] fires [change:attribute] exactly when the
    value of some key has changed, once, and the keys it names are
    exactly the keys whose value is not what it was (set, changed or
    removed).  [_attrs] is a Map: every key occurs in it once. *)
Theorem _updateAttributes_event (surrounding : t → list (string * Value))
    (clearAll : bool) (s : t) :
  NoDup (_attrs s).*1 →
  ∃ changed,
    effects (_updateAttributes surrounding clearAll s)
    = effects s ++ match changed with
                   | [] => []
                   | _ => [Fire "change:attribute" false changed]
                   end
    ∧ ∀ k, k ∈ changed
           ↔ getAttribute k (_updateAttributes surrounding clearAll s) ≠ getAttribute k s.
Proof.
  intros Hnodup. unfold _updateAttributes.
  set (s1 := if clearAll then _ else _).
  set (s2 := (_setAttributesTo (JSMap.toMap (surrounding s)) false s1).2).
  assert (sameOutsideAttributes s s1) as Hs1.
  { subst s1. destruct clearAll; [done | apply dropLowPriority_frame]. }
  apply (_setAttributesTo_frame s (JSMap.toMap (surrounding s)) false) in Hs1
    as (_ & _ & _ & Heffects).
  fold s2 in Heffects.
  assert (NoDup (_attrs s2).*1) as Hnodup2.
  { apply _setAttributesTo_NoDup. subst s1.
    destruct clearAll; [constructor | by apply dropLowPriority_NoDup]. }
  match goal with
  | |- context [Nat.ltb 0 (length ?c)] => set (changed := c)
  end.
  exists changed. split.
  - destruct changed; simpl; rewrite Heffects; [by rewrite app_nil_r | done].
  - intros k.
    assert (getAttribute k
              (if Nat.ltb 0 (length changed)
               then emit (Fire "change:attribute" false changed) s2 else s2)
            = getAttribute k s2) as -> by (by destruct (Nat.ltb _ _)).
    subst changed. unfold hasAttribute, getAttributes.
    rewrite changed_keys by done.
    unfold getAttribute. by rewrite toMap_get.
Qed.

End AttributeEvent.

Lemma _updateAttributes_event_witness :
  ∃ changed,
    LiveSelection.effects (LiveSelection._updateAttributes italicAround true boldSelection)
    = LiveSelection.effects boldSelection
      ++ match changed with
         | [] => []
         | _ => [LiveSelection.Fire "change:attribute" false changed]
         end
    ∧ ∀ k, k ∈ changed
           ↔ LiveSelection.getAttribute k
               (LiveSelection._updateAttributes italicAround true boldSelection)
             ≠ LiveSelection.getAttribute k boldSelection.
Proof.
  apply (_updateAttributes_event italicAround true boldSelection).
  apply NoDup_singleton.
Defined.

(** ** Transformation of a range: insertions next to it, changes elsewhere *)

Section TransformedPositions.

Import Position.

Lemma _getTransformedByInsertion_siblings name (parent : list nat) p i howMany insertBefore :
  _getTransformedByInsertion (mk name (parent ++ [p])) (mk name (parent ++ [i]))
    howMany insertBefore
  = mk name (parent ++ [if Nat.ltb i p || (Nat.eqb i p && insertBefore)
                        then p + howMany else p]).
Proof.
  unfold _getTransformedByInsertion. cbn [root].
  rewrite String.eqb_refl, !getParentPath_mk, !offset_mk. cbn [negb].
  unfold compareArrays. rewrite compareArraysFrom_refl.
  destruct (_ || _); [|done].
  unfold setOffset. by rewrite getParentPath_mk.
Qed.

Lemma _getTransformedByInsertion_other_root p insertPosition howMany insertBefore :
  root insertPosition ≠ root p →
  _getTransformedByInsertion p insertPosition howMany insertBefore = p.
Proof.
  intros Hroot. unfold _getTransformedByInsertion.
  by replace (String.eqb (root p) (root insertPosition)) with false
    by (symmetry; apply String.eqb_neq; congruence).
Qed.

Lemma _getTransformedByDeletion_other_root p deletePosition howMany :
  root deletePosition ≠ root p →
  _getTransformedByDeletion p deletePosition howMany = p.
Proof.
  intros Hroot. unfold _getTransformedByDeletion.
  by replace (String.eqb (root p) (root deletePosition)) with false
    by (symmetry; apply String.eqb_neq; congruence).
Qed.

Lemma _getTransformedByDeletion_root p deletePosition howMany :
  root (_getTransformedByDeletion p deletePosition howMany) = root p.
Proof.
  unfold _getTransformedByDeletion.
  destruct (String.eqb_spec (root p) (root deletePosition)) as [Hroot|]; [|done].
  simpl. destruct (compareArrays _ _); try done.
  - destruct (Nat.ltb _ _); [|done]. by destruct (Nat.ltb _ _).
  - destruct (Nat.leb _ _); [|done]. by destruct (Nat.ltb _ _).
Qed.

Lemma isBefore_other_root p q : root p ≠ root q → isBefore p q = false.
Proof.
  intros Hroot. destruct (isBefore p q) eqn:Hbefore; [|done].
  by apply isBefore_same_root in Hbefore.
Qed.

Lemma isEqual_other_root p q : root p ≠ root q → isEqual p q = false.
Proof.
  intros Hroot. destruct (isEqual p q) eqn:Hequal; [|done].
  apply isEqual_eq in Hequal. by subst.
Qed.

End TransformedPositions.

(** X28: an insertion of [howMany] nodes among the siblings of the
    boundaries of a flat range, as a delta transforms the range by it:
    the start moves when the nodes are inserted at it or before it; the
    end moves when they are inserted before it, and not when they are
    inserted at it, unless the range is collapsed. *)
Theorem getTransformedByDelta_insert_sibling (name : string) (parent : list nat)
    (a b i howMany : nat) (baseVersion : Z) :
  Range.getTransformedByDelta
    (Range.mk (Position.mk name (parent ++ [a])) (Position.mk name (parent ++ [b])))
    (Delta.mk [Operation.Insert (Position.mk name (parent ++ [i])) howMany baseVersion])
  = Ok [Range.mk
          (Position.mk name (parent ++ [if Nat.leb i a then a + howMany else a]))
          (Position.mk name
             (parent ++ [if Nat.ltb i b || (Nat.eqb i b && Nat.eqb a b)
                         then b + howMany else b]))].
Proof.
  unfold Range.getTransformedByDelta. rewrite createFromRange_id.
  cbn [Delta.operations Range.transformByOperations].
  unfold Range.transformByOperation.
  rewrite bool_decide_eq_true_2 by (by left).
  cbn [mapResult Range.targetOrPosition Range.howManyOrMaxOffset bindResult Ok
       Operation.type Range.sourceOf].
  unfold Range._getTransformedByDocumentChange. rewrite String.eqb_refl.
  unfold Range._getTransformedByInsertion. cbn [andb bindResult Ok concat].
  rewrite createFromRange_id. unfold Range.isCollapsed, Position.isEqual.
  cbn [Range.start Range.end_]. rewrite compareWith_siblings.
  rewrite !_getTransformedByInsertion_siblings, app_nil_r.
  do 4 f_equal.
  - f_equal. destruct (Nat.compare_spec a b); cbn [negb andb];
      rewrite ?andb_true_r, ?andb_false_r, ?orb_false_r;
      destruct (Nat.leb_spec i a), (Nat.ltb_spec i a), (Nat.eqb_spec i a);
      simpl; try done; lia.
  - f_equal. destruct (Nat.compare_spec a b) as [->|Hlt|Hgt]; cbn [negb andb].
    + by rewrite Nat.eqb_refl.
    + replace (Nat.eqb a b) with false by (symmetry; apply Nat.eqb_neq; lia). done.
    + replace (Nat.eqb a b) with false by (symmetry; apply Nat.eqb_neq; lia). done.
Qed.

(** X29: a change of the document in other roots leaves a range as it
    is: an insertion at [targetPosition], or a move from [sourcePosition]
    to [targetPosition], both in roots other than those of the
    boundaries of the range. *)
Theorem _getTransformedByDocumentChange_other_root (r : Range.t) (type : string)
    (targetPosition sourcePosition : Position.t) (howMany : nat) :
  Position.root targetPosition ≠ Position.root (Range.start r) →
  Position.root targetPosition ≠ Position.root (Range.end_ r) →
  Position.root sourcePosition ≠ Position.root (Range.start r) →
  Position.root sourcePosition ≠ Position.root (Range.end_ r) →
  Range._getTransformedByDocumentChange r type targetPosition howMany (Some sourcePosition)
  = Ok [r].
Proof.
  intros Htarget1 Htarget2 Hsource1 Hsource2.
  unfold Range._getTransformedByDocumentChange.
  destruct (String.eqb type "insert").
  - unfold Range._getTransformedByInsertion. cbn [andb].
    rewrite createFromRange_id, !_getTransformedByInsertion_other_root by done.
    by destruct r.
  - unfold Range._getTransformedByMove. f_equal.
    assert (Position.root (Position._getTransformedByDeletion
                             targetPosition sourcePosition howMany)
            ≠ Position.root (Range.start r)) as Htarget1'
      by by rewrite _getTransformedByDeletion_root.
    assert (Position.root (Position._getTransformedByDeletion
                             targetPosition sourcePosition howMany)
            ≠ Position.root (Range.end_ r)) as Htarget2'
      by by rewrite _getTransformedByDeletion_root.
    destruct (Range.isCollapsed r) eqn:Hcollapsed.
    + unfold Position._getTransformedByMove.
      rewrite (_getTransformedByDeletion_other_root (Range.start r)) by done.
      rewrite isEqual_other_root by congruence. cbn [andb].
      rewrite _getTransformedByInsertion_other_root by done.
      unfold Range.isCollapsed in Hcollapsed. apply isEqual_eq in Hcollapsed.
      unfold Range.new. rewrite createFromPosition_id.
      destruct r as [start end_]. simpl in *. by subst.
    + assert (Range.isIntersecting r
                (Range.new sourcePosition
                   (Some (Position.getShiftedBy sourcePosition howMany))) = false) as Hint.
      { unfold Range.isIntersecting, Range.new. rewrite !createFromPosition_id.
        cbn [Range.start Range.end_]. by rewrite isBefore_other_root. }
      unfold Range.getDifference, Range.getIntersection. rewrite Hint.
      rewrite createFromRange_id, app_nil_r.
      rewrite !_getTransformedByDeletion_other_root by done.
      rewrite Range_new_id. unfold Range._getTransformedByInsertion.
      rewrite bool_decide_eq_false_2 by (by intros [? [=]]). cbn [andb].
      rewrite createFromRange_id, !_getTransformedByInsertion_other_root by done.
      by destruct r.
Qed.

Lemma _getTransformedByDocumentChange_other_root_witness :
  Range._getTransformedByDocumentChange (flatRange 2 5) "move"
    (Position.mk "$graveyard" [0]) 3 (Some (Position.mk "$graveyard" [4]))
  = Ok [flatRange 2 5].
Proof.
  apply (_getTransformedByDocumentChange_other_root (flatRange 2 5) "move"
           (Position.mk "$graveyard" [0]) (Position.mk "$graveyard" [4]) 3);
    discriminate.
Defined.
